(** * useStream: the playback-lifecycle controller of src/stream/useStream.ts

    A shallow embedding of the hook as an event-driven machine.  JavaScript
    runs one synchronous segment at a time, so every piece of code between
    two [await]s is a state transformer on [Hook]; an in-flight async call
    is a [Task] parked at the [await] it is suspended on, and the
    environment (React commits, store changes, timers, settled promises,
    player events) drives the machine through [step].

    A closure is identified with the render that created it: it reads the
    React state and store values of that render, and the refs as they are
    when it runs.  The memoised callbacks of the hook change exactly when a
    value they read changes, so this agrees with [useCallback].

    Outside the model: the volume arithmetic, resizing, the touch-unlock
    listener of the INIT effect, unmounting, and console output. *)

From Stdlib Require Import ZArith Lia.
From stdpp Require Import base strings list.

(** ** Enumerations of src/common/stream.ts *)

Module PlayerStatus.
Inductive t :=
| STOPPED | DESTROYING | DESTROYED | LOADING | LOADED
| PLAYING | PLAYED | PAUSED | CHANGING | SEEKING.

Definition code (s : t) : Z :=
  match s with
  | STOPPED => 0 | DESTROYING => 1 | DESTROYED => 2 | LOADING => 3
  | LOADED => 4 | PLAYING => 5 | PLAYED => 6 | PAUSED => 7
  | CHANGING => 9 | SEEKING => 8
  end%Z.
End PlayerStatus.

Module PlayerEventType.
Inductive t :=
| LOADING | LOADED | PLAYING | PLAYED | PAUSED | STOPPED | ENDED
| SEEKING | SEEKED | CHANGING | CHANGED | TIMEOUT | ERROR | TIME
| RESUME | AUDIO_CONTEXT_RUNNING | FIRST_AUDIO_RENDERED
| FIRST_VIDEO_RENDERED | STREAM_UPDATE | PROGRESS | VOLUME_CHANGE
| SUBTITLE_DELAY_CHANGE | QUALITY_CHANGE | TIMEUP.

Definition eqb (a b : t) : bool :=
  match a, b with
  | LOADING, LOADING | LOADED, LOADED | PLAYING, PLAYING | PLAYED, PLAYED
  | PAUSED, PAUSED | STOPPED, STOPPED | ENDED, ENDED | SEEKING, SEEKING
  | SEEKED, SEEKED | CHANGING, CHANGING | CHANGED, CHANGED
  | TIMEOUT, TIMEOUT | ERROR, ERROR | TIME, TIME | RESUME, RESUME
  | AUDIO_CONTEXT_RUNNING, AUDIO_CONTEXT_RUNNING
  | FIRST_AUDIO_RENDERED, FIRST_AUDIO_RENDERED
  | FIRST_VIDEO_RENDERED, FIRST_VIDEO_RENDERED
  | STREAM_UPDATE, STREAM_UPDATE | PROGRESS, PROGRESS
  | VOLUME_CHANGE, VOLUME_CHANGE
  | SUBTITLE_DELAY_CHANGE, SUBTITLE_DELAY_CHANGE
  | QUALITY_CHANGE, QUALITY_CHANGE | TIMEUP, TIMEUP => true
  | _, _ => false
  end.
End PlayerEventType.

(** [QUALITIES = ["lo", "me", "hi", "hd"]], the keys of a stream record. *)
Definition QUALITIES : list string := ["lo"; "me"; "hi"; "hd"].

(** ** Data of useStream.ts *)

(** [Stream]: the per-tier URLs; a missing key is [undefined]. *)
Record Stream := mkStream { lo : option string; me : option string;
                            hi : option string; hd : option string }.

(** [streams]: an object whose identity React compares ([ident]) and whose
    [primary] member is optional. *)
Record Streams := mkStreams { ident : nat; primary : option Stream }.

(** [settingQuality]: ['AUTO'] or a tier number. *)
Inductive VideoQuality := AUTO | Tier (q : Z).

(** [QualityEvent]. *)
Record QualityEvent := mkQualityEvent {
  upgrade : bool;            (* type: 'upgrade' | 'downgrade' *)
  currentQuality : Z;
  from : option Z;
  to : option Z;
  totalQuality : Z;
  videoStutter : Z;
  maxAllowedQuality : option Z }.

(** Values thrown or rejected: an [Error] made by the hook, with its
    message, or whatever the player rejected or emitted. *)
Inductive Err := JsError (message : string) | PlayerFault (payload : string).

Definition NetworkConditionsError : Err :=
  JsError "Network conditions not suitable for playing video".
Definition FirstFrameTimeout : Err := JsError "First frame timeout".
Definition NotInitialized : Err := JsError "Player is not initialized".

(** [maxRetries]: a number or [Infinity] (the default). *)
Inductive Retries := Finite (n : nat) | Infinity.

(** [retryCount >= maxRetry] *)
Definition exhausted (retryCount : nat) (maxRetry : Retries) : bool :=
  match maxRetry with
  | Finite m => m <=? retryCount
  | Infinity => false
  end.

Inductive SnapshotFormat := webp | png | jpeg.

(** [playbackSettings]: the members that steer control flow.  The two
    floating-point members (snapshotQuality, volumeMultiplier) only
    parameterise calls into the player and are left out. *)
Record PlaybackSettings := mkPlaybackSettings {
  snapshotFormat : SnapshotFormat;
  stopDelay : option Z;       (* milliseconds; a missing member is [None] *)
  retryDelay : option Z;
  maxRetries : Retries }.

(** [UseStreamConfig]; the three callbacks are optional, the booleans say
    whether the caller passed them. *)
Record UseStreamConfig := mkConfig {
  playbackSettings : PlaybackSettings;
  renderMode : nat;
  onPlay : bool;
  onStop : bool;
  onError : bool }.

Definition defaultConfig : UseStreamConfig :=
  mkConfig (mkPlaybackSettings webp (Some 10000%Z) (Some 10000%Z) Infinity)
           1 false false false.

(** What one render of the hook sees: store selections and React state.
    Closures created in a render keep reading these values. *)
Record Render := mkRender {
  isVisible : bool;
  isIdleTimeout : bool;
  isExpired : bool;
  isMultiSession : bool;
  isMaintenance : bool;
  snapshot : string;
  isLoading : bool;
  isInit : bool;
  streamQuality : Z;
  videoEl : bool;
  settingQuality : VideoQuality;
  streams : option Streams }.

(** [stateRefs.current]: the mirror that the first effect refreshes. *)
Record StateRefs := mkStateRefs {
  ref_isVisible : bool;
  ref_isIdleTimeout : bool;
  ref_isMultiSession : bool;
  ref_isExpired : bool;
  ref_isMaintenance : bool;
  ref_snapshot : string }.

(** A player is named by its position in [players]. *)
Abbreviation handle := nat (only parsing).

(** Listeners the hook attaches with [p.on]. *)
Inductive Listener :=
| L_onFirstFrame (attempt : nat)   (* loadAndPlayVideo: onFirstFrame *)
| L_onError (attempt : nat)        (* loadAndPlayVideo: onError *)
| L_restart                        (* registerPlayerCallbacks: freeze, then restart *)
| L_qualityChange (r : Render).    (* regQualityModeCallback, closed over [r] *)

(** An IKGPlayer as far as the hook can tell: its status and the frame
    [snapshot()] would give ([None]: it throws) belong to the player; the
    listeners and the two teardown marks record what the hook did to it. *)
Record PlayerObj := mkPlayer {
  status : PlayerStatus.t;
  frame : option string;
  listeners : list (PlayerEventType.t * Listener);
  stopCalled : bool;
  destroyCalled : bool }.

Inductive Volume := Muted | Calculated.

(** Observable actions, most recent first in the log. *)
Inductive Action :=
| Construct (h : handle)
| SetRenderMode (h : handle) (mode : nat)
| SetVolume (h : handle) (v : Volume)
| SetMaxLatency (h : handle) (s : nat)
| SetLogLevel (h : handle) (l : nat)
| Load (h : handle) (url : string)
| Play (h : handle)
| Stop (h : handle)
| Destroy (h : handle)
| Resume (h : handle)
| ConfigQualityMode (h : handle) (current : Z) (total : nat)
| FirstFrameRendered (h : handle)
| CallOnPlay
| CallOnStop
| CallOnError (e : Err)
| Sleep (ms : option Z)
| SetTimeout (ms : option Z)
| SetSnapshot (s : string)
| SetIsLoading (b : bool)
| SetStreamQuality (q : Z)
| SetIsInit (b : bool)
| SetIsCanStream (b : bool).

(** Where a [doDestroyAndPlay] or [stopVideoWithSnapshot] call is parked. *)
Inductive Ctl :=
| Running                       (* executing its current synchronous segment *)
| AwaitSleep100                 (* stopVideoWithSnapshot: await sleep(100) *)
| AwaitStop (h : handle)        (* stopAndDestroy: await p.stop() *)
| AwaitDestroy (h : handle)     (* stopAndDestroy: await p.destroy() *)
| AwaitSleep50                  (* doDestroyAndPlay: await sleep(50) *)
| AwaitRace (h : handle)        (* loadAndPlayVideo: await Promise.race *)
| AwaitResume (h : handle)      (* resumeAndSetVolume: await p.resume() *)
| AwaitRetryDelay               (* doDestroyAndPlay: await sleep(retryDelay) *)
| Returned.

(** [p.load(source).then(() => p.play()).catch(onError)] *)
Inductive Chain := NoChain | LoadPending (h : handle) | PlayPending (h : handle) | ChainSettled.

Inductive Call :=
| DoDestroyAndPlay (retryCount : nat) (maxRetry : Retries)
| StopVideoWithSnapshot
| Clear.                        (* the clean-up of the INIT effect *)

Record Task := mkTask {
  call : Call;
  closure : Render;     (* the render whose closure is running *)
  ctl : Ctl;
  timer : bool;         (* the first-frame timer is set and has not fired *)
  chain : Chain }.

Record Hook := mkHook {
  player : option handle;                 (* player.current *)
  isDoDestroyAndPlayRunning : bool;       (* isDoDestroyAndPlayRunning.current *)
  stateRefs : StateRefs;                  (* stateRefs.current *)
  doDestroyAndPlayRef : option Render;    (* doDestroyAndPlayRef.current, by its render *)
  cur : Render;                           (* what the next render will read *)
  rendered : option Render;               (* the last committed render *)
  initCleanup : bool;                     (* the INIT effect left a clean-up *)
  isCanStream : option bool;              (* useLayoutStore *)
  players : list PlayerObj;               (* every IKGPlayer ever created *)
  tasks : list Task;                      (* every async call ever started *)
  log : list (option nat * Action) }.

(** ** Field updates *)

Definition with_player (v : option handle) (st : Hook) : Hook :=
  mkHook v (isDoDestroyAndPlayRunning st) (stateRefs st) (doDestroyAndPlayRef st)
         (cur st) (rendered st) (initCleanup st) (isCanStream st) (players st)
         (tasks st) (log st).
Definition with_running (v : bool) (st : Hook) : Hook :=
  mkHook (player st) v (stateRefs st) (doDestroyAndPlayRef st)
         (cur st) (rendered st) (initCleanup st) (isCanStream st) (players st)
         (tasks st) (log st).
Definition with_stateRefs (v : StateRefs) (st : Hook) : Hook :=
  mkHook (player st) (isDoDestroyAndPlayRunning st) v (doDestroyAndPlayRef st)
         (cur st) (rendered st) (initCleanup st) (isCanStream st) (players st)
         (tasks st) (log st).
Definition with_ref (v : option Render) (st : Hook) : Hook :=
  mkHook (player st) (isDoDestroyAndPlayRunning st) (stateRefs st) v
         (cur st) (rendered st) (initCleanup st) (isCanStream st) (players st)
         (tasks st) (log st).
Definition with_cur (v : Render) (st : Hook) : Hook :=
  mkHook (player st) (isDoDestroyAndPlayRunning st) (stateRefs st)
         (doDestroyAndPlayRef st) v (rendered st) (initCleanup st)
         (isCanStream st) (players st) (tasks st) (log st).
Definition with_rendered (v : option Render) (st : Hook) : Hook :=
  mkHook (player st) (isDoDestroyAndPlayRunning st) (stateRefs st)
         (doDestroyAndPlayRef st) (cur st) v (initCleanup st)
         (isCanStream st) (players st) (tasks st) (log st).
Definition with_initCleanup (v : bool) (st : Hook) : Hook :=
  mkHook (player st) (isDoDestroyAndPlayRunning st) (stateRefs st)
         (doDestroyAndPlayRef st) (cur st) (rendered st) v
         (isCanStream st) (players st) (tasks st) (log st).
Definition with_isCanStream (v : option bool) (st : Hook) : Hook :=
  mkHook (player st) (isDoDestroyAndPlayRunning st) (stateRefs st)
         (doDestroyAndPlayRef st) (cur st) (rendered st) (initCleanup st)
         v (players st) (tasks st) (log st).
Definition with_players (v : list PlayerObj) (st : Hook) : Hook :=
  mkHook (player st) (isDoDestroyAndPlayRunning st) (stateRefs st)
         (doDestroyAndPlayRef st) (cur st) (rendered st) (initCleanup st)
         (isCanStream st) v (tasks st) (log st).
Definition with_tasks (v : list Task) (st : Hook) : Hook :=
  mkHook (player st) (isDoDestroyAndPlayRunning st) (stateRefs st)
         (doDestroyAndPlayRef st) (cur st) (rendered st) (initCleanup st)
         (isCanStream st) (players st) v (log st).
Definition with_log (v : list (option nat * Action)) (st : Hook) : Hook :=
  mkHook (player st) (isDoDestroyAndPlayRunning st) (stateRefs st)
         (doDestroyAndPlayRef st) (cur st) (rendered st) (initCleanup st)
         (isCanStream st) (players st) (tasks st) v.

Definition render_snapshot (v : string) (r : Render) : Render :=
  mkRender (isVisible r) (isIdleTimeout r) (isExpired r) (isMultiSession r)
           (isMaintenance r) v (isLoading r) (isInit r) (streamQuality r)
           (videoEl r) (settingQuality r) (streams r).
Definition render_isLoading (v : bool) (r : Render) : Render :=
  mkRender (isVisible r) (isIdleTimeout r) (isExpired r) (isMultiSession r)
           (isMaintenance r) (snapshot r) v (isInit r) (streamQuality r)
           (videoEl r) (settingQuality r) (streams r).
Definition render_isInit (v : bool) (r : Render) : Render :=
  mkRender (isVisible r) (isIdleTimeout r) (isExpired r) (isMultiSession r)
           (isMaintenance r) (snapshot r) (isLoading r) v (streamQuality r)
           (videoEl r) (settingQuality r) (streams r).
Definition render_streamQuality (v : Z) (r : Render) : Render :=
  mkRender (isVisible r) (isIdleTimeout r) (isExpired r) (isMultiSession r)
           (isMaintenance r) (snapshot r) (isLoading r) (isInit r) v
           (videoEl r) (settingQuality r) (streams r).

Definition task_ctl (v : Ctl) (t : Task) : Task :=
  mkTask (call t) (closure t) v (timer t) (chain t).
Definition task_timer (v : bool) (t : Task) : Task :=
  mkTask (call t) (closure t) (ctl t) v (chain t).
Definition task_chain (v : Chain) (t : Task) : Task :=
  mkTask (call t) (closure t) (ctl t) (timer t) v.

Definition player_listeners (v : list (PlayerEventType.t * Listener))
    (p : PlayerObj) : PlayerObj :=
  mkPlayer (status p) (frame p) v (stopCalled p) (destroyCalled p).
Definition player_stopCalled (p : PlayerObj) : PlayerObj :=
  mkPlayer (status p) (frame p) (listeners p) true (destroyCalled p).
Definition player_destroyCalled (p : PlayerObj) : PlayerObj :=
  mkPlayer (status p) (frame p) (listeners p) (stopCalled p) true.
Definition player_status (v : PlayerStatus.t) (p : PlayerObj) : PlayerObj :=
  mkPlayer v (frame p) (listeners p) (stopCalled p) (destroyCalled p).
Definition player_frame (v : option string) (p : PlayerObj) : PlayerObj :=
  mkPlayer (status p) v (listeners p) (stopCalled p) (destroyCalled p).

(** Apply [f] to slot [i] of a list; nothing happens out of range. *)
Definition update {A} (i : nat) (f : A → A) (l : list A) : list A :=
  match l !! i with
  | Some x => <[i := f x]> l
  | None => l
  end.

Definition on_task (tid : nat) (f : Task → Task) (st : Hook) : Hook :=
  with_tasks (update tid f (tasks st)) st.
Definition on_player (h : handle) (f : PlayerObj → PlayerObj) (st : Hook) : Hook :=
  with_players (update h f (players st)) st.

Definition park (tid : nat) (c : Ctl) : Hook → Hook := on_task tid (task_ctl c).

(** JavaScript truthiness of a string. *)
Definition truthy (s : string) : bool :=
  match s with EmptyString => false | _ => true end.

(** Decidable equality, for the dependency arrays of the effects. *)
#[global] Instance VideoQuality_eq_dec : EqDecision VideoQuality.
Proof. solve_decision. Defined.
#[global] Instance Stream_eq_dec : EqDecision Stream.
Proof. solve_decision. Defined.
#[global] Instance Streams_eq_dec : EqDecision Streams.
Proof. solve_decision. Defined.

(** ** The synchronous segments of the hook *)

Section Controller.
Variable cfg : UseStreamConfig.

(** Every action is logged with the async call it belongs to, if any. *)
Definition say (o : option nat) (a : Action) (st : Hook) : Hook :=
  with_log ((o, a) :: log st) st.

(** React state setters: the value is what the next render reads. *)
Definition setSnapshot (o : option nat) (s : string) (st : Hook) : Hook :=
  say o (SetSnapshot s) (with_cur (render_snapshot s (cur st)) st).
Definition setIsLoading (o : option nat) (b : bool) (st : Hook) : Hook :=
  say o (SetIsLoading b) (with_cur (render_isLoading b (cur st)) st).
Definition setIsInit (o : option nat) (b : bool) (st : Hook) : Hook :=
  say o (SetIsInit b) (with_cur (render_isInit b (cur st)) st).
Definition setStreamQuality (o : option nat) (q : Z) (st : Hook) : Hook :=
  say o (SetStreamQuality q) (with_cur (render_streamQuality q (cur st)) st).
Definition setIsCanStream (o : option nat) (b : bool) (st : Hook) : Hook :=
  say o (SetIsCanStream b) (with_isCanStream (Some b) st).

(** [onPlay?.()], [onStop?.()], [onError?.(error)] *)
Definition optional (provided : bool) (o : option nat) (a : Action)
    (st : Hook) : Hook :=
  if provided then say o a st else st.

Definition member (key : string) (s : Stream) : option string :=
  if String.eqb key "lo" then lo s
  else if String.eqb key "me" then me s
  else if String.eqb key "hi" then hi s
  else if String.eqb key "hd" then hd s
  else None.

(** [getStreamUrl]: [streams?.primary?.[QUALITIES[streamQuality]] ?? ''] *)
Definition getStreamUrl (r : Render) : string :=
  let streamKey :=
    if (0 <=? streamQuality r)%Z
    then QUALITIES !! Z.to_nat (streamQuality r) else None in
  match streams r with
  | Some s =>
      match primary s, streamKey with
      | Some p, Some k => default "" (member k p)
      | _, _ => ""
      end
  | None => ""
  end.

(** [getPlayerStatus]: [player.current?.getStatus()] *)
Definition getPlayerStatus (st : Hook) : option PlayerStatus.t :=
  match player st with
  | Some h => status <$> players st !! h
  | None => None
  end.

(** [isPlaying]: the status is PLAYING or PLAYED *)
Definition isPlaying (st : Hook) : bool :=
  match getPlayerStatus st with
  | Some PlayerStatus.PLAYING | Some PlayerStatus.PLAYED => true
  | _ => false
  end.

(** [getSnapshot]: [''] without a player or when [snapshot()] throws *)
Definition getSnapshot (st : Hook) : string :=
  match player st with
  | None => ""
  | Some h =>
      match players st !! h with
      | Some p => default "" (frame p)
      | None => ""
      end
  end.

(** [freezeWithSnapshot] *)
Definition freezeWithSnapshot (o : option nat) (st : Hook) : Hook :=
  if truthy (ref_snapshot (stateRefs st)) then st
  else
    let s := getSnapshot st in
    let st := setIsLoading o true st in
    if truthy s then setSnapshot o s st else st.

(** The object literal of [shouldSkipPlay], in its order. *)
Definition shouldSkip (r : Render) (st : Hook) : list (string * bool) :=
  [ ("No stream URL available", negb (truthy (getStreamUrl r)));
    ("Player not initialized", negb (isInit r));
    ("doDestroyAndPlay already running", isDoDestroyAndPlayRunning st);
    ("Idle timeout active", ref_isIdleTimeout (stateRefs st));
    ("Multi-session detected", ref_isMultiSession (stateRefs st));
    ("Session expired", ref_isExpired (stateRefs st));
    ("Player not visible", negb (ref_isVisible (stateRefs st))) ].

(** [shouldSkipPlay]: true at the first entry that holds *)
Definition shouldSkipPlay (r : Render) (st : Hook) : bool :=
  existsb snd (shouldSkip r st).

(** The guard of [loadAndPlayVideo]. *)
Definition networkConditions (s : StateRefs) : bool :=
  ref_isExpired s || ref_isIdleTimeout s || ref_isMultiSession s
  || ref_isMaintenance s.

Definition listen (h : handle) (e : PlayerEventType.t) (l : Listener)
    (st : Hook) : Hook :=
  on_player h (λ p, player_listeners (listeners p ++ [(e, l)]) p) st.

(** [regQualityModeCallback], from the render [r] *)
Definition regQualityModeCallback (o : option nat) (r : Render) (h : handle)
    (st : Hook) : Hook :=
  let st := listen h PlayerEventType.QUALITY_CHANGE (L_qualityChange r) st in
  say o (ConfigQualityMode h (streamQuality r) (length QUALITIES)) st.

(** [registerPlayerCallbacks], from the render [r] *)
Definition registerPlayerCallbacks (o : option nat) (r : Render) (h : handle)
    (st : Hook) : Hook :=
  let st :=
    match doDestroyAndPlayRef st with
    | Some _ =>
        listen h PlayerEventType.ERROR L_restart
          (listen h PlayerEventType.ENDED L_restart
             (listen h PlayerEventType.STOPPED L_restart st))
    | None => st
    end in
  match settingQuality (cur st) with   (* useSettingStore.getState() *)
  | AUTO => regQualityModeCallback o r h st
  | Tier _ => st
  end.

(** [loadAndPlayVideo] up to its [await]: either it throws at once, or the
    timer is set, the two listeners are attached and [load] is issued. *)
Definition loadAndPlayVideo (tid : nat) (h : handle) (source : string)
    (timeoutMs : option Z) (st : Hook) : Hook + Err :=
  if networkConditions (stateRefs st) then inr NetworkConditionsError
  else
    let st := on_task tid (task_timer true) (say (Some tid) (SetTimeout timeoutMs) st) in
    let st := listen h PlayerEventType.FIRST_VIDEO_RENDERED (L_onFirstFrame tid) st in
    let st := listen h PlayerEventType.ERROR (L_onError tid) st in
    let st := say (Some tid) (Load h source) st in
    inl (on_task tid (task_chain (LoadPending h)) st).

(** The [catch] of [doDestroyAndPlay]. *)
Definition retryOrHalt (tid retryCount : nat) (maxRetry : Retries)
    (st : Hook) : Hook :=
  if exhausted retryCount maxRetry
  then park tid Returned (setIsCanStream (Some tid) false st)
  else park tid AwaitRetryDelay
         (say (Some tid) (Sleep (retryDelay (playbackSettings cfg))) st).

(** The [catch] of [play]: [onError?.(error)], then rethrow into the caller. *)
Definition playFailed (tid : nat) (e : Err) (st : Hook) : Hook :=
  let st := optional (onError cfg) (Some tid) (CallOnError e) st in
  match tasks st !! tid with
  | Some (mkTask (DoDestroyAndPlay retryCount maxRetry) _ _ _ _) =>
      retryOrHalt tid retryCount maxRetry st
  | _ => st
  end.

(** [initPlayerInstance] and the four setters that follow it in [play]. *)
Definition newPlayer : PlayerObj :=
  mkPlayer PlayerStatus.STOPPED None [] false false.

Definition construct (tid : nat) (st : Hook) : handle * Hook :=
  let h := length (players st) in
  let st := with_player (Some h) (with_players (players st ++ [newPlayer]) st) in
  let st := say (Some tid) (Construct h) st in
  let st := say (Some tid) (SetRenderMode h (renderMode cfg)) st in
  let st := say (Some tid) (SetVolume h Muted) st in
  let st := say (Some tid) (SetMaxLatency h 3) st in
  (h, say (Some tid) (SetLogLevel h 2) st).

(** [play] up to its first [await], from the render [r]. *)
Definition play (tid : nat) (r : Render) (st : Hook) : Hook :=
  let url := getStreamUrl r in
  let st := setIsCanStream (Some tid) (truthy url) st in
  if negb (truthy url) || negb (videoEl r) then playFailed tid NotInitialized st
  else
    let '(h, st) := construct tid st in
    match loadAndPlayVideo tid h url (retryDelay (playbackSettings cfg)) st with
    | inr e => playFailed tid e st
    | inl st => park tid (AwaitRace h) st
    end.

(** [doDestroyAndPlay] from [setIsLoading(true)] to the [await] in [play]. *)
Definition attempt (tid : nat) (r : Render) (st : Hook) : Hook :=
  play tid r (setIsLoading (Some tid) true st).

(** What follows once [stopVideoWithSnapshot] or [clear] has settled. *)
Definition afterStop (tid : nat) (st : Hook) : Hook :=
  match call <$> tasks st !! tid with
  | Some (DoDestroyAndPlay _ _) =>
      park tid AwaitSleep50 (say (Some tid) (Sleep (Some 50%Z)) st)
  | _ => park tid Returned st
  end.

(** [stopVideoWithSnapshot] up to its first [await]. *)
Definition stopVideoWithSnapshot (tid : nat) (st : Hook) : Hook :=
  let st := freezeWithSnapshot (Some tid) st in
  if bool_decide (player st = None) || negb (isPlaying st) then afterStop tid st
  else park tid AwaitSleep100 (say (Some tid) (Sleep (Some 100%Z)) st).

Definition spawn (c : Call) (r : Render) (st : Hook) : nat * Hook :=
  (length (tasks st),
   with_tasks (tasks st ++ [mkTask c r Running false NoChain]) st).

(** [doDestroyAndPlay], from the render [r], up to its first [await]. *)
Definition doDestroyAndPlay (r : Render) (retryCount : nat)
    (maxRetry : Retries) (st : Hook) : Hook :=
  if shouldSkipPlay r st then st
  else
    let '(tid, st) := spawn (DoDestroyAndPlay retryCount maxRetry) r st in
    let st := with_running true st in
    match player st with
    | Some _ => stopVideoWithSnapshot tid st
    | None => attempt tid r st
    end.

(** [doDestroyAndPlayRef.current?.()], with the default parameters *)
Definition restart (st : Hook) : Hook :=
  match doDestroyAndPlayRef st with
  | Some r => doDestroyAndPlay r 0 (maxRetries (playbackSettings cfg)) st
  | None => st
  end.

(** *** Continuations: what runs when an [await] is over *)

(** How a promise of the player settled. *)
Inductive Outcome := Fulfilled | Rejected (payload : string).

(** [stopVideoWithSnapshot] after [sleep(100)]: [stopAndDestroy(player.current)];
    with no player left it returns, [onStop?.()] runs and [finally]
    clears the ref. *)
Definition stopNow (tid : nat) (st : Hook) : Hook :=
  match player st with
  | Some h =>
      park tid (AwaitStop h)
        (on_player h player_stopCalled (say (Some tid) (Stop h) st))
  | None =>
      afterStop tid
        (with_player None (optional (onStop cfg) (Some tid) CallOnStop st))
  end.

(** [p.stop()] settled: [p.destroy()], or the [catch] and [finally]. *)
Definition stopSettled (tid : nat) (h : handle) (res : Outcome)
    (st : Hook) : Hook :=
  match res with
  | Fulfilled =>
      park tid (AwaitDestroy h)
        (on_player h player_destroyCalled (say (Some tid) (Destroy h) st))
  | Rejected _ => afterStop tid (with_player None st)
  end.

(** [p.destroy()] settled: [onStop?.()] (not in [clear]), then [finally]. *)
Definition destroySettled (tid : nat) (res : Outcome) (st : Hook) : Hook :=
  match res, call <$> tasks st !! tid with
  | Fulfilled, Some Clear => afterStop tid (with_player None st)
  | Fulfilled, _ =>
      afterStop tid
        (with_player None (optional (onStop cfg) (Some tid) CallOnStop st))
  | Rejected _, _ => afterStop tid (with_player None st)
  end.

(** The rest of [play] after [resumeAndSetVolume], and the success branch
    of [doDestroyAndPlay]. *)
Definition succeeded (tid : nat) (st : Hook) : Hook :=
  let st := optional (onPlay cfg) (Some tid) CallOnPlay st in   (* play *)
  let st := setSnapshot (Some tid) "" st in                     (* doDestroyAndPlay *)
  let st := optional (onPlay cfg) (Some tid) CallOnPlay st in
  let st := with_running false st in
  park tid Returned (setIsLoading (Some tid) false st).

(** [p.resume()] settled. *)
Definition resumeSettled (tid : nat) (h : handle) (res : Outcome)
    (st : Hook) : Hook :=
  match res with
  | Fulfilled => succeeded tid (say (Some tid) (SetVolume h Calculated) st)
  | Rejected payload => playFailed tid (PlayerFault payload) st
  end.

(** [Promise.race] resolves: [play] goes on with
    [resumeAndSetVolume(player.current)].  A promise that has settled
    ignores every later [resolve] and [reject]. *)
Definition resolve (tid : nat) (st : Hook) : Hook :=
  match ctl <$> tasks st !! tid with
  | Some (AwaitRace _) =>
      match player st with
      | Some h => park tid (AwaitResume h) (say (Some tid) (Resume h) st)
      | None => succeeded tid st
      end
  | _ => st
  end.

Definition reject (tid : nat) (e : Err) (st : Hook) : Hook :=
  match ctl <$> tasks st !! tid with
  | Some (AwaitRace _) => playFailed tid e st
  | _ => st
  end.

(** [cleanup]: [clearTimeout(timeoutId)] *)
Definition cleanup (tid : nat) (st : Hook) : Hook :=
  on_task tid (task_timer false) st.

(** The two listeners of [loadAndPlayVideo]. *)
Definition attempt_onFirstFrame (tid : nat) (h : handle) (st : Hook) : Hook :=
  match closure <$> tasks st !! tid with
  | Some r =>
      let st := say (Some tid) (FirstFrameRendered h) st in
      let st := cleanup tid st in
      let st := registerPlayerCallbacks (Some tid) r h st in
      resolve tid st
  | None => st
  end.

Definition attempt_onError (tid : nat) (e : Err) (st : Hook) : Hook :=
  reject tid e (cleanup tid st).

(** The first-frame timer of the attempt fires. *)
Definition timedOut (tid : nat) (st : Hook) : Hook :=
  match timer <$> tasks st !! tid with
  | Some true => reject tid FirstFrameTimeout (on_task tid (task_timer false) st)
  | _ => st
  end.

(** [p.load(source)] settled: [.then(() => p.play())] or [.catch(onError)]. *)
Definition loadSettled (tid : nat) (res : Outcome) (st : Hook) : Hook :=
  match chain <$> tasks st !! tid with
  | Some (LoadPending h) =>
      match res with
      | Fulfilled =>
          on_task tid (task_chain (PlayPending h)) (say (Some tid) (Play h) st)
      | Rejected payload =>
          attempt_onError tid (PlayerFault payload)
            (on_task tid (task_chain ChainSettled) st)
      end
  | _ => st
  end.

Definition playSettled (tid : nat) (res : Outcome) (st : Hook) : Hook :=
  match chain <$> tasks st !! tid with
  | Some (PlayPending h) =>
      let st := on_task tid (task_chain ChainSettled) st in
      match res with
      | Fulfilled => st
      | Rejected payload => attempt_onError tid (PlayerFault payload) st
      end
  | _ => st
  end.

(** A [sleep] is over. *)
Definition wake (tid : nat) (st : Hook) : Hook :=
  match tasks st !! tid with
  | Some t =>
      match ctl t, call t with
      | AwaitSleep100, _ => stopNow tid st
      | AwaitSleep50, _ => attempt tid (closure t) st
      | AwaitRetryDelay, DoDestroyAndPlay retryCount maxRetry =>
          let st := park tid Returned (with_running false st) in
          match doDestroyAndPlayRef st with
          | Some r => doDestroyAndPlay r (retryCount + 1) maxRetry st
          | None => st
          end
      | _, _ => st
      end
  | None => st
  end.

(** An awaited [stop], [destroy] or [resume] settles. *)
Definition settle (tid : nat) (res : Outcome) (st : Hook) : Hook :=
  match ctl <$> tasks st !! tid with
  | Some (AwaitStop h) => stopSettled tid h res st
  | Some (AwaitDestroy _) => destroySettled tid res st
  | Some (AwaitResume h) => resumeSettled tid h res st
  | _ => st
  end.

(** *** Player events *)

Inductive PlayerEvent :=
| FirstVideoRendered
| Stopped
| Ended
| Failed (payload : string)
| QualityChanged (ev : QualityEvent).

Definition eventType (e : PlayerEvent) : PlayerEventType.t :=
  match e with
  | FirstVideoRendered => PlayerEventType.FIRST_VIDEO_RENDERED
  | Stopped => PlayerEventType.STOPPED
  | Ended => PlayerEventType.ENDED
  | Failed _ => PlayerEventType.ERROR
  | QualityChanged _ => PlayerEventType.QUALITY_CHANGE
  end.

(** The listener of [regQualityModeCallback], closed over the render [r]. *)
Definition qualityChanged (r : Render) (ev : QualityEvent) (st : Hook) : Hook :=
  match settingQuality r with
  | AUTO =>
      if isPlaying st
      then setStreamQuality None
             (match to ev with Some q => q | None => streamQuality r end) st
      else st
  | Tier _ => st
  end.

Definition dispatch (h : handle) (e : PlayerEvent) (l : Listener)
    (st : Hook) : Hook :=
  match l, e with
  | L_onFirstFrame tid, FirstVideoRendered => attempt_onFirstFrame tid h st
  | L_onError tid, Failed payload => attempt_onError tid (PlayerFault payload) st
  | L_restart, (Stopped | Ended | Failed _) =>
      restart (freezeWithSnapshot None st)
  | L_qualityChange r, QualityChanged ev => qualityChanged r ev st
  | _, _ => st
  end.

(** The player emits [e]: its listeners for that event run in the order
    they were attached. *)
Definition emit (h : handle) (e : PlayerEvent) (st : Hook) : Hook :=
  match players st !! h with
  | Some p =>
      foldl (λ st '(ty, l),
               if PlayerEventType.eqb ty (eventType e)
               then dispatch h e l st else st)
            st (listeners p)
  | None => st
  end.

(** *** React commits: the effects, in the order the hook declares them *)

(** A dependency differs from the previous commit (or this is the mount). *)
Definition changed {A} `{EqDecision A} (dep : Render → A)
    (prev : option Render) (r : Render) : bool :=
  match prev with
  | Some p => negb (bool_decide (dep p = dep r))
  | None => true
  end.

Definition NetworkConditions (r : Render) : bool :=
  isIdleTimeout r || isExpired r || isMultiSession r || isMaintenance r.

(** [clear], the clean-up the INIT effect returns. *)
Definition clear (r : Render) (st : Hook) : Hook :=
  match player st with
  | Some h =>
      let '(tid, st) := spawn Clear r st in
      park tid (AwaitStop h)
        (on_player h player_stopCalled (say (Some tid) (Stop h) st))
  | None => st
  end.

Definition initDeps (r : Render) := (isInit r, videoEl r, streams r).

Definition cleanup_init (prev : option Render) (r : Render) (st : Hook) : Hook :=
  if changed initDeps prev r && initCleanup st
  then clear r (with_initCleanup false st) else st.

Definition effect_stateRefs (prev : option Render) (r : Render)
    (st : Hook) : Hook :=
  if changed (λ r, (isVisible r, isIdleTimeout r, isMultiSession r,
                    isExpired r, isMaintenance r, snapshot r)) prev r
  then with_stateRefs
         (mkStateRefs (isVisible r) (isIdleTimeout r) (isMultiSession r)
                      (isExpired r) (isMaintenance r) (snapshot r)) st
  else st.

Definition effect_ref (r : Render) (st : Hook) : Hook := with_ref (Some r) st.

Definition effect_visibility (prev : option Render) (r : Render)
    (st : Hook) : Hook :=
  if changed (λ r, (isVisible r, isInit r, NetworkConditions r)) prev r
  then
    if isVisible r && negb (NetworkConditions r) && isInit r
    then restart st
    else let '(tid, st) := spawn StopVideoWithSnapshot r st in
         stopVideoWithSnapshot tid st
  else st.

Definition effect_quality (prev : option Render) (r : Render)
    (st : Hook) : Hook :=
  if changed (λ r, (settingQuality r, streamQuality r, videoEl r)) prev r
  then
    if negb (videoEl r) then st
    else
      match settingQuality r with
      | AUTO =>
          match player st with
          | Some h => regQualityModeCallback None r h st
          | None => st
          end
      | Tier q =>
          if (q =? streamQuality r)%Z then st else setStreamQuality None q st
      end
  else st.

Definition effect_streamQuality (prev : option Render) (r : Render)
    (st : Hook) : Hook :=
  if changed streamQuality prev r then restart st else st.

Definition effect_init (prev : option Render) (r : Render) (st : Hook) : Hook :=
  if changed initDeps prev r
  then
    if isInit r || negb (videoEl r) || bool_decide (streams r = None) then st
    else with_initCleanup true (setIsInit None true st)
  else st.

Definition effect_rotation (prev : option Render) (r : Render)
    (st : Hook) : Hook :=
  if changed (λ r, (isInit r, streams r)) prev r
  then
    if negb (isInit r) || bool_decide (streams r = None) then st
    else restart st
  else st.

(** One render and its commit: pending clean-ups first, then the effects
    whose dependencies changed. *)
Definition commit (st : Hook) : Hook :=
  let prev := rendered st in
  let r := cur st in
  let st := with_rendered (Some r) st in
  let st := cleanup_init prev r st in
  let st := effect_stateRefs prev r st in
  let st := effect_ref r st in
  let st := effect_visibility prev r st in
  let st := effect_quality prev r st in
  let st := effect_streamQuality prev r st in
  let st := effect_init prev r st in
  effect_rotation prev r st.

(** *** The machine *)

Inductive Event :=
| Commit
| Visible (b : bool)                     (* useVisibility *)
| IdleTimeout (b : bool)                 (* useNetworkStore *)
| Expired (b : bool)
| MultiSession (b : bool)
| Maintenance (b : bool)
| SettingQuality (q : VideoQuality)      (* useSettingStore *)
| StreamsAre (s : option Streams)        (* useConfigStore *)
| VideoEl (b : bool)                     (* setVideoEl *)
| StatusIs (h : handle) (s : PlayerStatus.t)
| FrameIs (h : handle) (f : option string)
| Emits (h : handle) (e : PlayerEvent)
| Wakes (tid : nat)
| TimerFires (tid : nat)
| Settles (tid : nat) (res : Outcome)
| LoadSettles (tid : nat) (res : Outcome)
| PlaySettles (tid : nat) (res : Outcome)
| CallsDoDestroyAndPlay (retryCount : nat) (maxRetry : Retries)
| CallsStopVideoWithSnapshot.

Definition store (e : Event) (r : Render) : Render :=
  match e with
  | Visible b =>
      mkRender b (isIdleTimeout r) (isExpired r) (isMultiSession r)
        (isMaintenance r) (snapshot r) (isLoading r) (isInit r)
        (streamQuality r) (videoEl r) (settingQuality r) (streams r)
  | IdleTimeout b =>
      mkRender (isVisible r) b (isExpired r) (isMultiSession r)
        (isMaintenance r) (snapshot r) (isLoading r) (isInit r)
        (streamQuality r) (videoEl r) (settingQuality r) (streams r)
  | Expired b =>
      mkRender (isVisible r) (isIdleTimeout r) b (isMultiSession r)
        (isMaintenance r) (snapshot r) (isLoading r) (isInit r)
        (streamQuality r) (videoEl r) (settingQuality r) (streams r)
  | MultiSession b =>
      mkRender (isVisible r) (isIdleTimeout r) (isExpired r) b
        (isMaintenance r) (snapshot r) (isLoading r) (isInit r)
        (streamQuality r) (videoEl r) (settingQuality r) (streams r)
  | Maintenance b =>
      mkRender (isVisible r) (isIdleTimeout r) (isExpired r)
        (isMultiSession r) b (snapshot r) (isLoading r) (isInit r)
        (streamQuality r) (videoEl r) (settingQuality r) (streams r)
  | SettingQuality q =>
      mkRender (isVisible r) (isIdleTimeout r) (isExpired r)
        (isMultiSession r) (isMaintenance r) (snapshot r) (isLoading r)
        (isInit r) (streamQuality r) (videoEl r) q (streams r)
  | StreamsAre s =>
      mkRender (isVisible r) (isIdleTimeout r) (isExpired r)
        (isMultiSession r) (isMaintenance r) (snapshot r) (isLoading r)
        (isInit r) (streamQuality r) (videoEl r) (settingQuality r) s
  | VideoEl b =>
      mkRender (isVisible r) (isIdleTimeout r) (isExpired r)
        (isMultiSession r) (isMaintenance r) (snapshot r) (isLoading r)
        (isInit r) (streamQuality r) b (settingQuality r) (streams r)
  | _ => r
  end.

Definition step (e : Event) (st : Hook) : Hook :=
  match e with
  | Commit => commit st
  | Visible _ | IdleTimeout _ | Expired _ | MultiSession _ | Maintenance _
  | SettingQuality _ | StreamsAre _ | VideoEl _ =>
      with_cur (store e (cur st)) st
  | StatusIs h s => on_player h (player_status s) st
  | FrameIs h f => on_player h (player_frame f) st
  | Emits h e => emit h e st
  | Wakes tid => wake tid st
  | TimerFires tid => timedOut tid st
  | Settles tid res => settle tid res st
  | LoadSettles tid res => loadSettled tid res st
  | PlaySettles tid res => playSettled tid res st
  | CallsDoDestroyAndPlay retryCount maxRetry =>
      match rendered st with
      | Some r => doDestroyAndPlay r retryCount maxRetry st
      | None => st
      end
  | CallsStopVideoWithSnapshot =>
      match rendered st with
      | Some r =>
          let '(tid, st) := spawn StopVideoWithSnapshot r st in
          stopVideoWithSnapshot tid st
      | None => st
      end
  end.

Definition run (es : list Event) (st : Hook) : Hook :=
  foldl (λ st e, step e st) st es.

(** The hook before its first commit. *)
Definition firstRender (visible : bool) (q : VideoQuality)
    (s : option Streams) : Render :=
  mkRender visible false false false false "" true false
           (match q with AUTO => 1 | Tier t => t end) false q s.

Definition mount (r : Render) : Hook :=
  mkHook None false
         (mkStateRefs (isVisible r) (isIdleTimeout r) (isMultiSession r)
                      (isExpired r) (isMaintenance r) (snapshot r))
         None r None false None [] [] [].

(** The actions in the order they happened. *)
Definition trace (st : Hook) : list (option nat * Action) := rev (log st).

End Controller.

(** ** Observations on a state *)

#[global] Instance Err_eq_dec : EqDecision Err.
Proof. solve_decision. Defined.
#[global] Instance Volume_eq_dec : EqDecision Volume.
Proof. solve_decision. Defined.
#[global] Instance Action_eq_dec : EqDecision Action.
Proof. solve_decision. Defined.

(** The handles created so far, in order. *)
Definition constructed (st : Hook) : list handle :=
  omap (λ x, match x.2 with Construct h => Some h | _ => None end) (trace st).

(** The handles that were created and never told to destroy themselves. *)
Definition live (st : Hook) : list handle :=
  List.filter
    (λ h, match players st !! h with
          | Some p => negb (destroyCalled p)
          | None => false
          end)
    (seq 0 (length (players st))).

(** How often the call [tid] performed the action [a]. *)
Definition count (tid : nat) (a : Action) (l : list (option nat * Action)) : nat :=
  length (List.filter (λ x, bool_decide (x = (Some tid, a))) l).

(** How often [a] was performed at all. *)
Definition calls (a : Action) (st : Hook) : nat :=
  length (List.filter (λ x, bool_decide (x.2 = a)) (log st)).

(** ** A concrete session

    The scenario of the specification: URLs [{lo: "A", hd: "B"}], manual
    quality [hd], all three callbacks passed, retry delay 10 ms. *)

Definition scenario (maxRetry : Retries) : UseStreamConfig :=
  mkConfig (mkPlaybackSettings webp (Some 10000%Z) (Some 10%Z) maxRetry)
           1 true true true.

Definition streamsAB : option Streams :=
  Some (mkStreams 0 (Some (mkStream (Some "A") None None (Some "B")))).

Definition mounted : Hook := mount (firstRender true (Tier 3) streamsAB).

(** Mount, the ref callback hands over the video element, the INIT effect
    sets [isInit], and the third commit starts the first attempt (call 1,
    handle 0). *)
Definition boot : list Event := [Commit; VideoEl true; Commit; Commit].

(** The first attempt reaches its first frame and [resume] succeeds. *)
Definition firstFrame : list Event :=
  [StatusIs 0 PlayerStatus.LOADING; LoadSettles 1 Fulfilled;
   PlaySettles 1 Fulfilled; StatusIs 0 PlayerStatus.PLAYING;
   Emits 0 FirstVideoRendered; Settles 1 Fulfilled].

(** The first attempt (handle 0) times out, the retry builds handle 1 and
    that second attempt reaches its first frame. *)
Definition secondSteady : list Event :=
  boot ++ [StatusIs 0 PlayerStatus.LOADING; TimerFires 1; Wakes 1; Wakes 2;
           StatusIs 1 PlayerStatus.PLAYING; Emits 1 FirstVideoRendered;
           Settles 2 Fulfilled].

(** Automatic mode with URLs for the tiers [lo] and [me] only. *)
Definition streamsLoMe : option Streams :=
  Some (mkStreams 0 (Some (mkStream (Some "A") (Some "B") None None))).

Definition mountedAuto : Hook := mount (firstRender true AUTO streamsLoMe).

Definition toTier (q : Z) : PlayerEvent :=
  QualityChanged (mkQualityEvent true 1 (Some 1%Z) (Some q) 4 0 None).

(** The stream source rotates: same tiers, another [hd] URL. *)
Definition streamsAC : option Streams :=
  Some (mkStreams 1 (Some (mkStream (Some "A") None None (Some "C")))).

(** ** Invariants of the machine *)

(** A call only ever moves forward through its [await]s. *)
Definition rank (c : Ctl) : nat :=
  match c with
  | Running => 0 | AwaitSleep100 => 1 | AwaitStop _ => 2 | AwaitDestroy _ => 3
  | AwaitSleep50 => 4 | AwaitRace _ => 5 | AwaitResume _ => 6
  | AwaitRetryDelay => 7 | Returned => 8
  end.

(** The actions of the success branch. *)
Definition special (a : Action) : bool :=
  match a with
  | CallOnPlay => true
  | SetSnapshot s => negb (truthy s)
  | SetIsLoading b => negb b
  | _ => false
  end.

Definition tag_ok (n : nat) (o : option nat) : Prop :=
  match o with Some tid => tid < n | None => True end.

(** [t'] is a later state of the call [t].  With [q] the step is an
    ordinary one: it does not enter [AwaitResume]. *)
Definition advances (q : bool) (t t' : Task) : Prop :=
  call t' = call t ∧ closure t' = closure t ∧ rank (ctl t) ≤ rank (ctl t')
  ∧ (5 ≤ rank (ctl t) → timer t = false → timer t' = false)
  ∧ (q = true → ∀ h, ctl t' = AwaitResume h → ctl t = AwaitResume h).

(** [st'] extends [st]: the log grew at its head, calls only advanced. *)
Record Ext (q : bool) (st st' : Hook) : Prop := mkExt {
  ext_log : ∃ chunk, log st' = chunk ++ log st
     ∧ Forall (λ x, tag_ok (length (tasks st')) x.1
                    ∧ (q = true → special x.2 = false)) chunk;
  ext_len : length (tasks st) ≤ length (tasks st');
  ext_old : ∀ i t, tasks st !! i = Some t →
     ∃ t', tasks st' !! i = Some t' ∧ advances q t t';
  ext_new : q = true → ∀ i t', tasks st !! i = None → tasks st' !! i = Some t' →
     ∀ h, ctl t' ≠ AwaitResume h }.

(** The call [tid] exists and has not passed the stage of rank [k]. *)
Definition at_most (k tid : nat) (st : Hook) : Prop :=
  ∃ t, tasks st !! tid = Some t ∧ rank (ctl t) ≤ k.

(** The call [tid] has observed a first frame. *)
Definition seen (tid : nat) (l : list (option nat * Action)) : Prop :=
  ∃ h, (Some tid, FirstFrameRendered h) ∈ l.

(** Every action of the success branch belongs to a call that observed a
    first frame earlier (the log is most recent first). *)
Fixpoint ordered (l : list (option nat * Action)) : Prop :=
  match l with
  | [] => True
  | x :: l' =>
      (special x.2 = true → ∃ tid, x.1 = Some tid ∧ seen tid l') ∧ ordered l'
  end.

Record Inv (st : Hook) : Prop := mkInv {
  inv_tags : Forall (λ x, tag_ok (length (tasks st)) x.1) (log st);
  inv_resume : ∀ tid t h, tasks st !! tid = Some t → ctl t = AwaitResume h →
     seen tid (log st);
  inv_ordered : ordered (log st);
  inv_open : ∀ tid t a, tasks st !! tid = Some t → ctl t ≠ Returned →
     special a = true → (Some tid, a) ∉ log st;
  inv_once : ∀ tid, count tid (SetSnapshot "") (log st) ≤ 1;
  inv_success : ∀ tid a, special a = true → (Some tid, a) ∈ log st →
     count tid (SetSnapshot "") (log st) = 1 }.

(** A call that can no longer build a player: it has returned, or it is a
    stand-alone stop or clean-up still tearing down. *)
Definition idle_task (t : Task) : Prop :=
  ctl t = Returned
  ∨ (rank (ctl t) ≤ 3 ∧ ∀ retryCount maxRetry, call t ≠ DoDestroyAndPlay retryCount maxRetry).

(** The running flag is set although no [doDestroyAndPlay] is in flight. *)
Definition stuck (st : Hook) : Prop :=
  isDoDestroyAndPlayRunning st = true
  ∧ ∀ i t, tasks st !! i = Some t → idle_task t.

Definition builds (x : option nat * Action) : bool :=
  match x.2 with Construct _ => true | _ => false end.

(** From a stuck state, [st'] is stuck too and no player was built. *)
Definition Calm (st st' : Hook) : Prop :=
  stuck st →
  stuck st' ∧ ∃ chunk, log st' = chunk ++ log st ∧ Forall (λ x, builds x = false) chunk.

(** Stand-alone calls: [tid] is not a [doDestroyAndPlay]. *)
Definition standalone (tid : nat) (st : Hook) : Prop :=
  ∃ t, tasks st !! tid = Some t ∧ ctl t ≠ Returned
       ∧ ∀ retryCount maxRetry, call t ≠ DoDestroyAndPlay retryCount maxRetry.

(** ** Calls in flight *)

#[global] Instance Ctl_eq_dec : EqDecision Ctl.
Proof. solve_decision. Defined.

Definition isDoDestroyAndPlay (c : Call) : bool :=
  match c with DoDestroyAndPlay _ _ => true | _ => false end.

(** A [doDestroyAndPlay] call that has not returned. *)
Definition inFlight (t : Task) : bool :=
  isDoDestroyAndPlay (call t) && negb (bool_decide (ctl t = Returned)).

(** [retryCount <= maxRetry] *)
Definition within (retryCount : nat) (maxRetry : Retries) : Prop :=
  match maxRetry with
  | Finite m => retryCount ≤ m
  | Infinity => True
  end.

(** What [shouldSkipPlay] asks of the render a call closes over. *)
Definition eligible (r : Render) : Prop :=
  truthy (getStreamUrl r) = true ∧ isInit r = true.

(** A [doDestroyAndPlay] call that returned from the exhausted branch of
    its [catch]: it was started with [retryCount >= maxRetry]. *)
Definition halted (t : Task) : bool :=
  match call t with
  | DoDestroyAndPlay retryCount maxRetry =>
      exhausted retryCount maxRetry && bool_decide (ctl t = Returned)
  | _ => false
  end.

(** [stateRefs.current] as the first effect writes it from a render. *)
Definition mirror (r : Render) : StateRefs :=
  mkStateRefs (isVisible r) (isIdleTimeout r) (isMultiSession r)
              (isExpired r) (isMaintenance r) (snapshot r).

(** [onError] calls of the call [tid]. *)
Definition isErrorOf (tid : nat) (x : option nat * Action) : bool :=
  match x with
  | (Some i, CallOnError _) => bool_decide (i = tid)
  | _ => false
  end.

Definition errors (tid : nat) (l : list (option nat * Action)) : nat :=
  length (List.filter (isErrorOf tid) l).

(** Log entries that are neither an [onError] call, nor the creation of a
    player, nor a [setSnapshot]. *)
Definition quiet (x : option nat * Action) : bool :=
  match x.2 with
  | CallOnError _ | Construct _ | SetSnapshot _ => false
  | _ => true
  end.

(** The most recent [setSnapshot]: who called it, and with what. *)
Definition lastSnapshot (l : list (option nat * Action)) : option (option nat * string) :=
  head (omap (λ x, match x.2 with SetSnapshot s => Some (x.1, s) | _ => None end) l).

(** What every reachable state of the hook satisfies, when each
    [doDestroyAndPlay] was started with arguments that satisfy [ok]. *)
Record Wf (ok : nat → Retries → Prop) (st : Hook) : Prop := mkWf {
  wf_run : ∀ i t, tasks st !! i = Some t → inFlight t = true →
     isDoDestroyAndPlayRunning st = true;
  wf_one : ∀ i j ti tj, tasks st !! i = Some ti → tasks st !! j = Some tj →
     inFlight ti = true → inFlight tj = true → i = j;
  wf_kind : ∀ i t, tasks st !! i = Some t → 4 ≤ rank (ctl t) ≤ 7 →
     isDoDestroyAndPlay (call t) = true;
  wf_call : ∀ i t retryCount maxRetry, tasks st !! i = Some t →
     call t = DoDestroyAndPlay retryCount maxRetry →
     eligible (closure t) ∧ ok retryCount maxRetry;
  wf_retry : ∀ i t retryCount maxRetry, tasks st !! i = Some t →
     ctl t = AwaitRetryDelay → call t = DoDestroyAndPlay retryCount maxRetry →
     exhausted retryCount maxRetry = false;
  wf_can : isCanStream st = Some false →
     ∃ i t, tasks st !! i = Some t ∧ halted t = true;
  wf_live : isDoDestroyAndPlayRunning st = true →
     ∃ i t, tasks st !! i = Some t ∧ (inFlight t = true ∨ halted t = true);
  wf_ref : doDestroyAndPlayRef st = rendered st;
  wf_mirror : ∀ p, rendered st = Some p → stateRefs st = mirror p;
  wf_player : ∀ h, player st = Some h → S h = length (players st);
  wf_built : constructed st = seq 0 (length (players st));
  wf_snap : ∀ o s, lastSnapshot (log st) = Some (o, s) → snapshot (cur st) = s;
  wf_err : ∀ tid, errors tid (log st) ≤ 1
     ∧ (0 < errors tid (log st) →
        ∃ t, tasks st !! tid = Some t ∧ 7 ≤ rank (ctl t)) }.

(** [st'] is [st] up to the players' own state, React state and quiet log
    entries; the player ref is kept or cleared. *)
Definition Same (st st' : Hook) : Prop :=
  tasks st' = tasks st
  ∧ isDoDestroyAndPlayRunning st' = isDoDestroyAndPlayRunning st
  ∧ isCanStream st' = isCanStream st
  ∧ stateRefs st' = stateRefs st
  ∧ rendered st' = rendered st
  ∧ doDestroyAndPlayRef st' = doDestroyAndPlayRef st
  ∧ length (players st') = length (players st)
  ∧ (player st' = player st ∨ player st' = None)
  ∧ snapshot (cur st') = snapshot (cur st)
  ∧ ∃ chunk, log st' = chunk ++ log st ∧ forallb quiet chunk = true.

(** The call [tid] is a [doDestroyAndPlay] from the render [r] that has not
    started its attempt yet. *)
Definition restarting (tid : nat) (r : Render) (st : Hook) : Prop :=
  ∃ t, tasks st !! tid = Some t ∧ rank (ctl t) ≤ 4
       ∧ isDoDestroyAndPlay (call t) = true ∧ closure t = r.

(** The call [tid] is a [doDestroyAndPlay] whose attempt has not failed. *)
Definition attempting (tid : nat) (st : Hook) : Prop :=
  ∃ t, tasks st !! tid = Some t ∧ rank (ctl t) ≤ 6
       ∧ isDoDestroyAndPlay (call t) = true.

(** What a call may do when it moves from [t] to [t']. *)
Definition moves (t t' : Task) : Prop :=
  call t' = call t ∧ closure t' = closure t
  ∧ (inFlight t' = true → inFlight t = true)
  ∧ (4 ≤ rank (ctl t') ≤ 7 → isDoDestroyAndPlay (call t) = true)
  ∧ (ctl t' = AwaitRetryDelay → ∀ retryCount maxRetry,
       call t = DoDestroyAndPlay retryCount maxRetry →
       exhausted retryCount maxRetry = false)
  ∧ (inFlight t = true → inFlight t' = true ∨ halted t' = true)
  ∧ (halted t = true → halted t' = true)
  ∧ (7 ≤ rank (ctl t) → 7 ≤ rank (ctl t')).

(** The arguments of the caller's own [doDestroyAndPlay] calls. *)
Definition asks (ok : nat → Retries → Prop) (e : Event) : Prop :=
  match e with
  | CallsDoDestroyAndPlay retryCount maxRetry => ok retryCount maxRetry
  | _ => True
  end.

(** The caller leaves both parameters at their defaults. *)
Definition defaults (cfg : UseStreamConfig) (retryCount : nat)
    (maxRetry : Retries) : Prop :=
  maxRetry = maxRetries (playbackSettings cfg) ∧ within retryCount maxRetry.

(** ** The reload test page, App.tsx

    Both versions of the page run the same [playLoop]; the second one
    rotates through [STREAM_URLS]. *)

Module App.

Definition STREAM_URL : string :=
  "https://pull-bpgi-test.stream.iki-utl.cc/live/aro0011hd.flv?abr_pts=-1000".

Definition STREAM_URLS : list string :=
  [ "https://pull-bpgi-test.stream.iki-utl.cc/live/aro0021hd.flv?abr_pts=-1000";
    "https://pull-bpgi-test.stream.iki-utl.cc/live/aro0021hi.flv?abr_pts=-1000" ].

Inductive Version := Single | Rotating.

(** What the page does to the players and to its own state. *)
Inductive Act :=
| TakeSnapshot (h : nat)                  (* playerRef.current.snapshot("webp", 0.8) *)
| SetSnapshot (s : string)
| Stop (h : nat)
| Destroy (h : nat)
| Construct (h : nat)                     (* initPlayerInstance *)
| OnFirstFrame (h : nat)                  (* player.on(FIRST_VIDEO_RENDERED, ...) *)
| Load (h : nat) (url : option string)    (* [None]: load(undefined) *)
| Play (h : nat)
| SetTimeout (ms : Z).

(** Where an iteration of [playLoop] is parked. *)
Inductive Wait :=
| AwaitStop                  (* await playerRef.current.stop() *)
| AwaitDestroy               (* await playerRef.current.destroy() *)
| AwaitLoad (h : nat)        (* await player.load(...) *)
| AwaitPlay (h : nat)        (* await player.play() *)
| Over.

Record Page := mkPage {
  playerRef : option nat;              (* playerRef.current *)
  snapshot : string;                   (* React state *)
  urlIndex : nat;                      (* urlIndexRef.current *)
  frames : list (option string);       (* per player, what snapshot() gives; [None]: it throws *)
  loops : list Wait;                   (* every iteration of playLoop *)
  timers : list bool;                  (* every setTimeout(playLoop): still pending? *)
  log : list Act }.                    (* most recent first *)

Definition with_playerRef (v : option nat) (p : Page) : Page :=
  mkPage v (snapshot p) (urlIndex p) (frames p) (loops p) (timers p) (log p).
Definition with_snapshot (v : string) (p : Page) : Page :=
  mkPage (playerRef p) v (urlIndex p) (frames p) (loops p) (timers p) (log p).
Definition with_urlIndex (v : nat) (p : Page) : Page :=
  mkPage (playerRef p) (snapshot p) v (frames p) (loops p) (timers p) (log p).
Definition with_frames (v : list (option string)) (p : Page) : Page :=
  mkPage (playerRef p) (snapshot p) (urlIndex p) v (loops p) (timers p) (log p).
Definition with_loops (v : list Wait) (p : Page) : Page :=
  mkPage (playerRef p) (snapshot p) (urlIndex p) (frames p) v (timers p) (log p).
Definition with_timers (v : list bool) (p : Page) : Page :=
  mkPage (playerRef p) (snapshot p) (urlIndex p) (frames p) (loops p) v (log p).

Definition say (a : Act) (p : Page) : Page :=
  mkPage (playerRef p) (snapshot p) (urlIndex p) (frames p) (loops p) (timers p)
         (a :: log p).

Definition setSnapshot (s : string) (p : Page) : Page :=
  say (SetSnapshot s) (with_snapshot s p).

(** [setTimeout(playLoop, ms)] *)
Definition later (ms : Z) (p : Page) : Page :=
  say (SetTimeout ms) (with_timers (timers p ++ [true]) p).

(** The iteration [i] parks at [w]; a new iteration takes the next slot. *)
Definition wait (i : nat) (w : Wait) (p : Page) : Page :=
  with_loops (if decide (i < length (loops p))
              then <[i := w]> (loops p) else loops p ++ [w]) p.

(** [playLoop] from "Create new player instance" to [await player.load]. *)
Definition build (v : Version) (i : nat) (p : Page) : Page :=
  let h := length (frames p) in
  let p := with_playerRef (Some h) (with_frames (frames p ++ [None]) p) in
  let p := say (OnFirstFrame h) (say (Construct h) p) in
  let url := match v with
             | Single => Some STREAM_URL
             | Rotating => STREAM_URLS !! urlIndex p
             end in
  wait i (AwaitLoad h) (say (Load h url) p).

(** The [catch] of the teardown and [playerRef.current = null]. *)
Definition rebuild (v : Version) (i : nat) (p : Page) : Page :=
  build v i (with_playerRef None p).

(** A call of [playLoop], up to its first [await]. *)
Definition playLoop (v : Version) (p : Page) : Page :=
  let i := length (loops p) in
  match playerRef p with
  | Some h =>
      let p := say (TakeSnapshot h) p in
      match frames p !! h with
      | Some (Some s) => wait i AwaitStop (say (Stop h) (setSnapshot s p))
      | _ => rebuild v i p            (* snapshot() threw *)
      end
  | None => build v i p
  end.

(** The promise the iteration [i] awaits settles. *)
Definition settle (v : Version) (i : nat) (res : Outcome) (p : Page) : Page :=
  match loops p !! i with
  | Some AwaitStop =>
      match res, playerRef p with
      | Fulfilled, Some h => wait i AwaitDestroy (say (Destroy h) p)
      | _, _ => rebuild v i p         (* stop() rejected, or the ref is null *)
      end
  | Some AwaitDestroy => rebuild v i p
  | Some (AwaitLoad h) =>
      match res with
      | Fulfilled => wait i (AwaitPlay h) (say (Play h) p)
      | Rejected _ => wait i Over (later 2000 p)
      end
  | Some (AwaitPlay h) =>
      match res with
      | Fulfilled =>
          wait i Over
            match v with
            | Single => p
            | Rotating =>
                with_urlIndex ((urlIndex p + 1) mod length STREAM_URLS) p
            end
      | Rejected _ => wait i Over (later 2000 p)
      end
  | _ => p
  end.

(** The listener every player gets: clear the snapshot, restart later. *)
Definition firstFrame (h : nat) (p : Page) : Page :=
  if decide (h < length (frames p)) then later 3000 (setSnapshot "" p) else p.

(** The clean-up of the effect. *)
Definition unmount (p : Page) : Page :=
  match playerRef p with
  | Some h => say (Destroy h) (say (Stop h) p)
  | None => p
  end.

Inductive Event :=
| FrameIs (h : nat) (f : option string)
| FirstVideoRendered (h : nat)
| Settles (i : nat) (res : Outcome)
| TimerFires (k : nat)
| Unmount.

Definition step (v : Version) (e : Event) (p : Page) : Page :=
  match e with
  | FrameIs h f =>
      with_frames (if decide (h < length (frames p))
                   then <[h := f]> (frames p) else frames p) p
  | FirstVideoRendered h => firstFrame h p
  | Settles i res => settle v i res p
  | TimerFires k =>
      match timers p !! k with
      | Some true => playLoop v (with_timers (<[k := false]> (timers p)) p)
      | _ => p
      end
  | Unmount => unmount p
  end.

Definition run (v : Version) (es : list Event) (p : Page) : Page :=
  foldl (λ p e, step v e p) p es.

(** The effect runs once, with the container in place: [playLoop()]. *)
Definition mount (v : Version) : Page :=
  playLoop v (mkPage None "" 0 [] [] [] []).

(** Actions that neither build nor tear down a player nor load a stream. *)
Definition calm (a : Act) : Prop :=
  match a with
  | Construct _ | Stop _ | Destroy _ | Load _ _ => False
  | _ => True
  end.

(** The players built, counted from the log. *)
Definition built (l : list Act) : nat :=
  length (List.filter (λ a, match a with Construct _ => true | _ => false end) l).

(** Players are numbered as they are built, and [stop()] and [destroy()]
    only ever go to the one built last (the log is most recent first). *)
Fixpoint newestOnly (l : list Act) : Prop :=
  match l with
  | [] => True
  | a :: l' =>
      match a with
      | Construct h => h = built l'
      | Stop h | Destroy h => S h = built l'
      | _ => True
      end ∧ newestOnly l'
  end.

(** Every [load] got a URL of the page. *)
Definition loadsKnown (v : Version) (l : list Act) : Prop :=
  ∀ h url, Load h url ∈ l →
    ∃ u, url = Some u
         ∧ match v with Single => u = STREAM_URL | Rotating => u ∈ STREAM_URLS end.

Record Inv (v : Version) (p : Page) : Prop := mkInv {
  inv_ref : ∃ h, playerRef p = Some h ∧ S h = length (frames p);
  inv_index : urlIndex p < length STREAM_URLS;
  inv_built : built (log p) = length (frames p);
  inv_torn : newestOnly (log p);
  inv_loads : loadsKnown v (log p) }.

End App.

(** * Lemmas *)

(** ** The scenario runs *)

Example boot_starts_first_attempt :
  let st := run (scenario (Finite 2)) boot mounted in
  constructed st = [0] ∧ player st = Some 0
  ∧ isDoDestroyAndPlayRunning st = true
  ∧ ctl <$> tasks st !! 1 = Some (AwaitRace 0).
Proof. vm_compute. repeat split. Qed.

Example firstFrame_is_steady :
  let st := run (scenario (Finite 2)) (boot ++ firstFrame) mounted in
  constructed st = [0] ∧ isDoDestroyAndPlayRunning st = false
  ∧ ctl <$> tasks st !! 1 = Some Returned
  ∧ isLoading (cur st) = false.
Proof. vm_compute. repeat split. Qed.

(** ** Re-evaluations that are skipped *)

(** The part of the skip condition the code does implement: with the
    player invisible, or idle-timeout, multi-session or session-expired
    set in the mirror, [doDestroyAndPlay] changes nothing. *)
Lemma doDestroyAndPlay_skips cfg r retryCount maxRetry st :
  ref_isVisible (stateRefs st) = false
  ∨ ref_isIdleTimeout (stateRefs st) = true
  ∨ ref_isMultiSession (stateRefs st) = true
  ∨ ref_isExpired (stateRefs st) = true →
  doDestroyAndPlay cfg r retryCount maxRetry st = st.
Proof.
  intros H. unfold doDestroyAndPlay.
  assert (shouldSkipPlay r st = true) as ->; [|done].
  unfold shouldSkipPlay, shouldSkip. simpl.
  destruct H as [H|[H|[H|H]]]; rewrite H; simpl;
    repeat (rewrite ?orb_true_r; simpl); done.
Qed.

(** [shouldSkipPlay] never looks at the maintenance flag. *)
Lemma shouldSkipPlay_ignores_maintenance r st b :
  shouldSkipPlay r
    (with_stateRefs
       (mkStateRefs (ref_isVisible (stateRefs st)) (ref_isIdleTimeout (stateRefs st))
          (ref_isMultiSession (stateRefs st)) (ref_isExpired (stateRefs st)) b
          (ref_snapshot (stateRefs st))) st)
  = shouldSkipPlay r st.
Proof. reflexivity. Qed.

(** The running flag alone makes every re-evaluation a no-op. *)
Lemma doDestroyAndPlay_running cfg r retryCount maxRetry st :
  isDoDestroyAndPlayRunning st = true →
  doDestroyAndPlay cfg r retryCount maxRetry st = st.
Proof.
  intros H. unfold doDestroyAndPlay.
  assert (shouldSkipPlay r st = true) as ->; [|done].
  unfold shouldSkipPlay, shouldSkip. simpl. rewrite H.
  repeat (rewrite ?orb_true_r; simpl). done.
Qed.

(** The exhausted branch returns without clearing the running flag. *)
Lemma retryOrHalt_keeps_running cfg tid retryCount maxRetry st :
  exhausted retryCount maxRetry = true →
  isDoDestroyAndPlayRunning (retryOrHalt cfg tid retryCount maxRetry st)
  = isDoDestroyAndPlayRunning st
  ∧ isCanStream (retryOrHalt cfg tid retryCount maxRetry st) = Some false.
Proof. intros H. unfold retryOrHalt. rewrite H. done. Qed.

(** ** Lists updated in place *)

Lemma update_lookup {A} (i : nat) (f : A → A) (l : list A) :
  update i f l !! i = f <$> l !! i.
Proof.
  unfold update. destruct (l !! i) eqn:E; simpl; [|done].
  apply list_lookup_insert_eq. by eapply lookup_lt_Some.
Qed.

Lemma update_lookup_ne {A} (i j : nat) (f : A → A) (l : list A) :
  i ≠ j → update i f l !! j = l !! j.
Proof.
  intros. unfold update. destruct (l !! i); [|done].
  by apply list_lookup_insert_ne.
Qed.

Lemma update_length {A} (i : nat) (f : A → A) (l : list A) :
  length (update i f l) = length l.
Proof. unfold update. destruct (l !! i); [apply length_insert|done]. Qed.

Lemma update_id {A} (i : nat) (f : A → A) (l : list A) :
  (∀ x, l !! i = Some x → f x = x) → update i f l = l.
Proof.
  intros H. unfold update. destruct (l !! i) eqn:E; [|done].
  rewrite (H _ eq_refl). by apply list_insert_id.
Qed.

Lemma networkConditions_flags s :
  networkConditions s = true ↔
  ref_isIdleTimeout s = true ∨ ref_isExpired s = true
  ∨ ref_isMultiSession s = true ∨ ref_isMaintenance s = true.
Proof.
  unfold networkConditions.
  destruct (ref_isExpired s), (ref_isIdleTimeout s), (ref_isMultiSession s),
    (ref_isMaintenance s); simpl; intuition congruence.
Qed.


(** ** Events that arrive after the race *)

Lemma task_timer_id t : timer t = false → task_timer false t = t.
Proof. destruct t; simpl; intros ->; done. Qed.

Lemma cleanup_fired tid st t :
  tasks st !! tid = Some t → timer t = false → cleanup tid st = st.
Proof.
  intros Ht Hf. unfold cleanup, on_task.
  rewrite update_id; [by destruct st|].
  intros x Hx. apply task_timer_id. congruence.
Qed.

(** An error event that arrives after the race has settled and the timer
    has fired changes nothing. *)
Lemma late_error cfg tid e st t :
  tasks st !! tid = Some t → (∀ h, ctl t ≠ AwaitRace h) → timer t = false →
  attempt_onError cfg tid e st = st.
Proof.
  intros Ht Hc Hf. unfold attempt_onError.
  rewrite (cleanup_fired _ _ _ Ht Hf). unfold reject. rewrite Ht. simpl.
  destruct (ctl t) eqn:E; try done. by destruct (Hc h).
Qed.

(** A first-frame event that arrives then cannot settle anything either:
    no call, ref or React state changes; only listeners are attached. *)
Lemma late_firstFrame cfg tid h st t :
  tasks st !! tid = Some t → (∀ h, ctl t ≠ AwaitRace h) → timer t = false →
  let st' := attempt_onFirstFrame cfg tid h st in
  tasks st' = tasks st ∧ player st' = player st
  ∧ isDoDestroyAndPlayRunning st' = isDoDestroyAndPlayRunning st
  ∧ cur st' = cur st ∧ stateRefs st' = stateRefs st
  ∧ isCanStream st' = isCanStream st
  ∧ doDestroyAndPlayRef st' = doDestroyAndPlayRef st.
Proof.
  intros Ht Hc Hf. unfold attempt_onFirstFrame. rewrite Ht. simpl.
  set (st1 := cleanup tid (say (Some tid) (FirstFrameRendered h) st)).
  assert (tasks st1 = tasks st) as Ht1.
  { unfold st1, cleanup, on_task. simpl. apply update_id.
    intros x Hx. apply task_timer_id. congruence. }
  set (st2 := registerPlayerCallbacks (Some tid) (closure t) h st1).
  assert (tasks st2 = tasks st ∧ player st2 = player st
          ∧ isDoDestroyAndPlayRunning st2 = isDoDestroyAndPlayRunning st
          ∧ cur st2 = cur st ∧ stateRefs st2 = stateRefs st
          ∧ isCanStream st2 = isCanStream st
          ∧ doDestroyAndPlayRef st2 = doDestroyAndPlayRef st) as H2.
  { unfold st2, registerPlayerCallbacks.
    destruct (doDestroyAndPlayRef st1); simpl;
      destruct (settingQuality (cur st)); simpl; rewrite ?Ht1; done. }
  destruct H2 as (HT & HP & HR & HC & HS & HI & HD).
  unfold resolve. rewrite HT, Ht. simpl.
  destruct (ctl t) eqn:E; try (repeat split; assumption).
  exfalso. by eapply Hc.
Qed.

(** ** How calls move *)



Lemma advances_refl q t : advances q t t.
Proof. unfold advances. repeat split; auto. Qed.

Lemma advances_trans q t1 t2 t3 :
  advances q t1 t2 → advances q t2 t3 → advances q t1 t3.
Proof.
  unfold advances. intros (C1 & K1 & R1 & T1 & Q1) (C2 & K2 & R2 & T2 & Q2).
  repeat split; try congruence; try lia.
  - intros Hr Ht. apply T2; [lia|]. auto.
  - intros Hq h Hh. apply (Q1 Hq). by apply (Q2 Hq).
Qed.

Lemma advances_weaken t t' : advances true t t' → advances false t t'.
Proof. unfold advances. intros (?&?&?&?&?). repeat split; auto. Qed.

Lemma Ext_refl q st : Ext q st st.
Proof.
  split.
  - exists []. split; [done|constructor].
  - done.
  - intros i t Ht. exists t. split; [done|apply advances_refl].
  - intros _ i t' H1 H2. congruence.
Qed.

Lemma Forall_tag_mono (P : Action → Prop) n m (l : list (option nat * Action)) :
  n ≤ m →
  Forall (λ x, tag_ok n x.1 ∧ P x.2) l → Forall (λ x, tag_ok m x.1 ∧ P x.2) l.
Proof.
  intros Hnm HF. eapply Forall_impl; [exact HF|].
  intros [[tid|] a] [H1 H2]; simpl in *; split; auto. lia.
Qed.

Lemma Ext_trans q st1 st2 st3 : Ext q st1 st2 → Ext q st2 st3 → Ext q st1 st3.
Proof.
  intros [(c1 & L1 & F1) N1 O1 W1] [(c2 & L2 & F2) N2 O2 W2]. split.
  - exists (c2 ++ c1). split; [by rewrite L2, L1, app_assoc|].
    apply Forall_app. split; [done|].
    eapply (Forall_tag_mono (λ a, q = true → special a = false)); [exact N2|done].
  - lia.
  - intros i t Ht. destruct (O1 i t Ht) as (t2 & Ht2 & A1).
    destruct (O2 i t2 Ht2) as (t3 & Ht3 & A2).
    exists t3. split; [done|]. by eapply advances_trans.
  - intros Hq i t' Hn Hs h Hc.
    destruct (tasks st2 !! i) as [t2|] eqn:E2.
    + destruct (O2 i t2 E2) as (t3 & Ht3 & A2).
      assert (t3 = t') by congruence. subst t3.
      destruct A2 as (_ & _ & _ & _ & A2). specialize (A2 Hq h Hc).
      by eapply (W1 Hq i t2 Hn E2).
    + by eapply (W2 Hq i t' E2 Hs).
Qed.

Lemma Ext_weaken st st' : Ext true st st' → Ext false st st'.
Proof.
  intros [(c & L & F) N O W]. split; [|done| |done].
  - exists c. split; [done|]. eapply Forall_impl; [exact F|].
    intros x [? ?]. split; [done|discriminate].
  - intros i t Ht. destruct (O i t Ht) as (t' & ? & ?).
    exists t'. split; [done|]. by apply advances_weaken.
Qed.

(** A step that touches neither the calls nor the log. *)
Lemma Ext_frame q st st' :
  tasks st' = tasks st → log st' = log st → Ext q st st'.
Proof.
  intros Ht Hl. split.
  - exists []. split; [done|constructor].
  - by rewrite Ht.
  - intros i t H. exists t. rewrite Ht. split; [done|apply advances_refl].
  - intros _ i t' H1 H2. rewrite Ht in H2. congruence.
Qed.

Lemma Ext_say q o a st :
  tag_ok (length (tasks st)) o → (q = true → special a = false) →
  Ext q st (say o a st).
Proof.
  intros Ho Ha. split; simpl.
  - exists [(o, a)]. split; [done|]. by repeat constructor.
  - done.
  - intros i t H. exists t. split; [done|apply advances_refl].
  - intros _ i t' H1 H2. congruence.
Qed.

Lemma Ext_on_task q tid f st :
  (∀ t, tasks st !! tid = Some t → advances q t (f t)) →
  Ext q st (on_task tid f st).
Proof.
  intros Hf. split; simpl.
  - exists []. split; [done|constructor].
  - by rewrite update_length.
  - intros i t Ht. destruct (decide (i = tid)) as [->|Hne].
    + rewrite update_lookup, Ht. simpl. eauto.
    + rewrite update_lookup_ne by done. exists t. split; [done|apply advances_refl].
  - intros _ i t' H1 H2. destruct (decide (i = tid)) as [->|Hne].
    + rewrite update_lookup, H1 in H2. done.
    + rewrite update_lookup_ne in H2 by done. congruence.
Qed.

(** Split [Ext q st (f st')] into [Ext q st st'] and [Ext q st' (f st')]. *)
Ltac peel :=
  lazymatch goal with
  | |- Ext _ _ (?f ?s) => apply (Ext_trans _ _ s)
  end.

Lemma Ext_log q st st' chunk :
  tasks st' = tasks st → log st' = chunk ++ log st →
  Forall (λ x, tag_ok (length (tasks st)) x.1
               ∧ (q = true → special x.2 = false)) chunk →
  Ext q st st'.
Proof.
  intros Ht Hl Hc. split.
  - exists chunk. by rewrite Ht.
  - by rewrite Ht.
  - intros i t H. exists t. rewrite Ht. split; [done|apply advances_refl].
  - intros _ i t' H1 H2. rewrite Ht in H2. congruence.
Qed.

Lemma at_most_lt k tid st : at_most k tid st → tid < length (tasks st).
Proof. intros (t & Ht & _). by eapply lookup_lt_Some. Qed.

Lemma at_most_le k k' tid st : k ≤ k' → at_most k tid st → at_most k' tid st.
Proof. intros ? (t & ? & ?). exists t. split; [done|lia]. Qed.

Lemma at_most_tasks k tid st st' :
  tasks st' = tasks st → at_most k tid st → at_most k tid st'.
Proof. unfold at_most. by intros ->. Qed.

Lemma Ext_park q tid c st :
  at_most (rank c) tid st → (q = true → ∀ h, c ≠ AwaitResume h) →
  Ext q st (park tid c st).
Proof.
  intros (t & Ht & Hr) Hc. apply Ext_on_task. intros t0 Ht0.
  assert (t0 = t) as -> by congruence.
  unfold advances. simpl. repeat split; auto.
  intros Hq h ->. by destruct (Hc Hq h).
Qed.

(** ** The helpers leave the calls alone *)

Lemma tasks_freeze o st : tasks (freezeWithSnapshot o st) = tasks st.
Proof. unfold freezeWithSnapshot. repeat case_match; done. Qed.

Lemma Ext_freeze q o st :
  tag_ok (length (tasks st)) o → Ext q st (freezeWithSnapshot o st).
Proof.
  intros Ho. unfold freezeWithSnapshot.
  destruct (truthy (ref_snapshot (stateRefs st))); [apply Ext_refl|].
  destruct (truthy (getSnapshot st)) eqn:E.
  - apply Ext_log with [(o, SetSnapshot (getSnapshot st)); (o, SetIsLoading true)];
      [done..|].
    repeat constructor; simpl; auto. intros _. by rewrite E.
  - apply Ext_log with [(o, SetIsLoading true)]; [done..|].
    repeat constructor; simpl; auto.
Qed.

Lemma tasks_register o r h st :
  tasks (registerPlayerCallbacks o r h st) = tasks st.
Proof.
  unfold registerPlayerCallbacks, regQualityModeCallback.
  repeat case_match; done.
Qed.

Lemma Ext_regQuality q o r h st :
  tag_ok (length (tasks st)) o → Ext q st (regQualityModeCallback o r h st).
Proof.
  intros Ho.
  apply Ext_log with [(o, ConfigQualityMode h (streamQuality r) (length QUALITIES))];
    [done..|].
  repeat constructor; simpl; auto.
Qed.

Lemma Ext_register q o r h st :
  tag_ok (length (tasks st)) o → Ext q st (registerPlayerCallbacks o r h st).
Proof.
  intros Ho. unfold registerPlayerCallbacks.
  destruct (doDestroyAndPlayRef st); simpl;
    destruct (settingQuality (cur st)); simpl.
  - peel; [by apply Ext_frame|by apply Ext_regQuality].
  - by apply Ext_frame.
  - by apply Ext_regQuality.
  - apply Ext_refl.
Qed.

Lemma Ext_optional q b o a st :
  tag_ok (length (tasks st)) o → (q = true → special a = false) →
  Ext q st (optional b o a st).
Proof. intros. destruct b; simpl; [by apply Ext_say|apply Ext_refl]. Qed.

Lemma tasks_optional b o a st : tasks (optional b o a st) = tasks st.
Proof. by destruct b. Qed.

Lemma Ext_construct q cfg tid st :
  tid < length (tasks st) → Ext q st (construct cfg tid st).2.
Proof.
  intros H. simpl.
  apply Ext_log with
    [(Some tid, SetLogLevel (length (players st)) 2);
     (Some tid, SetMaxLatency (length (players st)) 3);
     (Some tid, SetVolume (length (players st)) Muted);
     (Some tid, SetRenderMode (length (players st)) (renderMode cfg));
     (Some tid, Construct (length (players st)))]; [done..|].
  repeat constructor; simpl; auto.
Qed.

Lemma load_tasks tid h source ms st st' :
  loadAndPlayVideo tid h source ms st = inl st' →
  tasks st' = update tid (task_chain (LoadPending h))
                (update tid (task_timer true) (tasks st)).
Proof.
  unfold loadAndPlayVideo. destruct (networkConditions (stateRefs st)); [done|].
  intros [= <-]. done.
Qed.

Lemma at_most_load k tid h source ms st st' :
  loadAndPlayVideo tid h source ms st = inl st' →
  at_most k tid st → at_most k tid st'.
Proof.
  intros Hl (t & Ht & Hr). unfold at_most. rewrite (load_tasks _ _ _ _ _ _ Hl).
  exists (task_chain (LoadPending h) (task_timer true t)).
  rewrite !update_lookup, Ht. done.
Qed.

Lemma Ext_load q tid h source ms st st' :
  loadAndPlayVideo tid h source ms st = inl st' →
  at_most 4 tid st → Ext q st st'.
Proof.
  intros Hl Ha. pose proof (at_most_lt _ _ _ Ha) as Hlt.
  destruct Ha as (t & Ht & Hr).
  unfold loadAndPlayVideo in Hl.
  destruct (networkConditions (stateRefs st)); [done|].
  injection Hl as <-.
  peel; [|apply Ext_on_task].
  - peel; [|apply Ext_say].
    + peel; [|by apply Ext_frame]. peel; [|by apply Ext_frame].
      peel; [|apply Ext_on_task].
      * apply Ext_say; simpl; auto.
      * simpl. intros t0 Ht0. assert (t0 = t) as -> by congruence.
        unfold advances. simpl. repeat split; auto; lia.
    + simpl. by rewrite update_length.
    + done.
  - simpl. intros t0. rewrite update_lookup, Ht. intros [= <-].
    unfold advances. simpl. repeat split; auto.
Qed.

Lemma Ext_setIsCanStream q o b st :
  tag_ok (length (tasks st)) o → Ext q st (setIsCanStream o b st).
Proof.
  intros. apply Ext_log with [(o, SetIsCanStream b)]; [done..|].
  repeat constructor; simpl; auto.
Qed.

Lemma Ext_setIsLoading q o st :
  tag_ok (length (tasks st)) o → Ext q st (setIsLoading o true st).
Proof.
  intros. apply Ext_log with [(o, SetIsLoading true)]; [done..|].
  repeat constructor; simpl; auto.
Qed.

Lemma Ext_setStreamQuality q o v st :
  tag_ok (length (tasks st)) o → Ext q st (setStreamQuality o v st).
Proof.
  intros. apply Ext_log with [(o, SetStreamQuality v)]; [done..|].
  repeat constructor; simpl; auto.
Qed.

Lemma Ext_setIsInit q o v st :
  tag_ok (length (tasks st)) o → Ext q st (setIsInit o v st).
Proof.
  intros. apply Ext_log with [(o, SetIsInit v)]; [done..|].
  repeat constructor; simpl; auto.
Qed.

(** ** The segments of a call only move it forward *)

Lemma Ext_retryOrHalt q cfg tid retryCount maxRetry st :
  at_most 7 tid st → Ext q st (retryOrHalt cfg tid retryCount maxRetry st).
Proof.
  intros Ha. pose proof (at_most_lt _ _ _ Ha). unfold retryOrHalt.
  destruct (exhausted retryCount maxRetry).
  - peel; [by apply Ext_setIsCanStream|]. apply Ext_park; [|done].
    eapply at_most_tasks; [|eapply at_most_le; [|exact Ha]]; [done|simpl; lia].
  - peel; [by apply Ext_say|]. apply Ext_park; [|done].
    eapply at_most_tasks; [|exact Ha]. done.
Qed.

Lemma Ext_playFailed q cfg tid e st :
  at_most 7 tid st → Ext q st (playFailed cfg tid e st).
Proof.
  intros Ha. pose proof (at_most_lt _ _ _ Ha). unfold playFailed.
  set (st1 := optional (onError cfg) (Some tid) (CallOnError e) st).
  assert (Ext q st st1) as E1 by (by apply Ext_optional).
  assert (at_most 7 tid st1) as A1.
  { eapply at_most_tasks; [|exact Ha]. apply tasks_optional. }
  destruct (tasks st1 !! tid) as [[[] ? ? ? ?]|]; try done.
  eapply Ext_trans; [exact E1|]. by apply Ext_retryOrHalt.
Qed.

Lemma Ext_play q cfg tid r st :
  at_most 4 tid st → Ext q st (play cfg tid r st).
Proof.
  intros Ha. pose proof (at_most_lt _ _ _ Ha) as Hlt. unfold play.
  set (st1 := setIsCanStream (Some tid) (truthy (getStreamUrl r)) st).
  assert (Ext q st st1) as E1 by (by apply Ext_setIsCanStream).
  assert (at_most 4 tid st1) as A1 by (by eapply at_most_tasks; [|exact Ha]).
  destruct (negb (truthy (getStreamUrl r)) || negb (videoEl r)).
  { eapply Ext_trans; [exact E1|]. apply Ext_playFailed.
    eapply at_most_le; [|exact A1]. lia. }
  destruct (construct cfg tid st1) as [h st2] eqn:EC.
  assert (st2 = (construct cfg tid st1).2) as E2 by (by rewrite EC).
  assert (Ext q st1 st2) as X2.
  { rewrite E2. apply Ext_construct. by eapply at_most_lt. }
  assert (at_most 4 tid st2) as A2.
  { rewrite E2. by eapply at_most_tasks; [|exact A1]. }
  destruct (loadAndPlayVideo tid h (getStreamUrl r) _ st2) as [st3|e] eqn:EL.
  - eapply Ext_trans; [exact E1|]. eapply Ext_trans; [exact X2|].
    eapply Ext_trans; [by eapply Ext_load|].
    apply Ext_park; [|done]. simpl.
    eapply at_most_le; [|by eapply at_most_load]. lia.
  - eapply Ext_trans; [exact E1|]. eapply Ext_trans; [exact X2|].
    apply Ext_playFailed. eapply at_most_le; [|exact A2]. lia.
Qed.

Lemma Ext_attempt q cfg tid r st :
  at_most 4 tid st → Ext q st (attempt cfg tid r st).
Proof.
  intros Ha. unfold attempt. peel.
  - apply Ext_setIsLoading. simpl. by eapply at_most_lt.
  - apply Ext_play. by eapply at_most_tasks; [|exact Ha].
Qed.

Lemma Ext_afterStop q tid st :
  at_most 4 tid st → Ext q st (afterStop tid st).
Proof.
  intros Ha. pose proof (at_most_lt _ _ _ Ha). unfold afterStop.
  destruct (call <$> tasks st !! tid) as [[]|].
  - peel; [by apply Ext_say|]. apply Ext_park; [|done].
    by eapply at_most_tasks; [|exact Ha].
  - apply Ext_park; [|done]. eapply at_most_le; [|exact Ha]. simpl. lia.
  - apply Ext_park; [|done]. eapply at_most_le; [|exact Ha]. simpl. lia.
  - apply Ext_park; [|done]. eapply at_most_le; [|exact Ha]. simpl. lia.
Qed.

Lemma Ext_stopVideoWithSnapshot q tid st :
  at_most 1 tid st → Ext q st (stopVideoWithSnapshot tid st).
Proof.
  intros Ha. pose proof (at_most_lt _ _ _ Ha). unfold stopVideoWithSnapshot.
  set (st1 := freezeWithSnapshot (Some tid) st).
  assert (Ext q st st1) as E1 by (by apply Ext_freeze).
  assert (at_most 1 tid st1) as A1.
  { eapply at_most_tasks; [|exact Ha]. apply tasks_freeze. }
  pose proof (at_most_lt _ _ _ A1).
  destruct (bool_decide (player st1 = None) || negb (isPlaying st1)).
  - eapply Ext_trans; [exact E1|]. apply Ext_afterStop.
    eapply at_most_le; [|exact A1]. lia.
  - eapply Ext_trans; [exact E1|]. peel; [by apply Ext_say|].
    apply Ext_park; [|done]. by eapply at_most_tasks; [|exact A1].
Qed.

Lemma Ext_spawn q c r st : Ext q st (spawn c r st).2.
Proof.
  unfold spawn. simpl. split; simpl.
  - exists []. split; [done|constructor].
  - rewrite length_app. lia.
  - intros i t Ht. exists t. split; [|apply advances_refl].
    by apply lookup_app_l_Some.
  - intros _ i t' H1 H2 h.
    apply lookup_ge_None in H1.
    rewrite lookup_app_r in H2 by done.
    destruct (i - length (tasks st)) as [|n]; simpl in H2; [|done].
    injection H2 as <-. done.
Qed.

Lemma at_most_spawn c r st :
  at_most 0 (length (tasks st)) (spawn c r st).2.
Proof.
  unfold spawn, at_most. simpl. eexists. split.
  - rewrite lookup_app_r by done. rewrite Nat.sub_diag. done.
  - done.
Qed.

Lemma Ext_doDestroyAndPlay q cfg r retryCount maxRetry st :
  Ext q st (doDestroyAndPlay cfg r retryCount maxRetry st).
Proof.
  unfold doDestroyAndPlay. destruct (shouldSkipPlay r st); [apply Ext_refl|].
  pose proof (Ext_spawn q (DoDestroyAndPlay retryCount maxRetry) r st) as E1.
  pose proof (at_most_spawn (DoDestroyAndPlay retryCount maxRetry) r st) as A1.
  unfold spawn in *. simpl in *.
  set (st1 := with_tasks _ st) in *.
  destruct (player st).
  - eapply Ext_trans; [exact E1|]. peel; [by apply Ext_frame|].
    apply Ext_stopVideoWithSnapshot.
    eapply at_most_le; [|eapply at_most_tasks; [|exact A1]]; [lia|done].
  - eapply Ext_trans; [exact E1|]. peel; [by apply Ext_frame|].
    apply Ext_attempt.
    eapply at_most_le; [|eapply at_most_tasks; [|exact A1]]; [lia|done].
Qed.

Lemma Ext_restart q cfg st : Ext q st (restart cfg st).
Proof.
  unfold restart. destruct (doDestroyAndPlayRef st);
    [apply Ext_doDestroyAndPlay|apply Ext_refl].
Qed.

Lemma at_most_lookup k tid st t :
  tasks st !! tid = Some t → rank (ctl t) ≤ k → at_most k tid st.
Proof. intros. by exists t. Qed.

Lemma Ext_stopNow q cfg tid st :
  at_most 2 tid st → Ext q st (stopNow cfg tid st).
Proof.
  intros Ha. pose proof (at_most_lt _ _ _ Ha). unfold stopNow.
  destruct (player st).
  - peel; [|apply Ext_park; [|done]].
    + peel; [by apply Ext_say|by apply Ext_frame].
    + by eapply at_most_tasks; [|exact Ha].
  - peel; [|apply Ext_afterStop].
    + peel; [|by apply Ext_frame]. by apply Ext_optional.
    + eapply at_most_le; [|eapply at_most_tasks; [|exact Ha]]; [lia|].
      simpl. apply tasks_optional.
Qed.

Lemma Ext_stopSettled q tid h res st :
  at_most 3 tid st → Ext q st (stopSettled tid h res st).
Proof.
  intros Ha. pose proof (at_most_lt _ _ _ Ha). unfold stopSettled.
  destruct res.
  - peel; [|apply Ext_park; [|done]].
    + peel; [by apply Ext_say|by apply Ext_frame].
    + by eapply at_most_tasks; [|exact Ha].
  - peel; [by apply Ext_frame|]. apply Ext_afterStop.
    eapply at_most_le; [|eapply at_most_tasks; [|exact Ha]]; [lia|done].
Qed.

Lemma Ext_destroySettled q cfg tid res st :
  at_most 4 tid st → Ext q st (destroySettled cfg tid res st).
Proof.
  intros Ha. pose proof (at_most_lt _ _ _ Ha). unfold destroySettled.
  assert (Ext q st (afterStop tid (with_player None st))) as E1.
  { peel; [by apply Ext_frame|]. apply Ext_afterStop.
    by eapply at_most_tasks; [|exact Ha]. }
  assert (Ext q st (afterStop tid (with_player None
             (optional (onStop cfg) (Some tid) CallOnStop st)))) as E2.
  { peel; [|apply Ext_afterStop].
    - peel; [|by apply Ext_frame]. by apply Ext_optional.
    - eapply at_most_tasks; [|exact Ha]. simpl. apply tasks_optional. }
  destruct res; [|done].
  destruct (call <$> tasks st !! tid) as [[]|]; done.
Qed.

Lemma Ext_cleanup q tid st : Ext q st (cleanup tid st).
Proof.
  apply Ext_on_task. intros t _. unfold advances. simpl. repeat split; auto.
Qed.

Lemma Ext_chain q tid c st : Ext q st (on_task tid (task_chain c) st).
Proof.
  apply Ext_on_task. intros t _. unfold advances. simpl. repeat split; auto.
Qed.

Lemma at_most_ctl k tid st c :
  ctl <$> tasks st !! tid = Some c → rank c ≤ k → at_most k tid st.
Proof.
  intros H Hr. destruct (tasks st !! tid) as [t|] eqn:E; [|done].
  injection H as <-. by exists t.
Qed.

Lemma Ext_reject q cfg tid e st : Ext q st (reject cfg tid e st).
Proof.
  unfold reject. destruct (ctl <$> tasks st !! tid) as [[]|] eqn:E;
    try apply Ext_refl.
  apply Ext_playFailed. eapply at_most_ctl; [exact E|simpl; lia].
Qed.

Lemma Ext_attempt_onError q cfg tid e st :
  Ext q st (attempt_onError cfg tid e st).
Proof. unfold attempt_onError. peel; [apply Ext_cleanup|apply Ext_reject]. Qed.

Lemma Ext_timedOut q cfg tid st : Ext q st (timedOut cfg tid st).
Proof.
  unfold timedOut. destruct (timer <$> tasks st !! tid) as [[]|];
    try apply Ext_refl.
  peel; [apply Ext_cleanup|apply Ext_reject].
Qed.

Lemma Ext_loadSettled q cfg tid res st : Ext q st (loadSettled cfg tid res st).
Proof.
  unfold loadSettled. destruct (chain <$> tasks st !! tid) as [[]|] eqn:E;
    try apply Ext_refl.
  pose proof E as Hlt. destruct (tasks st !! tid) eqn:E'; [|done].
  apply lookup_lt_Some in E'.
  destruct res.
  - peel; [by apply Ext_say|apply Ext_chain].
  - peel; [apply Ext_chain|apply Ext_attempt_onError].
Qed.

Lemma Ext_playSettled q cfg tid res st : Ext q st (playSettled cfg tid res st).
Proof.
  unfold playSettled. destruct (chain <$> tasks st !! tid) as [[]|];
    try apply Ext_refl.
  destruct res; [apply Ext_chain|].
  peel; [apply Ext_chain|apply Ext_attempt_onError].
Qed.

Lemma Ext_wake q cfg tid st : Ext q st (wake cfg tid st).
Proof.
  unfold wake. destruct (tasks st !! tid) as [t|] eqn:E; [|apply Ext_refl].
  destruct (ctl t) eqn:C; try apply Ext_refl.
  - apply Ext_stopNow. eapply at_most_lookup; [exact E|rewrite C; simpl; lia].
  - apply Ext_attempt. eapply at_most_lookup; [exact E|rewrite C; simpl; lia].
  - destruct (call t); try apply Ext_refl.
    set (st1 := park tid Returned (with_running false st)).
    assert (Ext q st st1) as E1.
    { unfold st1. peel; [by apply Ext_frame|]. apply Ext_park; [|done].
      eapply at_most_lookup; [exact E|simpl; rewrite C; simpl; lia]. }
    destruct (doDestroyAndPlayRef st1); [|done].
    eapply Ext_trans; [exact E1|apply Ext_doDestroyAndPlay].
Qed.

Lemma Ext_qualityChanged q r ev st : Ext q st (qualityChanged r ev st).
Proof.
  unfold qualityChanged. destruct (settingQuality r); [|apply Ext_refl].
  destruct (isPlaying st); [|apply Ext_refl].
  by apply Ext_setStreamQuality.
Qed.

Lemma Ext_spawned q c r st (f : nat → Hook → Hook) :
  (∀ st', at_most 0 (length (tasks st)) st' → Ext q st' (f (length (tasks st)) st')) →
  Ext q st (let '(tid, st') := spawn c r st in f tid st').
Proof.
  intros Hf. pose proof (Ext_spawn q c r st) as E1.
  pose proof (at_most_spawn c r st) as A1.
  unfold spawn in *. simpl in *.
  eapply Ext_trans; [exact E1|]. by apply Hf.
Qed.

Lemma Ext_clear q r st : Ext q st (clear r st).
Proof.
  unfold clear. destruct (player st); [|apply Ext_refl].
  apply (Ext_spawned q Clear r st
           (λ tid st', park tid (AwaitStop n)
              (on_player n player_stopCalled (say (Some tid) (Stop n) st')))).
  intros st' Ha. pose proof (at_most_lt _ _ _ Ha).
  peel; [|apply Ext_park; [|done]].
  - peel; [by apply Ext_say|by apply Ext_frame].
  - eapply at_most_le; [|eapply at_most_tasks; [|exact Ha]]; [simpl; lia|done].
Qed.

Lemma Ext_standaloneStop q r st :
  Ext q st (let '(tid, st') := spawn StopVideoWithSnapshot r st in
            stopVideoWithSnapshot tid st').
Proof.
  apply (Ext_spawned q StopVideoWithSnapshot r st stopVideoWithSnapshot).
  intros st' Ha. apply Ext_stopVideoWithSnapshot.
  eapply at_most_le; [|exact Ha]. lia.
Qed.

Lemma Ext_effect_visibility q cfg prev r st :
  Ext q st (effect_visibility cfg prev r st).
Proof.
  unfold effect_visibility.
  destruct (changed _ prev r); [|apply Ext_refl].
  destruct (isVisible r && negb (NetworkConditions r) && isInit r);
    [apply Ext_restart|apply Ext_standaloneStop].
Qed.

Lemma Ext_commit q cfg st : Ext q st (commit cfg st).
Proof.
  unfold commit.
  peel; [|unfold effect_rotation; repeat case_match;
           [apply Ext_refl|apply Ext_restart|apply Ext_refl]].
  peel; [|unfold effect_init; repeat case_match; try apply Ext_refl;
          peel; [by apply Ext_setIsInit|by apply Ext_frame]].
  peel; [|unfold effect_streamQuality; case_match;
           [apply Ext_restart|apply Ext_refl]].
  peel; [|unfold effect_quality; repeat case_match; try apply Ext_refl;
          [by apply Ext_regQuality|by apply Ext_setStreamQuality]].
  peel; [|apply Ext_effect_visibility].
  peel; [|by apply Ext_frame].
  peel; [|unfold effect_stateRefs; case_match; [by apply Ext_frame|apply Ext_refl]].
  peel; [|unfold cleanup_init; case_match; [|apply Ext_refl];
          peel; [by apply Ext_frame|apply Ext_clear]].
  by apply Ext_frame.
Qed.

(** ** The success path *)

Lemma Ext_succeeded cfg tid st :
  at_most 8 tid st → Ext false st (succeeded cfg tid st).
Proof.
  intros Ha. pose proof (at_most_lt _ _ _ Ha). unfold succeeded.
  peel; [|apply Ext_park; [|done]].
  - peel; [|apply Ext_log with [(Some tid, SetIsLoading false)]; [done..|];
            apply Forall_singleton; split; [by repeat (simpl; rewrite ?tasks_optional)|done]].
    peel; [|by apply Ext_frame].
    peel; [|apply Ext_optional; [simpl; by rewrite tasks_optional|done]].
    peel; [|apply Ext_log with [(Some tid, SetSnapshot "")]; [done..|];
            apply Forall_singleton; split; [by repeat (simpl; rewrite ?tasks_optional)|done]].
    by apply Ext_optional.
  - eapply at_most_tasks; [|exact Ha]. by repeat (simpl; rewrite ?tasks_optional).
Qed.

Lemma Ext_resumeSettled cfg tid h res st :
  at_most 6 tid st → Ext false st (resumeSettled cfg tid h res st).
Proof.
  intros Ha. pose proof (at_most_lt _ _ _ Ha). unfold resumeSettled.
  destruct res.
  - peel; [by apply Ext_say|]. apply Ext_succeeded.
    eapply at_most_le; [|eapply at_most_tasks; [|exact Ha]]; [lia|done].
  - apply Ext_playFailed. eapply at_most_le; [|exact Ha]. lia.
Qed.

Lemma Ext_resolve cfg tid st : Ext false st (resolve cfg tid st).
Proof.
  unfold resolve. destruct (ctl <$> tasks st !! tid) as [[]|] eqn:E;
    try apply Ext_refl.
  assert (at_most 5 tid st) as Ha by (eapply at_most_ctl; [exact E|simpl; lia]).
  pose proof (at_most_lt _ _ _ Ha).
  destruct (player st).
  - peel; [by apply Ext_say|]. apply Ext_park; [|done].
    eapply at_most_le; [|eapply at_most_tasks; [|exact Ha]]; [simpl; lia|done].
  - apply Ext_succeeded. eapply at_most_le; [|exact Ha]. lia.
Qed.

Lemma Ext_settle cfg tid res st : Ext false st (settle cfg tid res st).
Proof.
  unfold settle. destruct (ctl <$> tasks st !! tid) as [[]|] eqn:E;
    try apply Ext_refl.
  - apply Ext_stopSettled. eapply at_most_ctl; [exact E|simpl; lia].
  - apply Ext_destroySettled. eapply at_most_ctl; [exact E|simpl; lia].
  - apply Ext_resumeSettled. eapply at_most_ctl; [exact E|simpl; lia].
Qed.

Lemma Ext_attempt_onFirstFrame cfg tid h st :
  Ext false st (attempt_onFirstFrame cfg tid h st).
Proof.
  unfold attempt_onFirstFrame.
  destruct (closure <$> tasks st !! tid) as [r|] eqn:E; [|apply Ext_refl].
  assert (tid < length (tasks st)) as Hlt.
  { destruct (tasks st !! tid) eqn:E'; [|done]. by eapply lookup_lt_Some. }
  peel; [|apply Ext_resolve].
  peel; [|apply Ext_register; simpl; by rewrite update_length].
  peel; [|apply Ext_cleanup].
  by apply Ext_say.
Qed.

Lemma Ext_dispatch cfg h e l st : Ext false st (dispatch cfg h e l st).
Proof.
  unfold dispatch. destruct l, e; try apply Ext_refl.
  - apply Ext_attempt_onFirstFrame.
  - apply Ext_attempt_onError.
  - peel; [by apply Ext_freeze|apply Ext_restart].
  - peel; [by apply Ext_freeze|apply Ext_restart].
  - peel; [by apply Ext_freeze|apply Ext_restart].
  - apply Ext_qualityChanged.
Qed.

Lemma Ext_emit cfg h e st : Ext false st (emit cfg h e st).
Proof.
  unfold emit. destruct (players st !! h) as [p|]; [|apply Ext_refl].
  generalize (listeners p). intros ls.
  assert (∀ st', Ext false st st' →
            Ext false st (foldl (λ st0 '(ty, l),
                 if PlayerEventType.eqb ty (eventType e)
                 then dispatch cfg h e l st0 else st0) st' ls)) as H.
  { induction ls as [|[ty l] ls IH]; intros st' Hst'; simpl; [done|].
    apply IH. destruct (PlayerEventType.eqb ty (eventType e)); [|done].
    eapply Ext_trans; [exact Hst'|apply Ext_dispatch]. }
  apply H, Ext_refl.
Qed.

Lemma Ext_step cfg e st : Ext false st (step cfg e st).
Proof.
  destruct e; simpl; try (by apply Ext_frame).
  - apply Ext_commit.
  - apply Ext_emit.
  - apply Ext_wake.
  - apply Ext_timedOut.
  - apply Ext_settle.
  - apply Ext_loadSettled.
  - apply Ext_playSettled.
  - destruct (rendered st); [apply Ext_doDestroyAndPlay|apply Ext_refl].
  - destruct (rendered st); [apply Ext_standaloneStop|apply Ext_refl].
Qed.

Lemma Ext_run cfg es st : Ext false st (run cfg es st).
Proof.
  revert st. induction es as [|e es IH]; intros st; simpl; [apply Ext_refl|].
  eapply Ext_trans; [apply Ext_step|apply IH].
Qed.

(** ** The invariant behind C5 *)



Lemma count_app tid a l1 l2 :
  count tid a (l1 ++ l2) = count tid a l1 + count tid a l2.
Proof. unfold count. by rewrite List.filter_app, length_app. Qed.

Lemma count_cons tid a x l :
  count tid a (x :: l) = (if bool_decide (x = (Some tid, a)) then 1 else 0) + count tid a l.
Proof. unfold count. simpl. by destruct (bool_decide _). Qed.

Lemma count_absent tid a l : (Some tid, a) ∉ l → count tid a l = 0.
Proof.
  induction l as [|x l IH]; intros H; [done|].
  rewrite count_cons. rewrite not_elem_of_cons in H. destruct H as [H1 H2].
  rewrite bool_decide_false by congruence. by rewrite IH.
Qed.

Lemma benign_absent tid a (chunk : list (option nat * Action)) :
  Forall (λ x, special x.2 = false) chunk → special a = true →
  (Some tid, a) ∉ chunk.
Proof.
  intros HF Ha Hin. rewrite Forall_forall in HF.
  specialize (HF _ Hin). simpl in HF. congruence.
Qed.

Lemma seen_app tid l1 l2 : seen tid l2 → seen tid (l1 ++ l2).
Proof. intros [h H]. exists h. apply elem_of_app. by right. Qed.

Lemma ordered_app chunk l :
  Forall (λ x, special x.2 = false) chunk → ordered l → ordered (chunk ++ l).
Proof.
  induction chunk as [|x chunk IH]; intros HF Hl; [done|].
  apply Forall_cons in HF as [Hx HF]. simpl. split; [|by apply IH].
  intros. congruence.
Qed.

Lemma ordered_split l l1 o a l2 :
  ordered l → l = l1 ++ (o, a) :: l2 → special a = true →
  ∃ tid, o = Some tid ∧ seen tid l2.
Proof.
  intros Ho ->. induction l1 as [|x l1 IH]; simpl in Ho.
  - intros Ha. by apply (proj1 Ho).
  - apply IH. by destruct Ho.
Qed.

Lemma chunk_benign (chunk : list (option nat * Action)) n :
  Forall (λ x, tag_ok n x.1 ∧ (true = true → special x.2 = false)) chunk →
  Forall (λ x, special x.2 = false) chunk ∧ Forall (λ x, tag_ok n x.1) chunk.
Proof.
  intros H. split; (eapply Forall_impl; [exact H|]); intros x [? ?]; auto.
Qed.

Lemma tagged_absent n tid a (l : list (option nat * Action)) :
  Forall (λ x, tag_ok n x.1) l → n ≤ tid → (Some tid, a) ∉ l.
Proof.
  intros HF Hn Hin. rewrite Forall_forall in HF.
  specialize (HF _ Hin). simpl in HF. lia.
Qed.

(** An ordinary step keeps the invariant. *)
Lemma Inv_Ext st st' : Inv st → Ext true st st' → Inv st'.
Proof.
  intros [Tg Rs Or Op On Su] [(chunk & L & F) N O W].
  apply chunk_benign in F as [Fb Ft].
  split.
  - rewrite L. apply Forall_app. split; [done|].
    eapply Forall_impl; [exact Tg|]. intros [[tid|] a]; simpl; [lia|done].
  - intros tid t' h Ht' Hc. rewrite L. apply seen_app.
    destruct (tasks st !! tid) as [t|] eqn:E.
    + destruct (O tid t E) as (t2 & Ht2 & A).
      assert (t2 = t') as -> by congruence.
      destruct A as (_ & _ & _ & _ & A). eapply Rs; [exact E|by apply A].
    + by destruct (W eq_refl tid t' E Ht' h).
  - rewrite L. by apply ordered_app.
  - intros tid t' a Ht' Hc Ha. rewrite L. rewrite not_elem_of_app. split.
    + by apply benign_absent.
    + destruct (tasks st !! tid) as [t|] eqn:E.
      * destruct (O tid t E) as (t2 & Ht2 & A).
        assert (t2 = t') as -> by congruence.
        eapply Op; [exact E| |done].
        intros Hr. destruct A as (_ & _ & A & _). rewrite Hr in A.
        destruct (ctl t'); simpl in A; try lia. done.
      * apply lookup_ge_None in E. by eapply tagged_absent.
  - intros tid. rewrite L, count_app.
    rewrite (count_absent tid _ chunk) by (by apply benign_absent). apply On.
  - intros tid a Ha. rewrite L, count_app.
    rewrite (count_absent tid _ chunk) by (by apply benign_absent).
    rewrite elem_of_app. intros [H|H]; [|by eapply Su].
    by destruct (benign_absent tid a chunk Fb Ha).
Qed.

Lemma Inv_park_resume st tid t h :
  Inv st → tasks st !! tid = Some t → ctl t ≠ Returned → seen tid (log st) →
  Inv (park tid (AwaitResume h) st).
Proof.
  intros [Tg Rs Or Op On Su] Ht Hc Hs. split; simpl; try done.
  - by rewrite update_length.
  - intros i t' h' Ht' Hc'. destruct (decide (i = tid)) as [->|Hne]; [done|].
    rewrite update_lookup_ne in Ht' by done. by eapply Rs.
  - intros i t' a Ht' Hc' Ha. destruct (decide (i = tid)) as [->|Hne].
    + by eapply Op.
    + rewrite update_lookup_ne in Ht' by done. by eapply Op.
Qed.

Lemma ordered_tagged tid chunk l :
  Forall (λ x, x.1 = Some tid) chunk → seen tid l → ordered l →
  ordered (chunk ++ l).
Proof.
  induction chunk as [|x chunk IH]; intros HF Hs Hl; [done|].
  apply Forall_cons in HF as [Hx HF]. simpl. split; [|by apply IH].
  intros _. exists tid. split; [done|]. by apply seen_app.
Qed.

Lemma other_tag_absent tid i a (chunk : list (option nat * Action)) :
  Forall (λ x, x.1 = Some tid) chunk → i ≠ tid → (Some i, a) ∉ chunk.
Proof.
  intros HF Hne Hin. rewrite Forall_forall in HF.
  specialize (HF _ Hin). simpl in HF. congruence.
Qed.

(** The success branch closes the call [tid]: its actions enter the log at
    once, and the call has returned. *)
Lemma Inv_success_chunk st st' tid t chunk :
  Inv st → tasks st !! tid = Some t → ctl t ≠ Returned → seen tid (log st) →
  log st' = chunk ++ log st →
  tasks st' = update tid (task_ctl Returned) (tasks st) →
  Forall (λ x, x.1 = Some tid) chunk →
  count tid (SetSnapshot "") chunk = 1 →
  Inv st'.
Proof.
  intros [Tg Rs Or Op On Su] Ht Hc Hs L T HF H1.
  pose proof (lookup_lt_Some _ _ _ Ht) as Hlt.
  split; rewrite ?L, ?T.
  - rewrite update_length. apply Forall_app. split; [|done].
    eapply Forall_impl; [exact HF|]. intros [o a]; simpl. by intros ->.
  - intros i t' h Ht' Hc'. apply seen_app.
    destruct (decide (i = tid)) as [->|Hne].
    + rewrite update_lookup, Ht in Ht'. by injection Ht' as <-.
    + rewrite update_lookup_ne in Ht' by done. by eapply Rs.
  - by apply (ordered_tagged tid).
  - intros i t' a Ht' Hc' Ha. destruct (decide (i = tid)) as [->|Hne].
    + rewrite update_lookup, Ht in Ht'. by injection Ht' as <-.
    + rewrite update_lookup_ne in Ht' by done.
      rewrite not_elem_of_app. split; [by eapply other_tag_absent|by eapply Op].
  - intros i. rewrite count_app. destruct (decide (i = tid)) as [->|Hne].
    + rewrite H1, (count_absent tid _ (log st)); [lia|]. by eapply Op.
    + rewrite (count_absent i _ chunk) by (by eapply other_tag_absent).
      apply On.
  - intros i a Ha. rewrite count_app. destruct (decide (i = tid)) as [->|Hne].
    + intros _. rewrite H1, (count_absent tid _ (log st)); [lia|]. by eapply Op.
    + rewrite (count_absent i _ chunk) by (by eapply other_tag_absent).
      rewrite elem_of_app. intros [H|H]; [|by eapply Su].
      by destruct (other_tag_absent tid i _ chunk HF Hne H).
Qed.

Lemma Inv_succeeded cfg st tid t :
  Inv st → tasks st !! tid = Some t → ctl t ≠ Returned → seen tid (log st) →
  Inv (succeeded cfg tid st).
Proof.
  intros HI Ht Hc Hs. unfold succeeded.
  destruct (onPlay cfg); simpl.
  - eapply (Inv_success_chunk st _ tid t
              [(Some tid, SetIsLoading false); (Some tid, CallOnPlay);
               (Some tid, SetSnapshot ""); (Some tid, CallOnPlay)]);
      try done.
    + by repeat constructor.
    + rewrite !count_cons. repeat case_bool_decide; try done; congruence.
  - eapply (Inv_success_chunk st _ tid t
              [(Some tid, SetIsLoading false); (Some tid, SetSnapshot "")]);
      try done.
    + by repeat constructor.
    + rewrite !count_cons. repeat case_bool_decide; try done; congruence.
Qed.

Lemma seen_Ext q tid st st' : Ext q st st' → seen tid (log st) → seen tid (log st').
Proof. intros [(c & -> & _) _ _ _]. apply seen_app. Qed.

Lemma Inv_resolve cfg st tid :
  Inv st → seen tid (log st) → Inv (resolve cfg tid st).
Proof.
  intros HI Hs. unfold resolve.
  destruct (tasks st !! tid) as [t|] eqn:Ht; simpl; [|done].
  destruct (ctl t) eqn:Hc; try done.
  destruct (player st).
  - eapply Inv_park_resume.
    + eapply Inv_Ext; [exact HI|]. apply Ext_say; [|done].
      simpl. by eapply lookup_lt_Some.
    + exact Ht.
    + by rewrite Hc.
    + simpl. destruct Hs as [h' Hs]. exists h'. by apply elem_of_cons; right.
  - eapply Inv_succeeded; try done. by rewrite Hc.
Qed.

Lemma Inv_resumeSettled cfg st tid t h h' res :
  Inv st → tasks st !! tid = Some t → ctl t = AwaitResume h' →
  Inv (resumeSettled cfg tid h res st).
Proof.
  intros HI Ht Hc. unfold resumeSettled. destruct res.
  - eapply (Inv_succeeded _ _ tid t).
    + eapply Inv_Ext; [exact HI|]. apply Ext_say; [|done].
      simpl. by eapply lookup_lt_Some.
    + done.
    + by rewrite Hc.
    + simpl. destruct (inv_resume _ HI _ _ _ Ht Hc) as [h0 H0].
      exists h0. by apply elem_of_cons; right.
  - eapply Inv_Ext; [exact HI|]. apply Ext_playFailed.
    eapply at_most_lookup; [exact Ht|rewrite Hc; simpl; lia].
Qed.

Lemma Inv_settle cfg st tid res : Inv st → Inv (settle cfg tid res st).
Proof.
  intros HI. unfold settle.
  destruct (tasks st !! tid) as [t|] eqn:Ht; simpl; [|done].
  destruct (ctl t) eqn:Hc; try done.
  - eapply Inv_Ext; [exact HI|]. apply Ext_stopSettled.
    eapply at_most_lookup; [exact Ht|rewrite Hc; simpl; lia].
  - eapply Inv_Ext; [exact HI|]. apply Ext_destroySettled.
    eapply at_most_lookup; [exact Ht|rewrite Hc; simpl; lia].
  - by eapply Inv_resumeSettled.
Qed.

Lemma Inv_attempt_onFirstFrame cfg st tid h :
  Inv st → Inv (attempt_onFirstFrame cfg tid h st).
Proof.
  intros HI. unfold attempt_onFirstFrame.
  destruct (tasks st !! tid) as [t|] eqn:Ht; simpl; [|done].
  pose proof (lookup_lt_Some _ _ _ Ht) as Hlt.
  set (st1 := say (Some tid) (FirstFrameRendered h) st).
  assert (Ext true st1 (registerPlayerCallbacks (Some tid) (closure t) h
                          (cleanup tid st1))) as E.
  { peel; [apply Ext_cleanup|]. apply Ext_register. simpl.
    by rewrite update_length. }
  apply Inv_resolve.
  - eapply Inv_Ext; [|exact E]. eapply Inv_Ext; [exact HI|]. by apply Ext_say.
  - eapply seen_Ext; [exact E|]. exists h. simpl. apply elem_of_cons. by left.
Qed.

Lemma Inv_dispatch cfg st h e l : Inv st → Inv (dispatch cfg h e l st).
Proof.
  intros HI. unfold dispatch. destruct l, e; try done.
  - by apply Inv_attempt_onFirstFrame.
  - eapply Inv_Ext; [exact HI|apply Ext_attempt_onError].
  - eapply Inv_Ext; [exact HI|]. peel; [by apply Ext_freeze|apply Ext_restart].
  - eapply Inv_Ext; [exact HI|]. peel; [by apply Ext_freeze|apply Ext_restart].
  - eapply Inv_Ext; [exact HI|]. peel; [by apply Ext_freeze|apply Ext_restart].
  - eapply Inv_Ext; [exact HI|apply Ext_qualityChanged].
Qed.

Lemma Inv_emit cfg st h e : Inv st → Inv (emit cfg h e st).
Proof.
  unfold emit. destruct (players st !! h) as [p|]; [|done].
  generalize (listeners p). intros ls. revert st.
  induction ls as [|[ty l] ls IH]; intros st HI; simpl; [done|].
  apply IH. destruct (PlayerEventType.eqb ty (eventType e)); [|done].
  by apply Inv_dispatch.
Qed.

Lemma Inv_step cfg e st : Inv st → Inv (step cfg e st).
Proof.
  intros HI.
  destruct e; simpl;
    try (eapply Inv_Ext; [exact HI|]; by apply Ext_frame).
  - eapply Inv_Ext; [exact HI|apply Ext_commit].
  - by apply Inv_emit.
  - eapply Inv_Ext; [exact HI|apply Ext_wake].
  - eapply Inv_Ext; [exact HI|apply Ext_timedOut].
  - by apply Inv_settle.
  - eapply Inv_Ext; [exact HI|apply Ext_loadSettled].
  - eapply Inv_Ext; [exact HI|apply Ext_playSettled].
  - destruct (rendered st); [|done].
    eapply Inv_Ext; [exact HI|apply Ext_doDestroyAndPlay].
  - destruct (rendered st); [|done].
    eapply Inv_Ext; [exact HI|apply Ext_standaloneStop].
Qed.

Lemma Inv_mount r : Inv (mount r).
Proof.
  split; simpl; try done.
  - intros tid. unfold count. simpl. lia.
  - intros tid a _ H. by apply elem_of_nil in H.
Qed.

Lemma Inv_run cfg es st : Inv st → Inv (run cfg es st).
Proof.
  revert st. induction es as [|e es IH]; intros st HI; simpl; [done|].
  by apply IH, Inv_step.
Qed.

(** ** Facts shared by C7, C8 and C9 *)

Lemma lookup_park tid c st :
  tasks (park tid c st) !! tid = task_ctl c <$> tasks st !! tid.
Proof. simpl. apply update_lookup. Qed.

(** An eligible [doDestroyAndPlay] starts exactly one call, with the retry
    count and maximum it was given. *)
Lemma doDestroyAndPlay_spawns cfg r retryCount maxRetry st :
  shouldSkipPlay r st = false →
  call <$> tasks (doDestroyAndPlay cfg r retryCount maxRetry st) !! length (tasks st)
  = Some (DoDestroyAndPlay retryCount maxRetry).
Proof.
  intros Hs. unfold doDestroyAndPlay. rewrite Hs.
  pose proof (at_most_spawn (DoDestroyAndPlay retryCount maxRetry) r st) as A1.
  unfold spawn in *. simpl in *.
  set (st1 := with_tasks _ st) in *.
  assert (tasks st1 !! length (tasks st)
          = Some (mkTask (DoDestroyAndPlay retryCount maxRetry) r Running false NoChain)) as Ht.
  { unfold st1. simpl. rewrite lookup_app_r by done. by rewrite Nat.sub_diag. }
  assert (∀ st2, Ext false (with_running true st1) st2 →
            call <$> tasks st2 !! length (tasks st)
            = Some (DoDestroyAndPlay retryCount maxRetry)) as H.
  { intros st2 [_ _ O _]. destruct (O _ _ Ht) as (t' & E1 & (E2 & _)).
    rewrite E1. simpl. by rewrite E2. }
  destruct (player st); apply H.
  - apply Ext_stopVideoWithSnapshot.
    eapply at_most_le; [|eapply at_most_tasks; [|exact A1]]; [lia|done].
  - apply Ext_attempt.
    eapply at_most_le; [|eapply at_most_tasks; [|exact A1]]; [lia|done].
Qed.

Lemma doDestroyAndPlay_skip cfg r retryCount maxRetry st :
  shouldSkipPlay r st = true →
  doDestroyAndPlay cfg r retryCount maxRetry st = st.
Proof. intros H. unfold doDestroyAndPlay. by rewrite H. Qed.

(** Once a call is past the race and its timer is off, that stays so. *)
Lemma settled_stable cfg es st tid t :
  tasks st !! tid = Some t → 6 ≤ rank (ctl t) → timer t = false →
  ∃ t', tasks (run cfg es st) !! tid = Some t'
        ∧ (∀ h, ctl t' ≠ AwaitRace h) ∧ timer t' = false.
Proof.
  intros Ht Hr Hf. destruct (Ext_run cfg es st) as [_ _ O _].
  destruct (O _ _ Ht) as (t' & Ht' & (_ & _ & R & T & _)).
  exists t'. split; [done|]. split; [|apply T; [lia|done]].
  intros h Hh. rewrite Hh in R. simpl in R. lia.
Qed.

(** A call keeps its retry count and maximum for life. *)
Lemma call_stable cfg es st tid t :
  tasks st !! tid = Some t →
  call <$> tasks (run cfg es st) !! tid = Some (call t).
Proof.
  intros Ht. destruct (Ext_run cfg es st) as [_ _ O _].
  destruct (O _ _ Ht) as (t' & E1 & (E2 & _)). rewrite E1. simpl. by rewrite E2.
Qed.

(** The timer wins the race: [play]'s [catch] receives the timeout error. *)
Lemma timedOut_rejects cfg st tid t h retryCount maxRetry :
  tasks st !! tid = Some t → call t = DoDestroyAndPlay retryCount maxRetry →
  ctl t = AwaitRace h → timer t = true →
  timedOut cfg tid st
  = retryOrHalt cfg tid retryCount maxRetry
      (optional (onError cfg) (Some tid) (CallOnError FirstFrameTimeout)
         (on_task tid (task_timer false) st)).
Proof.
  intros Ht Hk Hc Hm. unfold timedOut. rewrite Ht. simpl. rewrite Hm.
  unfold reject. simpl. rewrite update_lookup, Ht. simpl. rewrite Hc.
  unfold playFailed. rewrite tasks_optional. simpl.
  rewrite update_lookup, Ht. simpl. destruct t; simpl in *. by subst.
Qed.

Lemma retryOrHalt_parks cfg tid retryCount maxRetry st t :
  tasks st !! tid = Some t →
  tasks (retryOrHalt cfg tid retryCount maxRetry st) !! tid
  = Some (task_ctl (if exhausted retryCount maxRetry then Returned
                    else AwaitRetryDelay) t).
Proof.
  intros Ht. unfold retryOrHalt.
  destruct (exhausted retryCount maxRetry); rewrite lookup_park; simpl;
    by rewrite Ht.
Qed.

Lemma log_retryOrHalt cfg tid retryCount maxRetry st x :
  x ∈ log st → x ∈ log (retryOrHalt cfg tid retryCount maxRetry st).
Proof.
  intros H. unfold retryOrHalt.
  destruct (exhausted retryCount maxRetry); simpl; by apply elem_of_cons; right.
Qed.

Lemma playFailed_waits cfg st tid t retryCount maxRetry e :
  tasks st !! tid = Some t →
  call t = DoDestroyAndPlay retryCount maxRetry →
  exhausted retryCount maxRetry = false →
  playFailed cfg tid e st
  = park tid AwaitRetryDelay
      (say (Some tid) (Sleep (retryDelay (playbackSettings cfg)))
         (optional (onError cfg) (Some tid) (CallOnError e) st)).
Proof.
  intros Ht Hk Hx. unfold playFailed. rewrite tasks_optional, Ht.
  destruct t; simpl in *. subst. unfold retryOrHalt. by rewrite Hx.
Qed.

(** The stream-quality effect and the stream-rotation effect re-evaluate
    with the default parameters. *)
Lemma effect_streamQuality_restarts cfg prev next st :
  streamQuality prev ≠ streamQuality next →
  effect_streamQuality cfg (Some prev) next st = restart cfg st.
Proof.
  intros H. unfold effect_streamQuality, changed.
  by rewrite bool_decide_false.
Qed.

Lemma effect_rotation_restarts cfg prev next st :
  streams prev ≠ streams next → isInit next = true → streams next ≠ None →
  effect_rotation cfg (Some prev) next st = restart cfg st.
Proof.
  intros H Hi Hs. unfold effect_rotation, changed.
  rewrite bool_decide_false by congruence. simpl. rewrite Hi. simpl.
  by rewrite bool_decide_false.
Qed.

Lemma restart_spec cfg st r :
  doDestroyAndPlayRef st = Some r →
  restart cfg st = doDestroyAndPlay cfg r 0 (maxRetries (playbackSettings cfg)) st.
Proof. intros H. unfold restart. by rewrite H. Qed.

(** ** A stuck hook stays stuck *)

Lemma Calm_refl st : Calm st st.
Proof. intros H. split; [done|]. exists []. split; [done|constructor]. Qed.

Lemma Calm_trans st1 st2 st3 : Calm st1 st2 → Calm st2 st3 → Calm st1 st3.
Proof.
  intros H1 H2 Hs. destruct (H1 Hs) as (Hs2 & c1 & L1 & F1).
  destruct (H2 Hs2) as (Hs3 & c2 & L2 & F2). split; [done|].
  exists (c2 ++ c1). split; [by rewrite L2, L1, app_assoc|by apply Forall_app].
Qed.

Ltac calm :=
  lazymatch goal with
  | |- Calm _ (?f ?s) => apply (Calm_trans _ s)
  end.

Lemma Calm_log st st' chunk :
  tasks st' = tasks st →
  isDoDestroyAndPlayRunning st' = isDoDestroyAndPlayRunning st →
  log st' = chunk ++ log st → Forall (λ x, builds x = false) chunk →
  Calm st st'.
Proof.
  intros Ht Hr Hl Hc [R T]. split.
  - split; [by rewrite Hr|by rewrite Ht].
  - by exists chunk.
Qed.

Lemma Calm_frame st st' :
  tasks st' = tasks st →
  isDoDestroyAndPlayRunning st' = isDoDestroyAndPlayRunning st →
  log st' = log st → Calm st st'.
Proof. intros. by apply Calm_log with []. Qed.

Lemma Calm_say o a st : builds (o, a) = false → Calm st (say o a st).
Proof. intros. apply Calm_log with [(o, a)]; [done..|]. by repeat constructor. Qed.

Lemma Calm_on_task tid f st :
  (∀ t, tasks st !! tid = Some t → idle_task t → idle_task (f t)) →
  Calm st (on_task tid f st).
Proof.
  intros Hf [R T]. split.
  - split; [done|]. simpl. intros i t Ht.
    destruct (decide (i = tid)) as [->|Hne].
    + rewrite update_lookup in Ht.
      destruct (tasks st !! tid) as [t0|] eqn:E; [|done].
      injection Ht as <-. apply Hf; [done|]. by eapply T.
    + rewrite update_lookup_ne in Ht by done. by eapply T.
  - exists []. split; [done|constructor].
Qed.

Lemma Calm_timer tid b st : Calm st (on_task tid (task_timer b) st).
Proof. apply Calm_on_task. by intros [] _. Qed.

Lemma Calm_chain tid c st : Calm st (on_task tid (task_chain c) st).
Proof. apply Calm_on_task. by intros [] _. Qed.

(** A stand-alone call that has not returned may move on within its
    teardown, or return. *)
Lemma Calm_park tid c st :
  (c = Returned ∨ rank c ≤ 3) →
  (∀ t, tasks st !! tid = Some t → ctl t = Returned → c = Returned) →
  Calm st (park tid c st).
Proof.
  intros Hc Hr. apply Calm_on_task. intros t Ht [Hi|[Hi Hk]].
  - left. simpl. by eapply Hr.
  - destruct Hc as [->|Hc]; [by left|]. right. by split.
Qed.

Lemma Calm_doDestroyAndPlay cfg r retryCount maxRetry st :
  Calm st (doDestroyAndPlay cfg r retryCount maxRetry st).
Proof.
  intros Hs. rewrite doDestroyAndPlay_running by apply Hs.
  by apply Calm_refl.
Qed.

Lemma Calm_restart cfg st : Calm st (restart cfg st).
Proof.
  unfold restart. destruct (doDestroyAndPlayRef st);
    [apply Calm_doDestroyAndPlay|apply Calm_refl].
Qed.

Lemma Calm_freeze o st : Calm st (freezeWithSnapshot o st).
Proof.
  unfold freezeWithSnapshot.
  destruct (truthy (ref_snapshot (stateRefs st))); [apply Calm_refl|].
  destruct (truthy (getSnapshot st)).
  - apply Calm_log with [(o, SetSnapshot (getSnapshot st)); (o, SetIsLoading true)];
      [done..|]. by repeat constructor.
  - apply Calm_log with [(o, SetIsLoading true)]; [done..|]. by repeat constructor.
Qed.

Lemma Calm_optional b o a st : builds (o, a) = false → Calm st (optional b o a st).
Proof. intros. destruct b; [by apply Calm_say|apply Calm_refl]. Qed.

Lemma standalone_tasks tid st st' :
  tasks st' = tasks st → standalone tid st → standalone tid st'.
Proof. unfold standalone. by intros ->. Qed.

Lemma Calm_afterStop tid st : standalone tid st → Calm st (afterStop tid st).
Proof.
  intros (t & Ht & Hc & Hk). unfold afterStop. rewrite Ht. simpl.
  destruct (call t) eqn:E; try (apply Calm_park; [by left|done]).
  by destruct (Hk retryCount maxRetry).
Qed.

Lemma Calm_park_teardown tid c st :
  standalone tid st → rank c ≤ 3 → Calm st (park tid c st).
Proof.
  intros (t & Ht & Hc & Hk) Hr. apply Calm_on_task. intros t0 Ht0 _.
  assert (t0 = t) as -> by congruence. right. by split.
Qed.

Lemma Calm_stopVideoWithSnapshot tid st :
  standalone tid st → Calm st (stopVideoWithSnapshot tid st).
Proof.
  intros Ha. unfold stopVideoWithSnapshot.
  set (st1 := freezeWithSnapshot (Some tid) st).
  assert (Calm st st1) as C1 by apply Calm_freeze.
  assert (standalone tid st1) as A1.
  { eapply standalone_tasks; [|exact Ha]. apply tasks_freeze. }
  destruct (bool_decide (player st1 = None) || negb (isPlaying st1)).
  - eapply Calm_trans; [exact C1|]. by apply Calm_afterStop.
  - eapply Calm_trans; [exact C1|]. calm; [by apply Calm_say|].
    apply Calm_park_teardown; [|simpl; lia].
    by eapply standalone_tasks; [|exact A1].
Qed.

Lemma Calm_spawned c r st (f : nat → Hook → Hook) :
  (∀ retryCount maxRetry, c ≠ DoDestroyAndPlay retryCount maxRetry) →
  (∀ st', standalone (length (tasks st)) st' → Calm st' (f (length (tasks st)) st')) →
  Calm st (let '(tid, st') := spawn c r st in f tid st').
Proof.
  intros Hc Hf. unfold spawn. simpl.
  set (st1 := with_tasks _ st).
  assert (Calm st st1) as C1.
  { intros [R T]. split.
    - split; [done|]. simpl. intros i t Ht.
      apply lookup_app_Some in Ht as [Ht|[Hi Ht]]; [by eapply T|].
      destruct (i - length (tasks st)) as [|n]; simpl in Ht; [|done].
      injection Ht as <-. right. split; [simpl; lia|done].
    - exists []. split; [done|constructor]. }
  eapply Calm_trans; [exact C1|]. apply Hf.
  eexists. split; [|split].
  - unfold st1. simpl. rewrite lookup_app_r by done. by rewrite Nat.sub_diag.
  - done.
  - done.
Qed.

Lemma Calm_standaloneStop r st :
  Calm st (let '(tid, st') := spawn StopVideoWithSnapshot r st in
           stopVideoWithSnapshot tid st').
Proof.
  apply (Calm_spawned StopVideoWithSnapshot r st stopVideoWithSnapshot); [done|].
  intros st' Ha. by apply Calm_stopVideoWithSnapshot.
Qed.

Lemma Calm_clear r st : Calm st (clear r st).
Proof.
  unfold clear. destruct (player st); [|apply Calm_refl].
  apply (Calm_spawned Clear r st
           (λ tid st', park tid (AwaitStop n)
              (on_player n player_stopCalled (say (Some tid) (Stop n) st'))));
    [done|].
  intros st' Ha. calm; [|apply Calm_park_teardown; [|simpl; lia]].
  - calm; [by apply Calm_say|by apply Calm_frame].
  - by eapply standalone_tasks; [|exact Ha].
Qed.

Lemma Calm_regQuality o r h st : Calm st (regQualityModeCallback o r h st).
Proof.
  apply Calm_log with [(o, ConfigQualityMode h (streamQuality r) (length QUALITIES))];
    [done..|]. by repeat constructor.
Qed.

Lemma Calm_register o r h st : Calm st (registerPlayerCallbacks o r h st).
Proof.
  unfold registerPlayerCallbacks.
  destruct (doDestroyAndPlayRef st); simpl;
    destruct (settingQuality (cur st)); simpl.
  - calm; [by apply Calm_frame|apply Calm_regQuality].
  - by apply Calm_frame.
  - apply Calm_regQuality.
  - apply Calm_refl.
Qed.

Lemma Calm_effect_visibility cfg prev r st :
  Calm st (effect_visibility cfg prev r st).
Proof.
  unfold effect_visibility.
  destruct (changed _ prev r); [|apply Calm_refl].
  destruct (isVisible r && negb (NetworkConditions r) && isInit r);
    [apply Calm_restart|apply Calm_standaloneStop].
Qed.

Lemma Calm_commit cfg st : Calm st (commit cfg st).
Proof.
  unfold commit.
  calm; [|unfold effect_rotation; repeat case_match;
           [apply Calm_refl|apply Calm_restart|apply Calm_refl]].
  calm; [|unfold effect_init; repeat case_match; try apply Calm_refl;
          calm; [|by apply Calm_frame];
          apply Calm_log with [(None, SetIsInit true)]; [done..|];
          by repeat constructor].
  calm; [|unfold effect_streamQuality; case_match;
           [apply Calm_restart|apply Calm_refl]].
  calm; [|unfold effect_quality; repeat case_match; try apply Calm_refl;
          [apply Calm_regQuality|
           apply Calm_log with [(None, SetStreamQuality q)]; [done..|];
           by repeat constructor]].
  calm; [|apply Calm_effect_visibility].
  calm; [|by apply Calm_frame].
  calm; [|unfold effect_stateRefs; case_match; [by apply Calm_frame|apply Calm_refl]].
  calm; [|unfold cleanup_init; case_match; [|apply Calm_refl];
          calm; [by apply Calm_frame|apply Calm_clear]].
  by apply Calm_frame.
Qed.

Lemma stuck_standalone st tid t :
  stuck st → tasks st !! tid = Some t → ctl t ≠ Returned →
  rank (ctl t) ≤ 3 ∧ standalone tid st.
Proof.
  intros [_ T] Ht Hc. destruct (T _ _ Ht) as [?|[Hr Hk]]; [done|].
  split; [done|]. by exists t.
Qed.

Lemma Calm_stopNow cfg tid st : standalone tid st → Calm st (stopNow cfg tid st).
Proof.
  intros Ha. unfold stopNow. destruct (player st).
  - calm; [|apply Calm_park_teardown; [|simpl; lia]].
    + calm; [by apply Calm_say|by apply Calm_frame].
    + by eapply standalone_tasks; [|exact Ha].
  - calm; [|apply Calm_afterStop].
    + calm; [|by apply Calm_frame]. by apply Calm_optional.
    + eapply standalone_tasks; [|exact Ha]. simpl. apply tasks_optional.
Qed.

Lemma Calm_stopSettled tid h res st :
  standalone tid st → Calm st (stopSettled tid h res st).
Proof.
  intros Ha. unfold stopSettled. destruct res.
  - calm; [|apply Calm_park_teardown; [|simpl; lia]].
    + calm; [by apply Calm_say|by apply Calm_frame].
    + by eapply standalone_tasks; [|exact Ha].
  - calm; [by apply Calm_frame|]. apply Calm_afterStop.
    by eapply standalone_tasks; [|exact Ha].
Qed.

Lemma Calm_destroySettled cfg tid res st :
  standalone tid st → Calm st (destroySettled cfg tid res st).
Proof.
  intros Ha. unfold destroySettled.
  assert (Calm st (afterStop tid (with_player None st))) as E1.
  { calm; [by apply Calm_frame|]. apply Calm_afterStop.
    by eapply standalone_tasks; [|exact Ha]. }
  assert (Calm st (afterStop tid (with_player None
             (optional (onStop cfg) (Some tid) CallOnStop st)))) as E2.
  { calm; [|apply Calm_afterStop].
    - calm; [|by apply Calm_frame]. by apply Calm_optional.
    - eapply standalone_tasks; [|exact Ha]. simpl. apply tasks_optional. }
  destruct res; [|done].
  destruct (call <$> tasks st !! tid) as [[]|]; done.
Qed.

Lemma Calm_wake cfg tid st : Calm st (wake cfg tid st).
Proof.
  intros Hs. unfold wake.
  destruct (tasks st !! tid) as [t|] eqn:E; [|by apply Calm_refl].
  destruct (ctl t) eqn:C; try (by apply Calm_refl).
  - destruct (stuck_standalone st tid t Hs E) as [_ Ha]; [by rewrite C|].
    by apply Calm_stopNow.
  - destruct (stuck_standalone st tid t Hs E) as [Hr _]; [by rewrite C|].
    rewrite C in Hr. simpl in Hr. lia.
  - destruct (stuck_standalone st tid t Hs E) as [Hr _]; [by rewrite C|].
    rewrite C in Hr. simpl in Hr. lia.
Qed.

Lemma Calm_settle cfg tid res st : Calm st (settle cfg tid res st).
Proof.
  intros Hs. unfold settle.
  destruct (tasks st !! tid) as [t|] eqn:E; simpl; [|by apply Calm_refl].
  destruct (ctl t) eqn:C; try (by apply Calm_refl).
  - destruct (stuck_standalone st tid t Hs E) as [_ Ha]; [by rewrite C|].
    by apply Calm_stopSettled.
  - destruct (stuck_standalone st tid t Hs E) as [_ Ha]; [by rewrite C|].
    by apply Calm_destroySettled.
  - destruct (stuck_standalone st tid t Hs E) as [Hr _]; [by rewrite C|].
    rewrite C in Hr. simpl in Hr. lia.
Qed.

Lemma Calm_reject cfg tid e st : Calm st (reject cfg tid e st).
Proof.
  intros Hs. unfold reject.
  destruct (tasks st !! tid) as [t|] eqn:E; simpl; [|by apply Calm_refl].
  destruct (ctl t) eqn:C; try (by apply Calm_refl).
  destruct (stuck_standalone st tid t Hs E) as [Hr _]; [by rewrite C|].
  rewrite C in Hr. simpl in Hr. lia.
Qed.

Lemma Calm_resolve cfg tid st : Calm st (resolve cfg tid st).
Proof.
  intros Hs. unfold resolve.
  destruct (tasks st !! tid) as [t|] eqn:E; simpl; [|by apply Calm_refl].
  destruct (ctl t) eqn:C; try (by apply Calm_refl).
  destruct (stuck_standalone st tid t Hs E) as [Hr _]; [by rewrite C|].
  rewrite C in Hr. simpl in Hr. lia.
Qed.

Lemma Calm_attempt_onError cfg tid e st : Calm st (attempt_onError cfg tid e st).
Proof. unfold attempt_onError. calm; [apply Calm_timer|apply Calm_reject]. Qed.

Lemma Calm_timedOut cfg tid st : Calm st (timedOut cfg tid st).
Proof.
  unfold timedOut. destruct (timer <$> tasks st !! tid) as [[]|];
    try apply Calm_refl.
  calm; [apply Calm_timer|apply Calm_reject].
Qed.

Lemma Calm_loadSettled cfg tid res st : Calm st (loadSettled cfg tid res st).
Proof.
  unfold loadSettled. destruct (chain <$> tasks st !! tid) as [[]|];
    try apply Calm_refl.
  destruct res.
  - calm; [by apply Calm_say|apply Calm_chain].
  - calm; [apply Calm_chain|apply Calm_attempt_onError].
Qed.

Lemma Calm_playSettled cfg tid res st : Calm st (playSettled cfg tid res st).
Proof.
  unfold playSettled. destruct (chain <$> tasks st !! tid) as [[]|];
    try apply Calm_refl.
  destruct res; [apply Calm_chain|].
  calm; [apply Calm_chain|apply Calm_attempt_onError].
Qed.

Lemma Calm_attempt_onFirstFrame cfg tid h st :
  Calm st (attempt_onFirstFrame cfg tid h st).
Proof.
  unfold attempt_onFirstFrame.
  destruct (closure <$> tasks st !! tid) as [r|]; [|apply Calm_refl].
  calm; [|apply Calm_resolve].
  calm; [|apply Calm_register].
  calm; [|apply Calm_timer].
  by apply Calm_say.
Qed.

Lemma Calm_qualityChanged r ev st : Calm st (qualityChanged r ev st).
Proof.
  unfold qualityChanged. destruct (settingQuality r); [|apply Calm_refl].
  destruct (isPlaying st); [|apply Calm_refl].
  set (q := match to ev with Some q => q | None => streamQuality r end).
  apply Calm_log with [(None, SetStreamQuality q)]; [done..|].
  by repeat constructor.
Qed.

Lemma Calm_dispatch cfg h e l st : Calm st (dispatch cfg h e l st).
Proof.
  unfold dispatch. destruct l, e; try apply Calm_refl.
  - apply Calm_attempt_onFirstFrame.
  - apply Calm_attempt_onError.
  - calm; [apply Calm_freeze|apply Calm_restart].
  - calm; [apply Calm_freeze|apply Calm_restart].
  - calm; [apply Calm_freeze|apply Calm_restart].
  - apply Calm_qualityChanged.
Qed.

Lemma Calm_emit cfg h e st : Calm st (emit cfg h e st).
Proof.
  unfold emit. destruct (players st !! h) as [p|]; [|apply Calm_refl].
  generalize (listeners p). intros ls.
  assert (∀ st', Calm st st' →
            Calm st (foldl (λ st0 '(ty, l),
                 if PlayerEventType.eqb ty (eventType e)
                 then dispatch cfg h e l st0 else st0) st' ls)) as H.
  { induction ls as [|[ty l] ls IH]; intros st' Hst'; simpl; [done|].
    apply IH. destruct (PlayerEventType.eqb ty (eventType e)); [|done].
    eapply Calm_trans; [exact Hst'|apply Calm_dispatch]. }
  apply H, Calm_refl.
Qed.

Lemma Calm_step cfg e st : Calm st (step cfg e st).
Proof.
  destruct e; simpl; try (by apply Calm_frame).
  - apply Calm_commit.
  - apply Calm_emit.
  - apply Calm_wake.
  - apply Calm_timedOut.
  - apply Calm_settle.
  - apply Calm_loadSettled.
  - apply Calm_playSettled.
  - destruct (rendered st); [apply Calm_doDestroyAndPlay|apply Calm_refl].
  - destruct (rendered st); [apply Calm_standaloneStop|apply Calm_refl].
Qed.

Lemma Calm_run cfg es st : Calm st (run cfg es st).
Proof.
  revert st. induction es as [|e es IH]; intros st; simpl; [apply Calm_refl|].
  eapply Calm_trans; [apply Calm_step|apply IH].
Qed.

Lemma constructed_app st st' chunk :
  log st' = chunk ++ log st → Forall (λ x, builds x = false) chunk →
  constructed st' = constructed st.
Proof.
  intros L F. unfold constructed, trace. rewrite L, rev_app_distr, omap_app.
  assert (omap (λ x, match x.2 with Construct h => Some h | _ => None end)
               (rev chunk) = []) as ->; [|by rewrite app_nil_r].
  apply Forall_rev in F. induction F as [|[o a] l Hx _ IH]; [done|].
  simpl. unfold builds in Hx. simpl in Hx. destruct a; try done.
Qed.

(** Once the retries are exhausted the hook is stuck for good: whatever
    the environment does next, the running flag stays set and no player is
    ever built again. *)
Lemma stuck_forever cfg es st :
  stuck st →
  isDoDestroyAndPlayRunning (run cfg es st) = true
  ∧ constructed (run cfg es st) = constructed st.
Proof.
  intros Hs. destruct (Calm_run cfg es st Hs) as ([R _] & chunk & L & F).
  split; [done|]. by eapply constructed_app.
Qed.

(** * The claims *)

(** ** C1: one live handle at a time *)

(** C1 (fails on the code).  The first attempt times out while handle 0 is
    still LOADING; the retry calls [stopVideoWithSnapshot], which returns
    without stopping anything because the player is not playing, and [play]
    then builds handle 1.  Both handles are live: handle 0 was neither
    stopped nor destroyed and still carries its listeners. *)
Theorem C1_retry_builds_second_live_handle :
  let st := run (scenario (Finite 2))
                (boot ++ [StatusIs 0 PlayerStatus.LOADING; TimerFires 1;
                          Wakes 1; Wakes 2]) mounted in
  constructed st = [0; 1] ∧ live st = [0; 1] ∧ player st = Some 1
  ∧ calls (Stop 0) st = 0 ∧ calls (Destroy 0) st = 0
  ∧ listeners <$> players st !! 0
    = Some [(PlayerEventType.FIRST_VIDEO_RENDERED, L_onFirstFrame 1);
            (PlayerEventType.ERROR, L_onError 1)].
Proof. vm_compute. repeat split. Qed.

(** ** C2: the skip condition *)

(** C2 (fails on the code).  Maintenance is set before the hook mounts and
    is mirrored in [stateRefs]; the commit that sees [isInit] runs the
    stream-rotation effect, whose re-evaluation is not skipped: it builds
    handle 0, and only [loadAndPlayVideo] then throws the
    network-conditions error, after which a retry is scheduled. *)
Theorem C2_maintenance_builds_player :
  let st := run (scenario (Finite 2)) (Maintenance true :: boot) mounted in
  ref_isMaintenance (stateRefs st) = true
  ∧ constructed st = [0]
  ∧ calls (CallOnError NetworkConditionsError) st = 1
  ∧ ctl <$> tasks st !! 2 = Some AwaitRetryDelay.
Proof. vm_compute. repeat split. Qed.

(** ** C3: exhausted retries *)

(** C3 (fails on the code).  With [maxRetries = 0] the first failure marks
    the stream unavailable and stops retrying, but it returns with the
    running flag still set.  From then on, whatever the environment does
    (visibility lost and regained, a new stream source, a new quality,
    player events), every re-evaluation is skipped: the running flag stays
    set and handle 0 remains the only player ever built. *)
Theorem C3_halted_never_restarts es :
  let halted := run (scenario (Finite 0)) (boot ++ [TimerFires 1]) mounted in
  let st := run (scenario (Finite 0)) es halted in
  isCanStream halted = Some false
  ∧ ctl <$> tasks halted !! 1 = Some Returned
  ∧ isDoDestroyAndPlayRunning st = true
  ∧ constructed st = [0].
Proof.
  intros halted st.
  split; [vm_compute; reflexivity|]. split; [vm_compute; reflexivity|].
  assert (stuck halted) as Hs.
  { split; [vm_compute; reflexivity|].
    assert (Forall (λ t, ctl t = Returned) (tasks halted)) as F
      by (vm_compute; repeat constructor).
    intros i t Ht. left. by eapply (proj1 (Forall_lookup _ _) F). }
  destruct (stuck_forever (scenario (Finite 0)) es halted Hs) as [R C].
  split; [exact R|]. fold st in C. rewrite C. vm_compute. reflexivity.
Qed.

(** For instance: visibility is lost and regained, then the stream source
    changes; three commits re-evaluate and none starts a call. *)
Example halted_ignores_visibility_and_source :
  let halted := run (scenario (Finite 0)) (boot ++ [TimerFires 1]) mounted in
  let st := run (scenario (Finite 0))
                [Visible false; Commit; Visible true; Commit;
                 StreamsAre streamsAC; Commit] halted in
  constructed st = [0]
  ∧ call <$> tasks st = [StopVideoWithSnapshot; DoDestroyAndPlay 0 (Finite 0);
                          StopVideoWithSnapshot].
Proof. vm_compute. repeat split. Qed.

(** ** C4: onPlay once per success *)

(** C4 (fails on the code).  One successful attempt calls [onPlay] twice:
    [play] calls it after [resumeAndSetVolume], and [doDestroyAndPlay]
    calls it again after clearing the snapshot. *)
Theorem C4_onPlay_called_twice :
  let st := run (scenario (Finite 2)) (boot ++ firstFrame) mounted in
  count 1 CallOnPlay (log st) = 2 ∧ calls CallOnPlay st = 2
  ∧ constructed st = [0]
  ∧ count 1 (FirstFrameRendered 0) (log st) = 1.
Proof. vm_compute. repeat split. Qed.

(** ** C5: first frame, then onPlay; one clear per success *)


(** ** C6: capturing twice *)




(** ** C7: the retry count *)

(** C7 as stated fails.  The first attempt fails with a player error and
    the call waits for the retry delay.  During the wait the stream source
    changes; the re-evaluation of that commit is skipped because the
    running flag is set.  When the delay is over the retry runs on the new
    source ("C" instead of "B") with retry count 1, not 0: no call with
    retry count 0 was started for the new source. *)
Lemma C7_source_change_during_wait_keeps_count :
  let waiting := run (scenario (Finite 2))
                     (boot ++ [Emits 0 (Failed "boom")]) mounted in
  let st := run (scenario (Finite 2))
                [StreamsAre streamsAC; Commit; Wakes 1; Wakes 2] waiting in
  ctl <$> tasks waiting !! 1 = Some AwaitRetryDelay
  ∧ call <$> tasks st
    = [StopVideoWithSnapshot; DoDestroyAndPlay 0 (Finite 2);
       DoDestroyAndPlay 1 (Finite 2)]
  ∧ (streams ∘ closure) <$> tasks st !! 2 = Some streamsAC
  ∧ calls (Load 1 "C") st = 1.
Proof. vm_compute. repeat split. Qed.

(** C7, amended.  Take a [doDestroyAndPlay] call with retry count
    [retryCount] below its maximum whose attempt fails.  It logs the wait
    of the fixed retry delay and parks there.  Whatever happens during the
    wait, when the delay is over the call clears the running flag and
    calls [doDestroyAndPlay] through the ref with [retryCount + 1]; that
    call evaluates [shouldSkipPlay] on the state of that moment: if it
    holds nothing is attempted, otherwise the new call carries
    [retryCount + 1].  After a success nothing is pending for the call.
    A re-evaluation made by a trigger (the ref called with no arguments,
    as the stream-quality and stream-rotation effects do) starts from 0,
    unless it is skipped: while the running flag is set it is a no-op and
    the pending retry keeps its count. *)
Theorem C7_retry_adds_one_and_rechecks_eligibility
    cfg st tid t retryCount maxRetry e es r :
  tasks st !! tid = Some t →
  call t = DoDestroyAndPlay retryCount maxRetry →
  exhausted retryCount maxRetry = false →
  let waiting := playFailed cfg tid e st in
  let later := run cfg es waiting in
  let done := succeeded cfg tid st in
  (ctl <$> tasks waiting !! tid = Some AwaitRetryDelay
   ∧ head (log waiting)
     = Some (Some tid, Sleep (retryDelay (playbackSettings cfg))))
  ∧ (ctl <$> tasks later !! tid = Some AwaitRetryDelay →
     doDestroyAndPlayRef later = Some r →
     let idle := park tid Returned (with_running false later) in
     wake cfg tid later
     = doDestroyAndPlay cfg r (retryCount + 1) maxRetry idle
     ∧ (shouldSkipPlay r idle = true → wake cfg tid later = idle)
     ∧ (shouldSkipPlay r idle = false →
        call <$> tasks (wake cfg tid later) !! length (tasks later)
        = Some (DoDestroyAndPlay (retryCount + 1) maxRetry)))
  ∧ (ctl <$> tasks done !! tid = Some Returned
     ∧ isDoDestroyAndPlayRunning done = false
     ∧ wake cfg tid done = done)
  ∧ (∀ st0 r0, doDestroyAndPlayRef st0 = Some r0 →
       restart cfg st0
       = doDestroyAndPlay cfg r0 0 (maxRetries (playbackSettings cfg)) st0
       ∧ (isDoDestroyAndPlayRunning st0 = true → restart cfg st0 = st0)).
Proof.
  intros Ht Hk Hx waiting later done.
  assert (tasks waiting !! tid = Some (task_ctl AwaitRetryDelay t)) as Hw.
  { unfold waiting. rewrite (playFailed_waits _ _ _ _ _ _ _ Ht Hk Hx).
    rewrite lookup_park. simpl. by rewrite tasks_optional, Ht. }
  split; [split|split; [|split]].
  - by rewrite Hw.
  - unfold waiting. by rewrite (playFailed_waits _ _ _ _ _ _ _ Ht Hk Hx).
  - intros Hc Hr idle.
    pose proof (call_stable cfg es waiting tid _ Hw) as Hcall.
    fold later in Hcall. simpl in Hcall. rewrite Hk in Hcall.
    destruct (tasks later !! tid) as [t2|] eqn:Ht2; [|done].
    simpl in Hc, Hcall. injection Hc as Hc. injection Hcall as Hcall.
    assert (wake cfg tid later
            = doDestroyAndPlay cfg r (retryCount + 1) maxRetry idle) as Hwake.
    { unfold wake. rewrite Ht2, Hc, Hcall. fold idle.
      assert (doDestroyAndPlayRef idle = Some r) as -> by done. done. }
    split; [done|]. split.
    + intros Hs. rewrite Hwake. by apply doDestroyAndPlay_skip.
    + intros Hs. rewrite Hwake.
      assert (length (tasks later) = length (tasks idle)) as ->.
      { unfold idle. simpl. by rewrite update_length. }
      by apply doDestroyAndPlay_spawns.
  - assert (tasks done !! tid = Some (task_ctl Returned t)) as Hd.
    { unfold done, succeeded. rewrite lookup_park.
      repeat (simpl; rewrite ?tasks_optional). by rewrite Ht. }
    split; [by rewrite Hd|]. split; [done|].
    unfold wake. by rewrite Hd.
  - intros st0 r0 H0. unfold restart. rewrite H0. split; [done|].
    intros Hrun. by apply doDestroyAndPlay_running.
Qed.

(** The first attempt of the scenario fails with a player error; handle 0
    is then reported stopped and, after the delay, the retry runs. *)
Lemma C7_retry_adds_one_and_rechecks_eligibility_witness :
  let st := run (scenario (Finite 2)) boot mounted in
  let waiting := playFailed (scenario (Finite 2)) 1 (PlayerFault "boom") st in
  let later := run (scenario (Finite 2)) [StatusIs 0 PlayerStatus.STOPPED] waiting in
  call <$> tasks st !! 1 = Some (DoDestroyAndPlay 0 (Finite 2))
  ∧ exhausted 0 (Finite 2) = false
  ∧ ctl <$> tasks waiting !! 1 = Some AwaitRetryDelay
  ∧ call <$> tasks (wake (scenario (Finite 2)) 1 later) !! length (tasks later)
    = Some (DoDestroyAndPlay (0 + 1) (Finite 2)).
Proof.
  intros st waiting later.
  split; [vm_compute; reflexivity|]. split; [reflexivity|].
  destruct (tasks st !! 1) as [t|] eqn:Ht; [|vm_compute in Ht; discriminate].
  assert (call t = DoDestroyAndPlay 0 (Finite 2)) as Hk
    by (vm_compute in Ht; injection Ht as <-; reflexivity).
  destruct (doDestroyAndPlayRef later) as [r|] eqn:Hr;
    [|vm_compute in Hr; discriminate].
  destruct (C7_retry_adds_one_and_rechecks_eligibility
              (scenario (Finite 2)) st 1 t 0 (Finite 2) (PlayerFault "boom")
              [StatusIs 0 PlayerStatus.STOPPED] r Ht Hk eq_refl)
    as ((H1 & _) & H2 & _).
  split; [exact H1|].
  destruct (H2 ltac:(vm_compute; reflexivity) Hr) as (_ & _ & H3).
  apply H3.
  assert (r = cur st) as -> by (vm_compute in Hr; injection Hr as <-; vm_compute; reflexivity).
  vm_compute. reflexivity.
Defined.

(** ** C8: the timeout and late events *)

(** C8 as stated fails.  Attempt 1 was rejected by its timeout and attempt
    2 is playing on handle 1.  A [stopped] event of the abandoned handle 0
    changes nothing; but once the late first-frame event of handle 0 has
    run attempt 1's listener, which attaches the restart listeners to
    handle 0, the same [stopped] event starts a new [doDestroyAndPlay]
    (call 3) that stops handle 1, the player of the later attempt. *)
Lemma C8_late_first_frame_reaches_later_attempt :
  let base := run (scenario (Finite 2)) secondSteady mounted in
  let late := run (scenario (Finite 2))
                  [Emits 0 FirstVideoRendered; Emits 0 Stopped; Wakes 3] base in
  count 1 (CallOnError FirstFrameTimeout) (log base) = 1
  ∧ ctl <$> tasks base !! 2 = Some Returned
  ∧ player base = Some 1
  ∧ run (scenario (Finite 2)) [Emits 0 Stopped] base = base
  ∧ call <$> tasks late !! 3 = Some (DoDestroyAndPlay 0 (Finite 2))
  ∧ calls (Stop 1) late = 1.
Proof. vm_compute. repeat split. Qed.

(** C8, amended.  When the first-frame timer of an attempt fires while the
    race is undecided, the race rejects with the timeout error: [onError]
    receives "First frame timeout" and the call moves on to the retry
    delay, or returns when the retries are exhausted.  At any later moment
    an error event reaching that attempt's listener changes nothing, and a
    first-frame event reaching it changes no call, no ref and no React
    state: it cannot settle this or any other attempt.  (It still attaches
    listeners to the timed-out handle, which is why the claim as stated
    fails.) *)
Theorem C8_timeout_rejects_and_late_events_settle_nothing
    cfg st tid t h retryCount maxRetry es :
  tasks st !! tid = Some t →
  call t = DoDestroyAndPlay retryCount maxRetry →
  ctl t = AwaitRace h → timer t = true →
  let rejected := timedOut cfg tid st in
  let later := run cfg es rejected in
  (onError cfg = true →
     (Some tid, CallOnError FirstFrameTimeout) ∈ log rejected)
  ∧ ctl <$> tasks rejected !! tid
    = Some (if exhausted retryCount maxRetry then Returned else AwaitRetryDelay)
  ∧ (∀ payload, attempt_onError cfg tid (PlayerFault payload) later = later)
  ∧ (∀ h', let st' := attempt_onFirstFrame cfg tid h' later in
       tasks st' = tasks later ∧ player st' = player later
       ∧ isDoDestroyAndPlayRunning st' = isDoDestroyAndPlayRunning later
       ∧ cur st' = cur later ∧ stateRefs st' = stateRefs later
       ∧ isCanStream st' = isCanStream later
       ∧ doDestroyAndPlayRef st' = doDestroyAndPlayRef later).
Proof.
  intros Ht Hk Hc Hm rejected later.
  assert (rejected = retryOrHalt cfg tid retryCount maxRetry
      (optional (onError cfg) (Some tid) (CallOnError FirstFrameTimeout)
         (on_task tid (task_timer false) st))) as Hr
    by (by eapply timedOut_rejects).
  set (mid := optional _ _ _ _) in Hr.
  assert (tasks mid !! tid = Some (task_timer false t)) as Hmid.
  { unfold mid. rewrite tasks_optional. simpl. by rewrite update_lookup, Ht. }
  pose proof (retryOrHalt_parks cfg tid retryCount maxRetry mid _ Hmid) as Hp.
  rewrite <- Hr in Hp.
  split; [|split].
  - intros Ho. rewrite Hr. apply log_retryOrHalt. unfold mid. rewrite Ho.
    simpl. apply elem_of_cons. by left.
  - rewrite Hp. done.
  - destruct (settled_stable cfg es rejected tid _ Hp) as (t' & Ht' & Hn & Hf).
    { simpl. destruct (exhausted retryCount maxRetry); simpl; lia. }
    { done. }
    split.
    + intros payload. by eapply late_error.
    + intros h'. by eapply late_firstFrame.
Qed.

(** The first attempt of the scenario times out; later the retry runs. *)
Lemma C8_timeout_rejects_and_late_events_settle_nothing_witness :
  let st := run (scenario (Finite 2)) boot mounted in
  let rejected := timedOut (scenario (Finite 2)) 1 st in
  let later := run (scenario (Finite 2)) [Wakes 1; Wakes 2] rejected in
  (ctl <$> tasks st !! 1 = Some (AwaitRace 0))
  ∧ (timer <$> tasks st !! 1 = Some true)
  ∧ (Some 1, CallOnError FirstFrameTimeout) ∈ log rejected
  ∧ attempt_onError (scenario (Finite 2)) 1 (PlayerFault "late") later = later.
Proof.
  intros st rejected later.
  split; [vm_compute; reflexivity|]. split; [vm_compute; reflexivity|].
  destruct (tasks st !! 1) as [t|] eqn:Ht; [|vm_compute in Ht; discriminate].
  assert (call t = DoDestroyAndPlay 0 (Finite 2)) as Hk
    by (vm_compute in Ht; injection Ht as <-; reflexivity).
  assert (ctl t = AwaitRace 0) as Hc
    by (vm_compute in Ht; injection Ht as <-; reflexivity).
  assert (timer t = true) as Hm
    by (vm_compute in Ht; injection Ht as <-; reflexivity).
  destruct (C8_timeout_rejects_and_late_events_settle_nothing
              (scenario (Finite 2)) st 1 t 0 0 (Finite 2) [Wakes 1; Wakes 2]
              Ht Hk Hc Hm) as (H1 & _ & H3 & _).
  split; [apply H1; reflexivity|apply H3].
Defined.

(** ** C9: quality-change events *)

(** C9 as stated fails, twice over.  The first attempt plays tier 1 in
    automatic mode.  (1) A quality-change event with target tier 2, for
    which there is no URL, makes 2 the active tier, but the re-evaluation
    of the next commit is skipped: no call starts, no player is built or
    stopped.  (2) After the user selects the manual tier 1 (the active one,
    so nothing restarts), the listener attached in automatic mode is still
    in place and still sees ['AUTO']: an event with target tier 0 moves
    the active tier to 0 under a manual selection. *)
Lemma C9_tier_change_without_attempt_and_under_manual_mode :
  let playing := run (scenario (Finite 2)) (boot ++ firstFrame) mountedAuto in
  let up := run (scenario (Finite 2)) [Emits 0 (toTier 2); Commit] playing in
  let manual := run (scenario (Finite 2))
                    [SettingQuality (Tier 1); Commit; Emits 0 (toTier 0)] playing in
  (streamQuality (cur playing) = 1%Z ∧ isPlaying playing = true
   ∧ streamQuality (cur up) = 2%Z
   ∧ length (tasks up) = length (tasks playing)
   ∧ constructed up = [0] ∧ calls (Stop 0) up = 0)
  ∧ (settingQuality (cur manual) = Tier 1
     ∧ streamQuality (cur manual) = 0%Z).
Proof. vm_compute. repeat split. Qed.

(** C9, amended.  Take a quality-change event handled by a listener whose
    captured mode and tier are the current ones.  Unless automatic mode is
    selected and the player is playing, nothing changes.  Otherwise the
    target tier, when present, becomes the active tier, and an absent
    target leaves the active tier as it is.  When the tier changed, the
    stream-quality effect of the next commit re-evaluates
    [doDestroyAndPlay] with retry count 0; that starts a new call only if
    [shouldSkipPlay] is false, and is a no-op otherwise. *)
Theorem C9_quality_change_updates_tier_and_reevaluates cfg r ev st :
  settingQuality r = settingQuality (cur st) →
  streamQuality r = streamQuality (cur st) →
  let st' := qualityChanged r ev st in
  (match settingQuality (cur st), isPlaying st with
   | AUTO, true =>
       streamQuality (cur st')
       = match to ev with Some q => q | None => streamQuality (cur st) end
   | _, _ => st' = st
   end)
  ∧ (∀ prev next st0 r0,
       streamQuality prev ≠ streamQuality next →
       doDestroyAndPlayRef st0 = Some r0 →
       let st1 := effect_streamQuality cfg (Some prev) next st0 in
       st1 = doDestroyAndPlay cfg r0 0 (maxRetries (playbackSettings cfg)) st0
       ∧ (shouldSkipPlay r0 st0 = true → st1 = st0)
       ∧ (shouldSkipPlay r0 st0 = false →
          call <$> tasks st1 !! length (tasks st0)
          = Some (DoDestroyAndPlay 0 (maxRetries (playbackSettings cfg))))).
Proof.
  intros Hs Hq st'. split.
  - unfold st', qualityChanged. rewrite Hs.
    destruct (settingQuality (cur st)); [|done].
    destruct (isPlaying st); [|done]. simpl. by rewrite Hq.
  - intros prev next st0 r0 Hne Hr st1.
    assert (st1 = doDestroyAndPlay cfg r0 0 (maxRetries (playbackSettings cfg)) st0)
      as E.
    { unfold st1. rewrite effect_streamQuality_restarts by done.
      by apply restart_spec. }
    split; [done|]. rewrite E. split; intros H.
    + by apply doDestroyAndPlay_skip.
    + by apply doDestroyAndPlay_spawns.
Qed.

(** The scenario of the specification: automatic mode, playing tier 1, an
    event with target tier 0 (for which a URL exists). *)
Lemma C9_quality_change_updates_tier_and_reevaluates_witness :
  let playing := run (scenario (Finite 2)) (boot ++ firstFrame) mountedAuto in
  settingQuality (cur playing) = AUTO
  ∧ streamQuality (cur playing) = 1%Z
  ∧ streamQuality (cur (qualityChanged (cur playing)
       (mkQualityEvent false 1 (Some 1%Z) (Some 0%Z) 4 0 None) playing)) = 0%Z.
Proof.
  intros playing.
  split; [vm_compute; reflexivity|]. split; [vm_compute; reflexivity|].
  destruct (C9_quality_change_updates_tier_and_reevaluates
              (scenario (Finite 2)) (cur playing)
              (mkQualityEvent false 1 (Some 1%Z) (Some 0%Z) 4 0 None) playing
              eq_refl eq_refl) as [H _].
  assert (settingQuality (cur playing) = AUTO) as Ha by (vm_compute; reflexivity).
  assert (isPlaying playing = true) as Hp by (vm_compute; reflexivity).
  rewrite Ha, Hp in H. exact H.
Defined.

(** ** C10: the guard of loadAndPlayVideo *)

(** C10.  [loadAndPlayVideo] throws, before it touches the timer, the
    listeners or [load], exactly when one of the four network-health flags
    is set in [stateRefs]; what it throws is the network-conditions error.
    With all four flags clear it does not throw: it sets the timer,
    attaches its two listeners to the handle and issues [load]; what the
    race can reject with later, the timeout error or a fault of the
    player, is never the network-conditions error. *)
Theorem C10_loadAndPlayVideo_network_guard tid h source timeoutMs st :
  match loadAndPlayVideo tid h source timeoutMs st with
  | inr e =>
      e = NetworkConditionsError
      ∧ (ref_isIdleTimeout (stateRefs st) = true
         ∨ ref_isExpired (stateRefs st) = true
         ∨ ref_isMultiSession (stateRefs st) = true
         ∨ ref_isMaintenance (stateRefs st) = true)
  | inl st' =>
      ref_isIdleTimeout (stateRefs st) = false
      ∧ ref_isExpired (stateRefs st) = false
      ∧ ref_isMultiSession (stateRefs st) = false
      ∧ ref_isMaintenance (stateRefs st) = false
      ∧ log st' = (Some tid, Load h source) :: (Some tid, SetTimeout timeoutMs) :: log st
      ∧ listeners <$> players st' !! h
        = (λ p, listeners p ++ [(PlayerEventType.FIRST_VIDEO_RENDERED, L_onFirstFrame tid);
                                (PlayerEventType.ERROR, L_onError tid)])
          <$> players st !! h
  end
  ∧ FirstFrameTimeout ≠ NetworkConditionsError
  ∧ ∀ payload, PlayerFault payload ≠ NetworkConditionsError.
Proof.
  split; [|by split].
  unfold loadAndPlayVideo.
  destruct (networkConditions (stateRefs st)) eqn:E.
  - split; [done|]. by apply networkConditions_flags.
  - assert (¬ (ref_isIdleTimeout (stateRefs st) = true
               ∨ ref_isExpired (stateRefs st) = true
               ∨ ref_isMultiSession (stateRefs st) = true
               ∨ ref_isMaintenance (stateRefs st) = true)) as N.
    { rewrite <- networkConditions_flags. congruence. }
    repeat split; try (apply not_true_is_false; tauto).
    simpl. rewrite !update_lookup.
    destruct (players st !! h); simpl; [|done].
    by rewrite <- app_assoc.
Qed.

(** * Further properties *)

(** ** The invariant of reachable states *)

Lemma inFlight_spec t :
  inFlight t = true ↔ isDoDestroyAndPlay (call t) = true ∧ ctl t ≠ Returned.
Proof.
  unfold inFlight. rewrite andb_true_iff, negb_true_iff, bool_decide_eq_false.
  done.
Qed.

Lemma halted_spec t :
  halted t = true ↔
  ctl t = Returned ∧ ∃ retryCount maxRetry,
    call t = DoDestroyAndPlay retryCount maxRetry
    ∧ exhausted retryCount maxRetry = true.
Proof.
  unfold halted. destruct (call t) as [rc mr| |]; split.
  - rewrite andb_true_iff, bool_decide_eq_true. intros [? ?]. eauto.
  - intros (-> & rc' & mr' & [= <- <-] & ->). by rewrite bool_decide_true.
  - done.
  - by intros (_ & ? & ? & ? & _).
  - done.
  - by intros (_ & ? & ? & ? & _).
Qed.

Lemma rank_Returned c : rank c = 8 ↔ c = Returned.
Proof. destruct c; simpl; split; intros; try done; lia. Qed.

Lemma rank_le c : rank c ≤ 8.
Proof. destruct c; simpl; lia. Qed.

Lemma on_task_lookup tid f st i t' :
  tasks (on_task tid f st) !! i = Some t' →
  (i = tid ∧ ∃ t, tasks st !! tid = Some t ∧ t' = f t)
  ∨ (i ≠ tid ∧ tasks st !! i = Some t').
Proof.
  simpl. destruct (decide (i = tid)) as [->|Hne].
  - rewrite update_lookup. destruct (tasks st !! tid) as [t|]; [|done].
    intros [= <-]. left. eauto.
  - rewrite update_lookup_ne by done. by right.
Qed.

Lemma lookup_snoc {A} (l : list A) (x y : A) i :
  (l ++ [x]) !! i = Some y → l !! i = Some y ∨ (i = length l ∧ y = x).
Proof.
  intros H. apply lookup_app_Some in H as [H|[Hi H]]; [by left|right].
  destruct (i - length l) as [|n] eqn:E; simpl in H; [|done].
  injection H as <-. split; [lia|done].
Qed.

Lemma errors_app tid c l : errors tid (c ++ l) = errors tid c + errors tid l.
Proof. unfold errors. by rewrite List.filter_app, length_app. Qed.

Lemma errors_quiet tid c : forallb quiet c = true → errors tid c = 0.
Proof.
  unfold errors. induction c as [|[o a] c IH]; simpl; [done|].
  rewrite andb_true_iff. intros [Hq Hc].
  destruct o, a; simpl in *; try done; auto.
Qed.

Lemma quiet_builds x : quiet x = true → builds x = false.
Proof. destruct x as [o []]; done. Qed.

Lemma constructed_quiet st st' chunk :
  log st' = chunk ++ log st → forallb quiet chunk = true →
  constructed st' = constructed st.
Proof.
  intros Hl Hq. eapply constructed_app; [exact Hl|].
  apply Forall_forall. intros x Hx. apply quiet_builds.
  rewrite forallb_forall in Hq. apply Hq. by apply list_elem_of_In.
Qed.

Lemma lastSnapshot_quiet chunk l :
  forallb quiet chunk = true → lastSnapshot (chunk ++ l) = lastSnapshot l.
Proof.
  unfold lastSnapshot. induction chunk as [|[o a] c IH]; simpl; [done|].
  rewrite andb_true_iff. intros [Hq Hc]. destruct a; simpl in *; try done; auto.
Qed.

Lemma lastSnapshot_calm chunk l :
  Forall (λ x, ∀ s, x.2 ≠ SetSnapshot s) chunk →
  lastSnapshot (chunk ++ l) = lastSnapshot l.
Proof.
  unfold lastSnapshot. induction 1 as [|[o a] c Hx _ IH]; simpl; [done|].
  destruct a; simpl in *; try done. by destruct (Hx s).
Qed.

Lemma errors_cons tid x l :
  quiet x = true → errors tid (x :: l) = errors tid l.
Proof.
  intros H. change (x :: l) with ([x] ++ l).
  rewrite errors_app, errors_quiet; [done|]. simpl. by rewrite H.
Qed.

(** How a call may move. *)

Lemma moves_same t t' :
  call t' = call t → closure t' = closure t → ctl t' = ctl t →
  (4 ≤ rank (ctl t) ≤ 7 → isDoDestroyAndPlay (call t) = true) →
  (ctl t = AwaitRetryDelay → ∀ retryCount maxRetry,
     call t = DoDestroyAndPlay retryCount maxRetry →
     exhausted retryCount maxRetry = false) →
  moves t t'.
Proof.
  intros E1 E2 E3 Hk Hy. unfold moves, inFlight, halted.
  rewrite E1, E2, E3. repeat split; auto.
Qed.

Lemma moves_park t c :
  c ≠ Returned → rank (ctl t) ≤ rank c →
  (4 ≤ rank c ≤ 7 → isDoDestroyAndPlay (call t) = true) →
  (c = AwaitRetryDelay → ∀ retryCount maxRetry,
     call t = DoDestroyAndPlay retryCount maxRetry →
     exhausted retryCount maxRetry = false) →
  moves t (task_ctl c t).
Proof.
  intros Hc Hr Hk Hy.
  assert (ctl t ≠ Returned) as Hnr.
  { intros E. rewrite E in Hr. simpl in Hr.
    apply Hc, rank_Returned. pose proof (rank_le c). lia. }
  unfold moves. simpl. repeat split; auto.
  - rewrite !inFlight_spec. simpl. intros [? _]. done.
  - rewrite !inFlight_spec. simpl. intros [? _]. left. done.
  - rewrite !halted_spec. intros [? _]. done.
  - lia.
Qed.

Lemma moves_return t :
  isDoDestroyAndPlay (call t) = false → moves t (task_ctl Returned t).
Proof.
  intros Hc. unfold moves. simpl. repeat split; auto.
  - rewrite !inFlight_spec. simpl. intros [_ ?]. done.
  - lia.
  - done.
  - rewrite !inFlight_spec. intros [? _]. congruence.
  - rewrite !halted_spec. simpl. intros (_ & rc & mr & E & _).
    rewrite E in Hc. done.
Qed.

Lemma moves_halt t retryCount maxRetry :
  call t = DoDestroyAndPlay retryCount maxRetry →
  exhausted retryCount maxRetry = true →
  moves t (task_ctl Returned t).
Proof.
  intros Hc Hx. unfold moves. simpl.
  assert (halted (task_ctl Returned t) = true) as Hh.
  { apply halted_spec. split; [done|]. simpl. eauto. }
  repeat split; auto.
  - rewrite !inFlight_spec. simpl. intros [_ ?]. done.
  - lia.
  - done.
Qed.

(** Splitting [x1 :: ... :: xn :: base] into its new entries and [base]. *)
Ltac chunk_of l base :=
  lazymatch l with
  | base => constr:(@nil (option nat * Action))
  | ?x :: ?l' => let c := chunk_of l' base in constr:(x :: c)
  end.

Ltac same :=
  unfold Same; simpl; split_and?; try done; try (by left); try (by right);
  lazymatch goal with
  | |- ∃ c, ?l = c ++ ?base ∧ _ =>
      let c := chunk_of l base in
      exists c; split; [reflexivity|simpl; rewrite ?andb_true_r; done]
  end.

Section Flight.
Variable cfg : UseStreamConfig.
Variable ok : nat → Retries → Prop.
Hypothesis ok_default : ok 0 (maxRetries (playbackSettings cfg)).
Hypothesis ok_retry : ∀ retryCount maxRetry,
  ok retryCount maxRetry → exhausted retryCount maxRetry = false →
  ok (retryCount + 1) maxRetry.

Lemma Wf_frame st st' : Same st st' → Wf ok st → Wf ok st'.
Proof.
  intros (Ht & Hr & Hc & Hs & Hd & Hf & Hl & Hp & Hn & chunk & Hlog & Hq)
         [R O K C Y N L F M P B S E].
  split; rewrite ?Ht, ?Hr, ?Hc, ?Hs, ?Hd, ?Hf, ?Hl; try done.
  - intros h Hh. destruct Hp as [Hp|Hp]; rewrite Hp in Hh; [auto|done].
  - by rewrite (constructed_quiet _ _ _ Hlog Hq).
  - rewrite Hlog, (lastSnapshot_quiet _ _ Hq), Hn. apply S.
  - intros tid. rewrite Hlog, errors_app, (errors_quiet _ _ Hq). apply E.
Qed.

(** The call [tid] moves by [f]; the log grows by entries that are no
    [onError] calls, or by one [onError] call of [tid], whose attempt then
    counts as failed. *)
Lemma Wf_move tid f st st' :
  tasks st' = update tid f (tasks st) →
  isDoDestroyAndPlayRunning st' = isDoDestroyAndPlayRunning st →
  stateRefs st' = stateRefs st ∧ rendered st' = rendered st
  ∧ doDestroyAndPlayRef st' = doDestroyAndPlayRef st
  ∧ length (players st') = length (players st)
  ∧ (player st' = player st ∨ player st' = None)
  ∧ snapshot (cur st') = snapshot (cur st) →
  (isCanStream st' = isCanStream st
   ∨ ∃ t, tasks st !! tid = Some t ∧ halted (f t) = true) →
  (∃ chunk, log st' = chunk ++ log st
     ∧ (forallb quiet chunk = true
        ∨ (errors tid chunk ≤ 1 ∧ (∀ i, i ≠ tid → errors i chunk = 0)
           ∧ Forall (λ x, builds x = false ∧ ∀ s, x.2 ≠ SetSnapshot s) chunk
           ∧ ∃ t, tasks st !! tid = Some t ∧ rank (ctl t) < 7
                  ∧ 7 ≤ rank (ctl (f t))))) →
  (∀ t, tasks st !! tid = Some t → moves t (f t)) →
  Wf ok st → Wf ok st'.
Proof.
  intros HT HR (HS & HD & HF & HL & HP & HN) HC (chunk & Hlog & Hchunk) Hf
         [R O K C Y N L F M P B S E].
  assert (∀ i t', tasks st' !! i = Some t' →
            (i = tid ∧ ∃ t, tasks st !! tid = Some t ∧ t' = f t)
            ∨ (i ≠ tid ∧ tasks st !! i = Some t')) as Hlook.
  { intros i t'. rewrite HT. apply (on_task_lookup tid f st). }
  assert (∀ i t', tasks st' !! i = Some t' →
            ∃ t, tasks st !! i = Some t ∧ call t' = call t
                 ∧ closure t' = closure t
                 ∧ (inFlight t' = true → inFlight t = true)) as Hback.
  { intros i t' Ht'. apply Hlook in Ht' as [(-> & t & Ht & ->)|[_ Ht]].
    - destruct (Hf t Ht) as (? & ? & ? & _). eauto.
    - eauto. }
  assert (∀ i t, tasks st !! i = Some t →
            ∃ t', tasks st' !! i = Some t'
                  ∧ (inFlight t = true → inFlight t' = true ∨ halted t' = true)
                  ∧ (halted t = true → halted t' = true)
                  ∧ (7 ≤ rank (ctl t) → 7 ≤ rank (ctl t'))) as Hforth.
  { intros i t Ht. rewrite HT. destruct (decide (i = tid)) as [->|Hne].
    - exists (f t). rewrite update_lookup, Ht.
      destruct (Hf t Ht) as (_ & _ & _ & _ & _ & ? & ? & ?). done.
    - exists t. rewrite update_lookup_ne by done. auto. }
  split.
  - intros i t' Ht' Hi. destruct (Hback i t' Ht') as (t & Ht & _ & _ & Hb).
    rewrite HR. eapply R; [exact Ht|auto].
  - intros i j ti tj Hi Hj Fi Fj.
    destruct (Hback i ti Hi) as (t1 & H1 & _ & _ & B1).
    destruct (Hback j tj Hj) as (t2 & H2 & _ & _ & B2).
    eapply O; eauto.
  - intros i t' Ht' Hk. apply Hlook in Ht' as [(-> & t & Ht & ->)|[_ Ht]].
    + destruct (Hf t Ht) as (E1 & _ & _ & Hkind & _). rewrite E1. auto.
    + eauto.
  - intros i t' rc mr Ht' Hc. destruct (Hback i t' Ht') as (t & Ht & E1 & E2 & _).
    rewrite E2. eapply C; [exact Ht|congruence].
  - intros i t' rc mr Ht' Hc Hk.
    apply Hlook in Ht' as [(-> & t & Ht & ->)|[_ Ht]].
    + destruct (Hf t Ht) as (E1 & _ & _ & _ & Hretry & _).
      eapply Hretry; [done|congruence].
    + eauto.
  - intros Hcan. destruct HC as [HC|(t & Ht & Hh)].
    + rewrite HC in Hcan. destruct (N Hcan) as (i & t & Ht & Hh).
      destruct (Hforth i t Ht) as (t' & Ht' & _ & Hh' & _). eauto.
    + exists tid, (f t). split; [|done]. by rewrite HT, update_lookup, Ht.
  - rewrite HR. intros Hr. destruct (L Hr) as (i & t & Ht & Hi).
    destruct (Hforth i t Ht) as (t' & Ht' & H1 & H2 & _).
    exists i, t'. split; [done|]. destruct Hi as [Hi|Hi]; auto.
  - by rewrite HF, HD.
  - rewrite HD, HS. done.
  - intros h Hh. rewrite HL. destruct HP as [HP|HP]; rewrite HP in Hh; [auto|done].
  - rewrite HL, <- B. destruct Hchunk as [Hq|(_ & _ & Hb & _)].
    + by eapply constructed_quiet.
    + eapply constructed_app; [exact Hlog|].
      eapply Forall_impl; [exact Hb|]. by intros x [? _].
  - rewrite Hlog, HN. destruct Hchunk as [Hq|(_ & _ & Hb & _)].
    + by rewrite lastSnapshot_quiet.
    + rewrite lastSnapshot_calm; [done|].
      eapply Forall_impl; [exact Hb|]. by intros x [_ ?].
  - intros i. rewrite Hlog, errors_app. destruct (E i) as [E1 E2].
    assert (errors i chunk = 0 →
            errors i chunk + errors i (log st) ≤ 1
            ∧ (0 < errors i chunk + errors i (log st) →
               ∃ t, tasks st' !! i = Some t ∧ 7 ≤ rank (ctl t))) as Hquiet.
    { intros ->. split; [done|]. intros Hpos.
      destruct (E2 Hpos) as (t & Ht & Hr).
      destruct (Hforth i t Ht) as (t' & Ht' & _ & _ & Hr'). eauto. }
    destruct Hchunk as [Hq|(H1 & Hne & _ & t & Ht & Hlt & Hge)].
    + apply Hquiet. by apply errors_quiet.
    + destruct (decide (i = tid)) as [->|Hi]; [|by apply Hquiet, Hne].
      assert (errors tid (log st) = 0) as ->.
      { destruct (errors tid (log st)) eqn:Z; [done|].
        destruct E2 as (t0 & Ht0 & Hr0); [lia|].
        assert (t0 = t) as -> by congruence. lia. }
      split; [lia|]. intros _. exists (f t). split; [|done].
      by rewrite HT, update_lookup, Ht.
Qed.

Lemma Wf_on_task tid f st :
  (∀ t, tasks st !! tid = Some t → moves t (f t)) →
  Wf ok st → Wf ok (on_task tid f st).
Proof.
  intros Hf. apply (Wf_move tid f); auto.
  - repeat split; auto.
  - exists []. split; [done|by left].
Qed.

Lemma Wf_timer tid b st : Wf ok st → Wf ok (on_task tid (task_timer b) st).
Proof.
  intros H. apply Wf_on_task; [|done]. intros t Ht.
  apply moves_same; try done.
  - intros Hk. by eapply wf_kind.
  - intros Hc rc mr Hk. by eapply wf_retry.
Qed.

Lemma Wf_chain tid c st : Wf ok st → Wf ok (on_task tid (task_chain c) st).
Proof.
  intros H. apply Wf_on_task; [|done]. intros t Ht.
  apply moves_same; try done.
  - intros Hk. by eapply wf_kind.
  - intros Hc rc mr Hk. by eapply wf_retry.
Qed.

(** Parking a call that has not returned at a later [await]. *)
Lemma Wf_park tid c st :
  c ≠ Returned →
  (∀ t, tasks st !! tid = Some t →
     rank (ctl t) ≤ rank c
     ∧ (4 ≤ rank c ≤ 7 → isDoDestroyAndPlay (call t) = true)
     ∧ (c = AwaitRetryDelay → ∀ retryCount maxRetry,
          call t = DoDestroyAndPlay retryCount maxRetry →
          exhausted retryCount maxRetry = false)) →
  Wf ok st → Wf ok (park tid c st).
Proof.
  intros Hc Hp. apply Wf_on_task. intros t Ht.
  destruct (Hp t Ht) as (Hr & Hk & Hy). by apply moves_park.
Qed.

(** A call that is no [doDestroyAndPlay] returns. *)
Lemma Wf_return tid st :
  (∀ t, tasks st !! tid = Some t → isDoDestroyAndPlay (call t) = false) →
  Wf ok st → Wf ok (park tid Returned st).
Proof. intros Hp. apply Wf_on_task. intros t Ht. by apply moves_return, Hp. Qed.

Lemma Wf_say o a st : quiet (o, a) = true → Wf ok st → Wf ok (say o a st).
Proof. intros Hq. apply Wf_frame. same. Qed.

Lemma Wf_with_cur r st :
  snapshot r = snapshot (cur st) → Wf ok st → Wf ok (with_cur r st).
Proof. intros Hr. apply Wf_frame. same. Qed.

Lemma Wf_on_player h f st : Wf ok st → Wf ok (on_player h f st).
Proof.
  apply Wf_frame. unfold Same. simpl. rewrite update_length.
  split_and?; try done; [by left|]. exists []. done.
Qed.

Lemma Wf_setSnapshot o s st : Wf ok st → Wf ok (setSnapshot o s st).
Proof.
  intros [R O K C Y N L F M P B S E]. split; try done.
  - simpl. rewrite <- B.
    apply (constructed_app st _ [(o, SetSnapshot s)]); [done|].
    by repeat constructor.
  - simpl. by intros o' s' [= <- <-].
  - intros i. change (log (setSnapshot o s st)) with ([(o, SetSnapshot s)] ++ log st).
    rewrite errors_app. unfold errors at 1 3. simpl. destruct o; apply E.
Qed.

Lemma Wf_release st : Wf ok st → Wf ok (with_player None st).
Proof. apply Wf_frame. same. Qed.

Lemma Wf_optional b o a st :
  quiet (o, a) = true → Wf ok st → Wf ok (optional b o a st).
Proof. intros Hq H. destruct b; [by apply Wf_say|done]. Qed.

Lemma Wf_setIsLoading o b st : Wf ok st → Wf ok (setIsLoading o b st).
Proof. intros H. by apply Wf_say, Wf_with_cur. Qed.

Lemma Wf_setStreamQuality o q st : Wf ok st → Wf ok (setStreamQuality o q st).
Proof. intros H. by apply Wf_say, Wf_with_cur. Qed.

Lemma Wf_setIsInit o b st : Wf ok st → Wf ok (setIsInit o b st).
Proof. intros H. by apply Wf_say, Wf_with_cur. Qed.

Lemma Wf_freeze o st : Wf ok st → Wf ok (freezeWithSnapshot o st).
Proof.
  intros H. unfold freezeWithSnapshot. repeat case_match; try done.
  - by apply Wf_setSnapshot, Wf_setIsLoading.
  - by apply Wf_setIsLoading.
Qed.

Lemma Wf_regQuality o r h st : Wf ok st → Wf ok (regQualityModeCallback o r h st).
Proof. intros H. unfold regQualityModeCallback, listen. by apply Wf_say, Wf_on_player. Qed.

Lemma Wf_register o r h st : Wf ok st → Wf ok (registerPlayerCallbacks o r h st).
Proof.
  intros H. unfold registerPlayerCallbacks, listen.
  destruct (doDestroyAndPlayRef st); simpl;
    destruct (settingQuality (cur st)); simpl; try done.
  - by apply Wf_regQuality, Wf_on_player, Wf_on_player, Wf_on_player.
  - by apply Wf_on_player, Wf_on_player, Wf_on_player.
  - by apply Wf_regQuality.
Qed.

(** [play] builds a player: the ref now names the newest one. *)
Lemma Wf_construct tid st : Wf ok st → Wf ok (construct cfg tid st).2.
Proof.
  intros [R O K C Y N L F M P B S E]. split; try done.
  - simpl. intros h [= <-]. rewrite length_app. simpl. lia.
  - unfold constructed, trace in *. simpl.
    rewrite !omap_app, B, length_app. simpl.
    by rewrite !app_nil_r, Nat.add_1_r, seq_S.
Qed.

Lemma Wf_setIsCanStream o st : Wf ok st → Wf ok (setIsCanStream o true st).
Proof.
  intros [R O K C Y N L F M P B S E]. split; try done.
  - by rewrite (constructed_quiet st _ [(o, SetIsCanStream true)]).
  - intros i. simpl. rewrite errors_cons by done. apply E.
Qed.

Lemma Wf_load tid h source ms st st' :
  loadAndPlayVideo tid h source ms st = inl st' → Wf ok st → Wf ok st'.
Proof.
  unfold loadAndPlayVideo. destruct (networkConditions (stateRefs st)); [done|].
  intros [= <-] H. unfold listen.
  by apply Wf_chain, Wf_say, Wf_on_player, Wf_on_player, Wf_timer, Wf_say.
Qed.

(** The two [catch] blocks, [play]'s and [doDestroyAndPlay]'s, run as one:
    [onError] is called, then the call waits for its retry, or it halts
    and [isCanStream] becomes false. *)
Lemma Wf_fail tid e retryCount maxRetry st :
  (∃ t, tasks st !! tid = Some t ∧ call t = DoDestroyAndPlay retryCount maxRetry
        ∧ rank (ctl t) ≤ 6) →
  Wf ok st →
  Wf ok (retryOrHalt cfg tid retryCount maxRetry
           (optional (onError cfg) (Some tid) (CallOnError e) st)).
Proof.
  intros (t & Ht & Hc & Hr) H.
  assert (errors tid [(Some tid, CallOnError e)] ≤ 1) as E1.
  { unfold errors. simpl. rewrite bool_decide_true by done. done. }
  assert (∀ i, i ≠ tid → errors i [(Some tid, CallOnError e)] = 0) as E2.
  { intros i Hi. unfold errors. simpl. by rewrite bool_decide_false. }
  assert (∀ x, quiet x = true →
            errors tid [x; (Some tid, CallOnError e)] ≤ 1
            ∧ ∀ i, i ≠ tid → errors i [x; (Some tid, CallOnError e)] = 0) as E3.
  { intros x Hx. split; [|intros i Hi]; by rewrite errors_cons; auto. }
  unfold retryOrHalt. destruct (exhausted retryCount maxRetry) eqn:E.
  - assert (halted (task_ctl Returned t) = true) as Hh.
    { apply halted_spec. split; [done|]. exists retryCount, maxRetry. done. }
    apply (Wf_move tid (task_ctl Returned) st); try done.
    + by destruct (onError cfg).
    + by destruct (onError cfg).
    + destruct (onError cfg); simpl; repeat split; auto.
    + eauto.
    + destruct (onError cfg); simpl.
      * exists [(Some tid, SetIsCanStream false); (Some tid, CallOnError e)].
        split; [done|right].
        destruct (E3 (Some tid, SetIsCanStream false) eq_refl) as [? ?].
        split_and?; try done; [by repeat constructor|].
        exists t. split_and?; [done|lia|simpl; lia].
      * exists [(Some tid, SetIsCanStream false)]. split; [done|by left].
    + intros t0 Ht0. assert (t0 = t) as -> by congruence. by eapply moves_halt.
  - apply (Wf_move tid (task_ctl AwaitRetryDelay) st); try done.
    + by destruct (onError cfg).
    + by destruct (onError cfg).
    + destruct (onError cfg); simpl; repeat split; auto.
    + left. by destruct (onError cfg).
    + destruct (onError cfg); simpl.
      * exists [(Some tid, Sleep (retryDelay (playbackSettings cfg)));
                (Some tid, CallOnError e)].
        split; [done|right].
        destruct (E3 (Some tid, Sleep (retryDelay (playbackSettings cfg))) eq_refl)
          as [? ?].
        split_and?; try done; [by repeat constructor|].
        exists t. split_and?; [done|lia|simpl; lia].
      * exists [(Some tid, Sleep (retryDelay (playbackSettings cfg)))].
        split; [done|by left].
    + intros t0 Ht0. assert (t0 = t) as -> by congruence.
      apply moves_park; [done|simpl; lia|by rewrite Hc|].
      intros _ rc mr Hc'. congruence.
Qed.

Lemma Wf_playFailed tid e st :
  attempting tid st → Wf ok st → Wf ok (playFailed cfg tid e st).
Proof.
  intros (t & Ht & Hr & Hk) H. unfold playFailed. rewrite tasks_optional, Ht.
  destruct t as [[rc mr| |] r c m ch]; try done.
  apply Wf_fail; [|done]. eauto.
Qed.

Lemma Wf_play tid r st :
  restarting tid r st → Wf ok st → Wf ok (play cfg tid r st).
Proof.
  intros (t & Ht & Hr & Hk & Hc) H. unfold play.
  assert (truthy (getStreamUrl r) = true) as Hu.
  { destruct (call t) as [rc mr| |] eqn:E; try done.
    destruct (wf_call _ _ H _ _ _ _ Ht E) as [[? _] _]. by subst r. }
  set (st1 := setIsCanStream (Some tid) (truthy (getStreamUrl r)) st).
  assert (Wf ok st1) as W1 by (unfold st1; rewrite Hu; by apply Wf_setIsCanStream).
  assert (tasks st1 !! tid = Some t) as Ht1 by done.
  destruct (negb (truthy (getStreamUrl r)) || negb (videoEl r)).
  { apply Wf_playFailed; [|done]. exists t. split_and?; [done|lia|done]. }
  destruct (construct cfg tid st1) as [h st2] eqn:EC.
  assert (st2 = (construct cfg tid st1).2) as E2 by (by rewrite EC).
  assert (Wf ok st2) as W2 by (rewrite E2; by apply Wf_construct).
  assert (tasks st2 !! tid = Some t) as Ht2 by (by rewrite E2).
  destruct (loadAndPlayVideo tid h (getStreamUrl r) _ st2) as [st3|e] eqn:EL.
  - apply Wf_park; [done| |by eapply Wf_load].
    rewrite (load_tasks _ _ _ _ _ _ EL). intros t0.
    rewrite !update_lookup, Ht2. intros [= <-]. simpl.
    split_and?; [lia|done|done].
  - apply Wf_playFailed; [|done]. exists t. split_and?; [done|lia|done].
Qed.

Lemma Wf_attempt tid r st :
  restarting tid r st → Wf ok st → Wf ok (attempt cfg tid r st).
Proof.
  intros Ha H. unfold attempt. apply Wf_play; [done|]. by apply Wf_setIsLoading.
Qed.

Lemma Wf_afterStop tid st :
  at_most 4 tid st → Wf ok st → Wf ok (afterStop tid st).
Proof.
  intros (t & Ht & Hr) H. unfold afterStop. rewrite Ht. simpl.
  destruct (call t) eqn:E.
  - apply Wf_park; [done| |by apply Wf_say].
    simpl. intros t0 Ht0. assert (t0 = t) as -> by congruence.
    split_and?; [done|by rewrite E|done].
  - apply Wf_return; [|done]. intros t0 Ht0. assert (t0 = t) as -> by congruence.
    by rewrite E.
  - apply Wf_return; [|done]. intros t0 Ht0. assert (t0 = t) as -> by congruence.
    by rewrite E.
Qed.

Lemma Wf_stopVideoWithSnapshot tid st :
  at_most 1 tid st → Wf ok st → Wf ok (stopVideoWithSnapshot tid st).
Proof.
  intros Ha H. unfold stopVideoWithSnapshot.
  set (st1 := freezeWithSnapshot (Some tid) st).
  assert (Wf ok st1) as W1 by (by apply Wf_freeze).
  assert (at_most 1 tid st1) as A1.
  { eapply at_most_tasks; [|exact Ha]. apply tasks_freeze. }
  destruct (bool_decide (player st1 = None) || negb (isPlaying st1)).
  - apply Wf_afterStop; [|done]. eapply at_most_le; [|exact A1]. lia.
  - apply Wf_park; [done| |by apply Wf_say].
    simpl. intros t Ht. destruct A1 as (t1 & Ht1 & Hr1).
    assert (t = t1) as -> by congruence.
    split_and?; [done|simpl; lia|done].
Qed.

Lemma shouldSkipPlay_false r st :
  shouldSkipPlay r st = false ↔
  truthy (getStreamUrl r) = true ∧ isInit r = true
  ∧ isDoDestroyAndPlayRunning st = false
  ∧ ref_isIdleTimeout (stateRefs st) = false
  ∧ ref_isMultiSession (stateRefs st) = false
  ∧ ref_isExpired (stateRefs st) = false
  ∧ ref_isVisible (stateRefs st) = true.
Proof.
  unfold shouldSkipPlay, shouldSkip. simpl.
  destruct (truthy (getStreamUrl r)), (isInit r), (isDoDestroyAndPlayRunning st),
    (ref_isIdleTimeout (stateRefs st)), (ref_isMultiSession (stateRefs st)),
    (ref_isExpired (stateRefs st)), (ref_isVisible (stateRefs st)); simpl;
    intuition congruence.
Qed.

(** An eligible [doDestroyAndPlay] finds no call in flight, starts one and
    sets the running flag. *)
Lemma Wf_begin r retryCount maxRetry st :
  shouldSkipPlay r st = false → ok retryCount maxRetry → Wf ok st →
  Wf ok (with_running true (spawn (DoDestroyAndPlay retryCount maxRetry) r st).2).
Proof.
  intros Hs Hok H. apply shouldSkipPlay_false in Hs as (Hu & Hi & Hr & _).
  assert (∀ i t, tasks st !! i = Some t → inFlight t = false) as Hnone.
  { intros i t Ht. destruct (inFlight t) eqn:E; [|done].
    pose proof (wf_run _ _ H _ _ Ht E). congruence. }
  destruct H as [R O K C Y N L F M P B S E]. split; simpl; try done.
  - intros i j ti tj Hi' Hj' Fi Fj.
    apply lookup_snoc in Hi' as [Hi'|[-> ->]];
      [rewrite (Hnone _ _ Hi') in Fi; done|].
    apply lookup_snoc in Hj' as [Hj'|[-> ->]];
      [rewrite (Hnone _ _ Hj') in Fj; done|done].
  - intros i t Ht Hk. apply lookup_snoc in Ht as [Ht|[-> ->]]; [eauto|].
    simpl in Hk. lia.
  - intros i t rc mr Ht Hc. apply lookup_snoc in Ht as [Ht|[-> ->]]; [eauto|].
    simpl in *. injection Hc as <- <-. done.
  - intros i t rc mr Ht Hc Hk. apply lookup_snoc in Ht as [Ht|[-> ->]]; [eauto|].
    done.
  - intros Hcan. destruct (N Hcan) as (i & t & Ht & Hh).
    exists i, t. split; [|done]. by apply lookup_app_l_Some.
  - intros _. eexists _, _. split.
    + rewrite lookup_app_r by done. by rewrite Nat.sub_diag.
    + by left.
  - intros i. destruct (E i) as [E1 E2]. split; [done|]. intros Hpos.
    destruct (E2 Hpos) as (t & Ht & Hr'). exists t. split; [|done].
    by apply lookup_app_l_Some.
Qed.

Lemma Wf_doDestroyAndPlay r retryCount maxRetry st :
  ok retryCount maxRetry → Wf ok st →
  Wf ok (doDestroyAndPlay cfg r retryCount maxRetry st).
Proof.
  intros Hok H. unfold doDestroyAndPlay.
  destruct (shouldSkipPlay r st) eqn:Hs; [done|].
  pose proof (Wf_begin r retryCount maxRetry st Hs Hok H) as W1.
  unfold spawn in *. simpl in *.
  set (st1 := with_running true _) in *.
  assert (tasks st1 !! length (tasks st)
          = Some (mkTask (DoDestroyAndPlay retryCount maxRetry) r Running false NoChain))
    as Ht.
  { unfold st1. simpl. rewrite lookup_app_r by done. by rewrite Nat.sub_diag. }
  destruct (player st).
  - apply Wf_stopVideoWithSnapshot; [|done]. eexists. split; [exact Ht|simpl; lia].
  - apply Wf_attempt; [|done]. eexists. split; [exact Ht|]. simpl.
    split_and?; [lia|done|done].
Qed.

Lemma Wf_restart st : Wf ok st → Wf ok (restart cfg st).
Proof.
  intros H. unfold restart. destruct (doDestroyAndPlayRef st); [|done].
  by apply Wf_doDestroyAndPlay.
Qed.

(** A stop or a clean-up starts: the new call is never in flight. *)
Lemma Wf_spawn c r st :
  isDoDestroyAndPlay c = false → Wf ok st → Wf ok (spawn c r st).2.
Proof.
  intros Hc [R O K C Y N L F M P B S E]. split; simpl; try done.
  - intros i t Ht Hi. apply lookup_snoc in Ht as [Ht|[-> ->]]; [eauto|].
    apply inFlight_spec in Hi as [Hi _]. simpl in Hi. congruence.
  - intros i j ti tj Hi Hj Fi Fj.
    apply lookup_snoc in Hi as [Hi|[-> ->]];
      [|apply inFlight_spec in Fi as [Fi _]; simpl in Fi; congruence].
    apply lookup_snoc in Hj as [Hj|[-> ->]];
      [|apply inFlight_spec in Fj as [Fj _]; simpl in Fj; congruence].
    eauto.
  - intros i t Ht Hk. apply lookup_snoc in Ht as [Ht|[-> ->]]; [eauto|].
    simpl in Hk. lia.
  - intros i t rc mr Ht Hk. apply lookup_snoc in Ht as [Ht|[-> ->]]; [eauto|].
    simpl in Hk. subst c. done.
  - intros i t rc mr Ht Hk Hk'. apply lookup_snoc in Ht as [Ht|[-> ->]]; [eauto|].
    done.
  - intros Hcan. destruct (N Hcan) as (i & t & Ht & Hh).
    exists i, t. split; [|done]. by apply lookup_app_l_Some.
  - intros Hr. destruct (L Hr) as (i & t & Ht & Hi).
    exists i, t. split; [|done]. by apply lookup_app_l_Some.
  - intros i. destruct (E i) as [E1 E2]. split; [done|]. intros Hpos.
    destruct (E2 Hpos) as (t & Ht & Hr'). exists t. split; [|done].
    by apply lookup_app_l_Some.
Qed.

Lemma Wf_stopNow tid st :
  at_most 2 tid st → Wf ok st → Wf ok (stopNow cfg tid st).
Proof.
  intros (t & Ht & Hr) H. unfold stopNow. destruct (player st).
  - apply Wf_park; [done| |by apply Wf_on_player, Wf_say].
    simpl. intros t0 Ht0. assert (t0 = t) as -> by congruence.
    split_and?; [done|simpl; lia|done].
  - apply Wf_afterStop.
    + exists t. split; [simpl; by rewrite tasks_optional|lia].
    + by apply Wf_release, Wf_optional.
Qed.

Lemma Wf_stopSettled tid h res st :
  at_most 3 tid st → Wf ok st → Wf ok (stopSettled tid h res st).
Proof.
  intros (t & Ht & Hr) H. unfold stopSettled. destruct res.
  - apply Wf_park; [done| |by apply Wf_on_player, Wf_say].
    simpl. intros t0 Ht0. assert (t0 = t) as -> by congruence.
    split_and?; [done|simpl; lia|done].
  - apply Wf_afterStop; [exists t; split; [done|lia]|]. by apply Wf_release.
Qed.

Lemma Wf_destroySettled tid res st :
  at_most 4 tid st → Wf ok st → Wf ok (destroySettled cfg tid res st).
Proof.
  intros (t & Ht & Hr) H. unfold destroySettled.
  assert (Wf ok (afterStop tid (with_player None st))) as E1.
  { apply Wf_afterStop; [by exists t|]. by apply Wf_release. }
  assert (Wf ok (afterStop tid (with_player None
             (optional (onStop cfg) (Some tid) CallOnStop st)))) as E2.
  { apply Wf_afterStop.
    - exists t. split; [simpl; by rewrite tasks_optional|done].
    - by apply Wf_release, Wf_optional. }
  destruct res; [|done].
  destruct (call <$> tasks st !! tid) as [[]|]; done.
Qed.

(** The one call in flight returns and the running flag is cleared. *)
Lemma Wf_finish tid st :
  (∃ t, tasks st !! tid = Some t ∧ inFlight t = true) →
  Wf ok st → Wf ok (park tid Returned (with_running false st)).
Proof.
  intros (t & Ht & Hi) [R O K C Y N L F M P B S E].
  set (st' := park tid Returned (with_running false st)).
  assert (∀ i t', tasks st' !! i = Some t' →
            (i = tid ∧ t' = task_ctl Returned t)
            ∨ (i ≠ tid ∧ tasks st !! i = Some t')) as Hlook.
  { intros i t' Ht'.
    apply (on_task_lookup tid (task_ctl Returned) (with_running false st)) in Ht'
      as [(-> & t0 & Ht0 & ->)|[Hne Ht']]; [left|by right].
    simpl in Ht0. split; [done|congruence]. }
  assert (∀ i t', tasks st' !! i = Some t' → inFlight t' = false) as Hnone.
  { intros i t' Ht'. apply Hlook in Ht' as [[-> ->]|[Hne Ht']].
    - unfold inFlight. simpl. by rewrite andb_false_r.
    - destruct (inFlight t') eqn:E'; [|done].
      by destruct (Hne (O _ _ _ _ Ht' Ht E' Hi)). }
  split; try done.
  - intros i t' Ht' Hi'. rewrite (Hnone _ _ Ht') in Hi'. done.
  - intros i j ti tj Hi' _ Fi. rewrite (Hnone _ _ Hi') in Fi. done.
  - intros i t' Ht' Hk. apply Hlook in Ht' as [[-> ->]|[Hne Ht']]; [|eauto].
    simpl in Hk. lia.
  - intros i t' rc mr Ht' Hc. apply Hlook in Ht' as [[-> ->]|[Hne Ht']].
    + simpl in *. by eapply C.
    + by eapply C.
  - intros i t' rc mr Ht' Hc Hk. apply Hlook in Ht' as [[-> ->]|[Hne Ht']];
      [done|eauto].
  - intros Hcan. destruct (N Hcan) as (i & t0 & Ht0 & Hh).
    exists i, t0. split; [|done]. simpl.
    rewrite update_lookup_ne; [done|]. intros <-.
    assert (t0 = t) as -> by congruence.
    apply inFlight_spec in Hi as [_ Hi]. by apply halted_spec in Hh as [? _].
  - intros i. destruct (E i) as [E1 E2]. split; [done|]. intros Hpos.
    destruct (E2 Hpos) as (t0 & Ht0 & Hr0). simpl.
    destruct (decide (i = tid)) as [->|Hne].
    + exists (task_ctl Returned t). rewrite update_lookup, Ht. simpl.
      split; [done|lia].
    + exists t0. by rewrite update_lookup_ne.
Qed.

Lemma Wf_succeeded tid st :
  (∃ t, tasks st !! tid = Some t ∧ inFlight t = true) →
  Wf ok st → Wf ok (succeeded cfg tid st).
Proof.
  intros Hi H.
  set (st3 := optional (onPlay cfg) (Some tid) CallOnPlay
                (setSnapshot (Some tid) ""
                   (optional (onPlay cfg) (Some tid) CallOnPlay st))).
  assert (Wf ok st3) as W3.
  { by apply Wf_optional, Wf_setSnapshot, Wf_optional. }
  assert (succeeded cfg tid st
          = setIsLoading (Some tid) false (park tid Returned (with_running false st3)))
    as -> by done.
  apply Wf_setIsLoading, Wf_finish; [|done].
  assert (tasks st3 = tasks st) as ->; [|done].
  unfold st3, optional. by destruct (onPlay cfg).
Qed.

Lemma inFlight_staged st tid t :
  Wf ok st → tasks st !! tid = Some t → 4 ≤ rank (ctl t) ≤ 7 →
  inFlight t = true.
Proof.
  intros H Ht Hr. apply inFlight_spec. split; [by eapply wf_kind|].
  intros E. rewrite E in Hr. simpl in Hr. lia.
Qed.

Lemma Wf_resumeSettled tid h res st :
  (∃ t, tasks st !! tid = Some t ∧ 4 ≤ rank (ctl t) ≤ 6) →
  Wf ok st → Wf ok (resumeSettled cfg tid h res st).
Proof.
  intros (t & Ht & Hr) H. unfold resumeSettled. destruct res.
  - apply Wf_succeeded; [|by apply Wf_say].
    exists t. split; [done|]. eapply inFlight_staged; [done..|lia].
  - apply Wf_playFailed; [|done]. exists t. split_and?; [done|lia|].
    eapply wf_kind; [exact H|exact Ht|lia].
Qed.

Lemma Wf_resolve tid st : Wf ok st → Wf ok (resolve cfg tid st).
Proof.
  intros H. unfold resolve.
  destruct (tasks st !! tid) as [t|] eqn:Ht; simpl; [|done].
  destruct (ctl t) eqn:C; try done.
  assert (inFlight t = true) as Hi.
  { eapply inFlight_staged; [done..|]. rewrite C. simpl. lia. }
  destruct (player st).
  - apply Wf_park; [done| |by apply Wf_say].
    simpl. intros t0 Ht0. assert (t0 = t) as -> by congruence.
    rewrite C. simpl. split_and?; [lia| |done].
    intros _. by apply inFlight_spec in Hi as [? _].
  - apply Wf_succeeded; [|done]. eauto.
Qed.

Lemma Wf_reject tid e st : Wf ok st → Wf ok (reject cfg tid e st).
Proof.
  intros H. unfold reject.
  destruct (tasks st !! tid) as [t|] eqn:Ht; simpl; [|done].
  destruct (ctl t) eqn:C; try done.
  apply Wf_playFailed; [|done]. exists t. rewrite C. simpl.
  split_and?; [done|lia|].
  eapply wf_kind; [exact H|exact Ht|]. rewrite C. simpl. lia.
Qed.

Lemma Wf_attempt_onError tid e st :
  Wf ok st → Wf ok (attempt_onError cfg tid e st).
Proof. intros H. unfold attempt_onError, cleanup. by apply Wf_reject, Wf_timer. Qed.

Lemma Wf_timedOut tid st : Wf ok st → Wf ok (timedOut cfg tid st).
Proof.
  intros H. unfold timedOut. destruct (timer <$> tasks st !! tid) as [[]|];
    try done.
  by apply Wf_reject, Wf_timer.
Qed.

Lemma Wf_loadSettled tid res st : Wf ok st → Wf ok (loadSettled cfg tid res st).
Proof.
  intros H. unfold loadSettled. destruct (chain <$> tasks st !! tid) as [[]|];
    try done.
  destruct res.
  - by apply Wf_chain, Wf_say.
  - by apply Wf_attempt_onError, Wf_chain.
Qed.

Lemma Wf_playSettled tid res st : Wf ok st → Wf ok (playSettled cfg tid res st).
Proof.
  intros H. unfold playSettled. destruct (chain <$> tasks st !! tid) as [[]|];
    try done.
  destruct res; [by apply Wf_chain|].
  by apply Wf_attempt_onError, Wf_chain.
Qed.

Lemma Wf_attempt_onFirstFrame tid h st :
  Wf ok st → Wf ok (attempt_onFirstFrame cfg tid h st).
Proof.
  intros H. unfold attempt_onFirstFrame, cleanup.
  destruct (closure <$> tasks st !! tid) as [r|]; [|done].
  by apply Wf_resolve, Wf_register, Wf_timer, Wf_say.
Qed.

Lemma Wf_wake tid st : Wf ok st → Wf ok (wake cfg tid st).
Proof.
  intros H. unfold wake. destruct (tasks st !! tid) as [t|] eqn:Ht; [|done].
  destruct (ctl t) eqn:C; try done.
  - apply Wf_stopNow; [|done]. exists t. split; [done|]. rewrite C. simpl. lia.
  - apply Wf_attempt; [|done]. exists t. rewrite C. simpl.
    split_and?; [done|lia| |done].
    eapply wf_kind; [exact H|exact Ht|]. rewrite C. simpl. lia.
  - destruct (call t) as [rc mr| |] eqn:K; try done.
    set (st1 := park tid Returned (with_running false st)).
    assert (Wf ok st1) as W1.
    { apply Wf_finish; [|done].
      exists t. split; [done|]. apply inFlight_spec. rewrite K, C. done. }
    destruct (doDestroyAndPlayRef st1); [|done].
    apply Wf_doDestroyAndPlay; [|done].
    destruct (wf_call _ _ H _ _ _ _ Ht K) as [_ Hok].
    apply ok_retry; [done|]. exact (wf_retry _ _ H _ _ _ _ Ht C K).
Qed.

Lemma Wf_settle tid res st : Wf ok st → Wf ok (settle cfg tid res st).
Proof.
  intros H. unfold settle.
  destruct (tasks st !! tid) as [t|] eqn:Ht; simpl; [|done].
  destruct (ctl t) eqn:C; try done.
  - apply Wf_stopSettled; [|done]. exists t. split; [done|]. rewrite C. simpl. lia.
  - apply Wf_destroySettled; [|done]. exists t. split; [done|].
    rewrite C. simpl. lia.
  - apply Wf_resumeSettled; [|done]. exists t. split; [done|].
    rewrite C. simpl. lia.
Qed.

Lemma Wf_qualityChanged r ev st : Wf ok st → Wf ok (qualityChanged r ev st).
Proof.
  intros H. unfold qualityChanged.
  destruct (settingQuality r); [|done]. destruct (isPlaying st); [|done].
  by apply Wf_setStreamQuality.
Qed.

Lemma Wf_dispatch h e l st : Wf ok st → Wf ok (dispatch cfg h e l st).
Proof.
  intros H. unfold dispatch. destruct l, e; try done.
  - by apply Wf_attempt_onFirstFrame.
  - by apply Wf_attempt_onError.
  - by apply Wf_restart, Wf_freeze.
  - by apply Wf_restart, Wf_freeze.
  - by apply Wf_restart, Wf_freeze.
  - by apply Wf_qualityChanged.
Qed.

Lemma Wf_emit h e st : Wf ok st → Wf ok (emit cfg h e st).
Proof.
  unfold emit. destruct (players st !! h) as [p|]; [|done].
  generalize (listeners p). intros ls. revert st.
  induction ls as [|[ty l] ls IH]; intros st H; simpl; [done|].
  apply IH. destruct (PlayerEventType.eqb ty (eventType e)); [|done].
  by apply Wf_dispatch.
Qed.

Lemma Wf_clear r st : Wf ok st → Wf ok (clear r st).
Proof.
  intros H. unfold clear. destruct (player st); [|done].
  pose proof (Wf_spawn Clear r st eq_refl H) as W1.
  unfold spawn in *. simpl in *.
  apply Wf_park; [done| |by apply Wf_on_player, Wf_say].
  simpl. intros t Ht. rewrite lookup_app_r in Ht by done.
  rewrite Nat.sub_diag in Ht. injection Ht as <-. simpl.
  split_and?; [lia|lia|done].
Qed.

Lemma Wf_standaloneStop r st :
  Wf ok st →
  Wf ok (let '(tid, st') := spawn StopVideoWithSnapshot r st in
         stopVideoWithSnapshot tid st').
Proof.
  intros H. pose proof (Wf_spawn StopVideoWithSnapshot r st eq_refl H) as W1.
  pose proof (at_most_spawn StopVideoWithSnapshot r st) as A1.
  unfold spawn in *. simpl in *.
  apply Wf_stopVideoWithSnapshot; [|done].
  eapply at_most_le; [|exact A1]. lia.
Qed.

Lemma Wf_effect_visibility prev r st :
  Wf ok st → Wf ok (effect_visibility cfg prev r st).
Proof.
  intros H. unfold effect_visibility.
  destruct (changed _ prev r); [|done].
  destruct (isVisible r && negb (NetworkConditions r) && isInit r);
    [by apply Wf_restart|by apply Wf_standaloneStop].
Qed.

(** The first two effects of a commit: the mirror and the ref catch up
    with the render being committed. *)
Lemma Wf_refresh st :
  Wf ok st →
  Wf ok (effect_ref (cur st)
           (effect_stateRefs (rendered st) (cur st)
              (with_rendered (Some (cur st)) st))).
Proof.
  intros [R O K C Y N L F M P B S E]. unfold effect_stateRefs, changed.
  destruct (rendered st) as [p|] eqn:Hp; simpl.
  - case_bool_decide as Hd; simpl; split; try done; simpl; intros q [= <-].
    + rewrite (M p eq_refl). unfold mirror. by injection Hd as -> -> -> -> -> ->.
    + done.
  - split; try done. simpl. by intros q [= <-].
Qed.

Lemma commit_refresh prev r st :
  effect_ref r (effect_stateRefs prev r (cleanup_init prev r (with_rendered (Some r) st)))
  = cleanup_init prev r (effect_ref r (effect_stateRefs prev r (with_rendered (Some r) st))).
Proof.
  unfold cleanup_init, effect_stateRefs, effect_ref, clear.
  destruct (changed initDeps prev r); simpl; [|done].
  match goal with
  | |- context [if ?c then with_stateRefs _ _ else _] => destruct c
  end; simpl; destruct (initCleanup st); simpl; try done;
    destruct (player st); done.
Qed.

Lemma Wf_commit st : Wf ok st → Wf ok (commit cfg st).
Proof.
  intros H. unfold commit.
  assert (∀ s, Wf ok s → Wf ok (effect_rotation cfg (rendered st) (cur st) s)) as H8.
  { intros s Hs. unfold effect_rotation. repeat case_match; try done.
    by apply Wf_restart. }
  assert (∀ s, Wf ok s → Wf ok (effect_init (rendered st) (cur st) s)) as H7.
  { intros s Hs. unfold effect_init. repeat case_match; try done.
    apply Wf_frame with (setIsInit None true s); [same|by apply Wf_setIsInit]. }
  assert (∀ s, Wf ok s → Wf ok (effect_streamQuality cfg (rendered st) (cur st) s))
    as H6.
  { intros s Hs. unfold effect_streamQuality. case_match; [|done].
    by apply Wf_restart. }
  assert (∀ s, Wf ok s → Wf ok (effect_quality (rendered st) (cur st) s)) as H5.
  { intros s Hs. unfold effect_quality. repeat case_match; try done.
    - by apply Wf_regQuality.
    - by apply Wf_setStreamQuality. }
  assert (∀ s, Wf ok s → Wf ok (cleanup_init (rendered st) (cur st) s)) as H1.
  { intros s Hs. unfold cleanup_init. case_match; [|done].
    apply Wf_clear. apply Wf_frame with s; [same|done]. }
  apply H8, H7, H6, H5, Wf_effect_visibility.
  rewrite commit_refresh. by apply H1, Wf_refresh.
Qed.

Lemma Wf_step e st : asks ok e → Wf ok st → Wf ok (step cfg e st).
Proof.
  intros He H.
  destruct e; simpl; try (by apply Wf_with_cur); try (by apply Wf_on_player).
  - by apply Wf_commit.
  - by apply Wf_emit.
  - by apply Wf_wake.
  - by apply Wf_timedOut.
  - by apply Wf_settle.
  - by apply Wf_loadSettled.
  - by apply Wf_playSettled.
  - destruct (rendered st); [|done]. by apply Wf_doDestroyAndPlay.
  - destruct (rendered st); [|done]. by apply Wf_standaloneStop.
Qed.

Lemma Wf_run es st : Forall (asks ok) es → Wf ok st → Wf ok (run cfg es st).
Proof.
  intros Hes. revert st. induction Hes as [|e es He _ IH]; intros st H; [done|].
  simpl. by apply IH, Wf_step.
Qed.

Lemma Wf_mount r : Wf ok (mount r).
Proof.
  split; simpl; try done. intros tid. unfold errors. simpl. split; lia.
Qed.
End Flight.

(** ** Counting by position *)

Lemma filter_at_most_one {A} (f : A → bool) (l : list A) :
  (∀ i j x y, l !! i = Some x → l !! j = Some y → f x = true → f y = true →
     i = j) →
  length (List.filter f l) ≤ 1.
Proof.
  induction l as [|a l IH]; intros H; simpl; [lia|].
  destruct (f a) eqn:E.
  - assert (List.filter f l = []) as ->; [|simpl; lia].
    destruct (List.filter f l) as [|y l'] eqn:F; [done|].
    assert (In y (List.filter f l)) as Hy by (rewrite F; by left).
    apply filter_In in Hy as [Hy Hf]. apply list_elem_of_In in Hy.
    apply list_elem_of_lookup in Hy as [j Hj].
    by specialize (H 0 (S j) a y eq_refl Hj E Hf).
  - apply IH. intros i j x y Hi Hj Fx Fy.
    specialize (H (S i) (S j) x y Hi Hj Fx Fy). lia.
Qed.

Lemma filter_none {A} (f : A → bool) (l : list A) :
  (∀ i x, l !! i = Some x → f x = false) → List.filter f l = [].
Proof.
  intros H. destruct (List.filter f l) as [|y l'] eqn:F; [done|].
  assert (In y (List.filter f l)) as Hy by (rewrite F; by left).
  apply filter_In in Hy as [Hy Hf]. apply list_elem_of_In in Hy.
  apply list_elem_of_lookup in Hy as [j Hj].
  rewrite (H _ _ Hj) in Hf. done.
Qed.

Lemma filter_some {A} (f : A → bool) (l : list A) i x :
  l !! i = Some x → f x = true → List.filter f l ≠ [].
Proof.
  intros Hi Hf E. assert (In x (List.filter f l)) as Hx.
  { apply filter_In. split; [|done]. apply list_elem_of_In.
    by eapply list_elem_of_lookup_2. }
  by rewrite E in Hx.
Qed.

Lemma Wf_reachable cfg ok es r :
  ok 0 (maxRetries (playbackSettings cfg)) →
  (∀ retryCount maxRetry, ok retryCount maxRetry →
     exhausted retryCount maxRetry = false → ok (retryCount + 1) maxRetry) →
  Forall (asks ok) es → Wf ok (run cfg es (mount r)).
Proof. intros H0 H1 Hes. apply Wf_run; [done..|]. apply Wf_mount. Qed.

Lemma asks_any es : Forall (asks (λ _ _, True)) es.
Proof. apply Forall_forall. by intros []. Qed.

Lemma defaults_retry cfg retryCount maxRetry :
  defaults cfg retryCount maxRetry → exhausted retryCount maxRetry = false →
  defaults cfg (retryCount + 1) maxRetry.
Proof.
  intros [-> Hw] Hx. split; [done|].
  destruct (maxRetries (playbackSettings cfg)) as [m|]; simpl in *; [|done].
  apply Nat.leb_gt in Hx. lia.
Qed.

Lemma defaults_zero cfg : defaults cfg 0 (maxRetries (playbackSettings cfg)).
Proof.
  split; [done|]. destruct (maxRetries (playbackSettings cfg)); simpl; [lia|done].
Qed.

(** ** The running flag *)

(** X1.  Whatever the environment does after the mount, at most one
    [doDestroyAndPlay] call is in flight, and none is while the running
    flag [isDoDestroyAndPlayRunning.current] is false. *)
Theorem one_call_in_flight cfg es r :
  let st := run cfg es (mount r) in
  length (List.filter inFlight (tasks st)) ≤ 1
  ∧ (isDoDestroyAndPlayRunning st = false
     → List.filter inFlight (tasks st) = []).
Proof.
  intros st.
  assert (Wf (λ _ _, True) st) as H.
  { apply Wf_reachable; [done|done|apply asks_any]. }
  split.
  - apply filter_at_most_one. intros i j x y. apply (wf_one _ _ H).
  - intros Hr. apply filter_none. intros i x Hx.
    destruct (inFlight x) eqn:E; [|done].
    pose proof (wf_run _ _ H _ _ Hx E). congruence.
Qed.


(** X3.  When the caller leaves the parameters of [doDestroyAndPlay] at
    their defaults, every call ever started carries the configured
    [maxRetries] and a retry count that does not exceed it, and closes over
    a render that had a stream URL and [isInit]. *)
Theorem retry_count_within_maximum cfg es r i t retryCount maxRetry :
  Forall (asks (defaults cfg)) es →
  tasks (run cfg es (mount r)) !! i = Some t →
  call t = DoDestroyAndPlay retryCount maxRetry →
  maxRetry = maxRetries (playbackSettings cfg)
  ∧ within retryCount maxRetry
  ∧ eligible (closure t).
Proof.
  intros Hes Ht Hc.
  assert (Wf (defaults cfg) (run cfg es (mount r))) as H.
  { apply Wf_reachable; [apply defaults_zero|apply defaults_retry|done]. }
  destruct (wf_call _ _ H _ _ _ _ Ht Hc) as [He [Hm Hw]]. done.
Qed.

Lemma retry_count_within_maximum_witness :
  let st := run (scenario (Finite 2)) secondSteady mounted in
  ∃ t, tasks st !! 2 = Some t ∧ call t = DoDestroyAndPlay 1 (Finite 2)
       ∧ within 1 (Finite 2) ∧ eligible (closure t).
Proof.
  intros st.
  destruct (tasks st !! 2) as [t|] eqn:Ht; [|by vm_compute in Ht].
  assert (call t = DoDestroyAndPlay 1 (Finite 2)) as Hc.
  { vm_compute in Ht. by injection Ht as <-. }
  exists t. split; [done|]. split; [done|].
  assert (Forall (asks (defaults (scenario (Finite 2)))) secondSteady) as Hes.
  { unfold secondSteady, boot. simpl. repeat constructor. }
  exact (proj2 (retry_count_within_maximum (scenario (Finite 2)) secondSteady
                  _ 2 t 1 (Finite 2) Hes Ht Hc)).
Defined.

(** X4.  With [maxRetries = Infinity] (the default) and the caller leaving
    the parameters at their defaults, the hook never gives up: it never
    sets [isCanStream] to false, and the running flag is set exactly while
    one call is in flight. *)
Theorem unlimited_retries_never_halt cfg es r :
  maxRetries (playbackSettings cfg) = Infinity →
  Forall (asks (defaults cfg)) es →
  let st := run cfg es (mount r) in
  isCanStream st ≠ Some false
  ∧ (isDoDestroyAndPlayRunning st = true
     ↔ length (List.filter inFlight (tasks st)) = 1).
Proof.
  intros Hm Hes st.
  assert (Wf (defaults cfg) st) as H.
  { apply Wf_reachable; [apply defaults_zero|apply defaults_retry|done]. }
  assert (∀ i t, tasks st !! i = Some t → halted t = false) as Hnone.
  { intros i t Ht. destruct (halted t) eqn:E; [|done].
    apply halted_spec in E as (_ & rc & mr & Hc & Hx).
    destruct (wf_call _ _ H _ _ _ _ Ht Hc) as [_ [E _]].
    rewrite E, Hm in Hx. done. }
  assert (length (List.filter inFlight (tasks st)) ≤ 1) as Hle.
  { apply filter_at_most_one. intros i j x y. apply (wf_one _ _ H). }
  split; [|split].
  - intros Hc. destruct (wf_can _ _ H Hc) as (i & t & Ht & Hh).
    rewrite (Hnone _ _ Ht) in Hh. done.
  - intros Hr. destruct (wf_live _ _ H Hr) as (i & t & Ht & [Hi|Hh]).
    + pose proof (filter_some inFlight _ _ _ Ht Hi) as Hne.
      destruct (List.filter inFlight (tasks st)); [done|]. simpl in *. lia.
    + rewrite (Hnone _ _ Ht) in Hh. done.
  - intros Hl. destruct (isDoDestroyAndPlayRunning st) eqn:E; [done|].
    rewrite filter_none in Hl; [done|]. intros i x Hx.
    destruct (inFlight x) eqn:F; [|done].
    pose proof (wf_run _ _ H _ _ Hx F). congruence.
Qed.

Lemma unlimited_retries_never_halt_witness :
  let st := run defaultConfig
              (boot ++ [TimerFires 1; Wakes 1; TimerFires 2]) mounted in
  isCanStream st ≠ Some false
  ∧ (isDoDestroyAndPlayRunning st = true
     ↔ length (List.filter inFlight (tasks st)) = 1).
Proof.
  apply (unlimited_retries_never_halt defaultConfig); [reflexivity|].
  unfold boot. simpl. repeat constructor.
Defined.

(** ** onError *)

(** X5.  [onError] is called at most once per [doDestroyAndPlay] call, and
    only for a call whose attempt has failed: it is waiting for its retry
    or has returned. *)
Theorem onError_at_most_once_per_call cfg es r tid :
  let st := run cfg es (mount r) in
  errors tid (log st) ≤ 1
  ∧ (0 < errors tid (log st) →
     ∃ t, tasks st !! tid = Some t
          ∧ (ctl t = AwaitRetryDelay ∨ ctl t = Returned)).
Proof.
  intros st.
  assert (Wf (λ _ _, True) st) as H.
  { apply Wf_reachable; [done|done|apply asks_any]. }
  destruct (wf_err _ _ H tid) as [H1 H2]. split; [done|].
  intros Hpos. destruct (H2 Hpos) as (t & Ht & Hr). exists t. split; [done|].
  destruct (ctl t); simpl in Hr; auto; lia.
Qed.

(** ** The refs *)

(** X6.  After any commit, and whatever happens until the next one,
    [stateRefs.current] holds the flags and the snapshot of the last
    committed render, and [doDestroyAndPlayRef.current] is the
    [doDestroyAndPlay] of that render. *)
Theorem refs_follow_last_commit cfg es r p :
  rendered (run cfg es (mount r)) = Some p →
  stateRefs (run cfg es (mount r)) = mirror p
  ∧ doDestroyAndPlayRef (run cfg es (mount r)) = Some p.
Proof.
  intros Hp.
  assert (Wf (λ _ _, True) (run cfg es (mount r))) as H.
  { apply Wf_reachable; [done|done|apply asks_any]. }
  split; [by apply (wf_mirror _ _ H)|]. by rewrite (wf_ref _ _ H).
Qed.

Lemma refs_follow_last_commit_witness :
  let st := run (scenario (Finite 2))
              (boot ++ [Visible false; Expired true]) mounted in
  ∃ p, rendered st = Some p ∧ isVisible (cur st) = false
       ∧ ref_isVisible (stateRefs st) = true
       ∧ stateRefs st = mirror p ∧ doDestroyAndPlayRef st = Some p.
Proof.
  intros st. destruct (rendered st) as [p|] eqn:Hp; [|by vm_compute in Hp].
  exists p. split; [done|]. split; [by vm_compute|]. split; [by vm_compute|].
  exact (refs_follow_last_commit (scenario (Finite 2))
           (boot ++ [Visible false; Expired true]) _ p Hp).
Defined.

(** X7.  [player.current], when it is set, is the player created last:
    a player that [play] has replaced is never referred to again. *)
Theorem player_ref_names_newest cfg es r h :
  player (run cfg es (mount r)) = Some h →
  last (constructed (run cfg es (mount r))) = Some h.
Proof.
  intros Hh.
  assert (Wf (λ _ _, True) (run cfg es (mount r))) as H.
  { apply Wf_reachable; [done|done|apply asks_any]. }
  rewrite (wf_built _ _ H), <- (wf_player _ _ H _ Hh), seq_S. simpl.
  apply last_snoc.
Qed.

Lemma player_ref_names_newest_witness :
  let st := run (scenario (Finite 2)) secondSteady mounted in
  player st = Some 1 ∧ constructed st = [0; 1]
  ∧ last (constructed st) = Some 1.
Proof.
  intros st.
  assert (player st = Some 1) as Hp by (vm_compute; reflexivity).
  split; [exact Hp|]. split; [vm_compute; reflexivity|].
  exact (player_ref_names_newest (scenario (Finite 2)) secondSteady _ 1 Hp).
Defined.

(** ** The held snapshot *)

Lemma lastSnapshot_split l o s :
  lastSnapshot l = Some (o, s) → ∃ l1 l2, l = l1 ++ (o, SetSnapshot s) :: l2.
Proof.
  unfold lastSnapshot. induction l as [|[o' a] l IH]; simpl; [done|].
  destruct a; simpl;
    try (intros H; destruct (IH H) as (l1 & l2 & ->);
         by eexists (_ :: l1), l2).
  intros [= -> ->]. by exists [], l.
Qed.

(** X8.  The [snapshot] state is whatever the most recent [setSnapshot]
    stored, and that is the empty string only when the call came from the
    success branch of a [doDestroyAndPlay] that had observed its first
    frame: capturing a freeze-frame never empties the snapshot. *)
Theorem snapshot_emptied_only_by_success cfg es r o s :
  lastSnapshot (log (run cfg es (mount r))) = Some (o, s) →
  snapshot (cur (run cfg es (mount r))) = s
  ∧ (truthy s = false →
     ∃ tid, o = Some tid ∧ seen tid (log (run cfg es (mount r)))).
Proof.
  intros Hl.
  assert (Wf (λ _ _, True) (run cfg es (mount r))) as H.
  { apply Wf_reachable; [done|done|apply asks_any]. }
  split; [by apply (wf_snap _ _ H o)|]. intros Hs.
  destruct (lastSnapshot_split _ _ _ Hl) as (l1 & l2 & E).
  destruct (ordered_split _ l1 o (SetSnapshot s) l2
              (inv_ordered _ (Inv_run cfg es _ (Inv_mount r))) E)
    as (tid & Ho & Hseen); [simpl; by rewrite Hs|].
  exists tid. split; [done|]. rewrite E.
  apply seen_app. destruct Hseen as [h Hh]. exists h. by apply elem_of_cons; right.
Qed.

Lemma snapshot_emptied_only_by_success_witness :
  let st := run (scenario (Finite 2))
              (boot ++ firstFrame ++ [FrameIs 0 (Some "frame-1"); Emits 0 Stopped])
              mounted in
  lastSnapshot (log st) = Some (Some 2, "frame-1")
  ∧ snapshot (cur st) = "frame-1".
Proof.
  intros st.
  assert (lastSnapshot (log st) = Some (Some 2, "frame-1")) as Hl
    by (vm_compute; reflexivity).
  split; [exact Hl|].
  exact (proj1 (snapshot_emptied_only_by_success (scenario (Finite 2)) _ _ _ _ Hl)).
Defined.

(** ** Single calls *)

Lemma running_afterStop tid st :
  isDoDestroyAndPlayRunning (afterStop tid st) = isDoDestroyAndPlayRunning st.
Proof. unfold afterStop. by repeat case_match. Qed.

Lemma running_freeze o st :
  isDoDestroyAndPlayRunning (freezeWithSnapshot o st) = isDoDestroyAndPlayRunning st.
Proof. unfold freezeWithSnapshot. by repeat case_match. Qed.

Lemma running_stopVideoWithSnapshot tid st :
  isDoDestroyAndPlayRunning (stopVideoWithSnapshot tid st)
  = isDoDestroyAndPlayRunning st.
Proof.
  unfold stopVideoWithSnapshot. case_match.
  - by rewrite running_afterStop, running_freeze.
  - simpl. apply running_freeze.
Qed.

Lemma running_playFailed cfg tid e st :
  isDoDestroyAndPlayRunning (playFailed cfg tid e st) = isDoDestroyAndPlayRunning st.
Proof.
  unfold playFailed, retryOrHalt, optional. by repeat case_match.
Qed.

Lemma running_attempt cfg tid r st :
  isDoDestroyAndPlayRunning (attempt cfg tid r st) = isDoDestroyAndPlayRunning st.
Proof.
  unfold attempt, play. case_match; [by rewrite running_playFailed|].
  simpl. unfold loadAndPlayVideo. simpl.
  destruct (networkConditions (stateRefs st)); simpl;
    rewrite ?running_playFailed; done.
Qed.

Lemma doDestroyAndPlay_sets_running cfg r retryCount maxRetry st :
  shouldSkipPlay r st = false →
  isDoDestroyAndPlayRunning (doDestroyAndPlay cfg r retryCount maxRetry st) = true.
Proof.
  intros Hs. unfold doDestroyAndPlay. rewrite Hs. simpl.
  destruct (player st);
    [by rewrite running_stopVideoWithSnapshot|by rewrite running_attempt].
Qed.

Lemma getStreamUrl_member r :
  truthy (getStreamUrl r) = true →
  ∃ s p k, streams r = Some s ∧ primary s = Some p
    ∧ (0 ≤ streamQuality r)%Z
    ∧ QUALITIES !! Z.to_nat (streamQuality r) = Some k
    ∧ member k p = Some (getStreamUrl r).
Proof.
  unfold getStreamUrl. destruct (streams r) as [s|] eqn:S; [|done].
  destruct (primary s) as [p|] eqn:P; [|done].
  destruct (0 <=? streamQuality r)%Z eqn:E; [|done].
  destruct (QUALITIES !! Z.to_nat (streamQuality r)) as [k|] eqn:K; [|done].
  destruct (member k p) as [u|] eqn:M; [|done].
  intros _. exists s, p, k. simpl. apply Z.leb_le in E. by split_and?.
Qed.

(** X9.  [getStreamUrl] gives a non-empty URL only when [streams] and its
    [primary] member exist, the tier [streamQuality] is one of 0..3 and the
    stream has the key [QUALITIES[streamQuality]]; in every other case it
    gives the empty string. *)
Theorem getStreamUrl_nonempty r :
  truthy (getStreamUrl r) = true →
  (0 ≤ streamQuality r < 4)%Z
  ∧ ∃ s p k, streams r = Some s ∧ primary s = Some p
      ∧ QUALITIES !! Z.to_nat (streamQuality r) = Some k
      ∧ member k p = Some (getStreamUrl r).
Proof.
  intros H. destruct (getStreamUrl_member r H) as (s & p & k & Hs & Hp & H0 & Hk & Hm).
  split; [|by exists s, p, k].
  apply lookup_lt_Some in Hk. simpl in Hk. lia.
Qed.

Lemma getStreamUrl_nonempty_witness :
  let r := firstRender true (Tier 3) streamsAB in
  getStreamUrl r = "B" ∧ (0 ≤ streamQuality r < 4)%Z.
Proof.
  intros r. split; [reflexivity|].
  exact (proj1 (getStreamUrl_nonempty r eq_refl)).
Defined.

(** X10.  [doDestroyAndPlay] is not re-entrant: once a call has passed
    [shouldSkipPlay], the running flag is set by the time control returns,
    and any further [doDestroyAndPlay], from whatever render and with
    whatever arguments, changes nothing. *)
Theorem doDestroyAndPlay_not_reentrant cfg r r' retryCount retryCount'
    maxRetry maxRetry' st :
  shouldSkipPlay r st = false →
  let st' := doDestroyAndPlay cfg r retryCount maxRetry st in
  isDoDestroyAndPlayRunning st' = true
  ∧ doDestroyAndPlay cfg r' retryCount' maxRetry' st' = st'.
Proof.
  intros Hs st'.
  assert (isDoDestroyAndPlayRunning st' = true) as Hr
    by (by apply doDestroyAndPlay_sets_running).
  split; [done|]. by apply doDestroyAndPlay_running.
Qed.

Lemma doDestroyAndPlay_not_reentrant_witness :
  let cfg := scenario (Finite 2) in
  let st := run cfg [Commit; VideoEl true; Commit] mounted in
  let st' := doDestroyAndPlay cfg (cur st) 0 (Finite 2) st in
  shouldSkipPlay (cur st) st = false
  ∧ isDoDestroyAndPlayRunning st' = true
  ∧ doDestroyAndPlay cfg (cur st) 5 Infinity st' = st'.
Proof.
  intros cfg st st'.
  assert (shouldSkipPlay (cur st) st = false) as Hs by (vm_compute; reflexivity).
  split; [exact Hs|].
  exact (doDestroyAndPlay_not_reentrant cfg (cur st) (cur st) 0 5 (Finite 2)
           Infinity st Hs).
Defined.

Lemma calls_say a o b st :
  calls a (say o b st) = (if bool_decide (b = a) then 1 else 0) + calls a st.
Proof. unfold calls. simpl. by case_bool_decide. Qed.

Lemma calls_with_cur a r st : calls a (with_cur r st) = calls a st.
Proof. done. Qed.

Lemma calls_frame a st st' : log st' = log st → calls a st' = calls a st.
Proof. unfold calls. by intros ->. Qed.

Lemma calls_freeze a o st :
  (∀ s, a ≠ SetSnapshot s) → (∀ b, a ≠ SetIsLoading b) →
  calls a (freezeWithSnapshot o st) = calls a st.
Proof.
  intros H1 H2. unfold freezeWithSnapshot, setSnapshot, setIsLoading.
  repeat case_match; repeat first [rewrite calls_say|rewrite calls_with_cur];
    try done;
    rewrite ?bool_decide_false
      by (intros E; first [apply (H1 _ (eq_sym E))|apply (H2 _ (eq_sym E))]);
    done.
Qed.

Lemma calls_afterStop a tid st :
  (∀ ms, a ≠ Sleep ms) → calls a (afterStop tid st) = calls a st.
Proof.
  intros H. unfold afterStop, park.
  repeat case_match; try done.
  rewrite (calls_frame a (say (Some tid) (Sleep (Some 50%Z)) st)) by done.
  rewrite calls_say, bool_decide_false; [done|]. intros E. by eapply H.
Qed.

Lemma isPlaying_freeze o st :
  isPlaying (freezeWithSnapshot o st) = isPlaying st
  ∧ player (freezeWithSnapshot o st) = player st
  ∧ players (freezeWithSnapshot o st) = players st.
Proof. unfold freezeWithSnapshot. by repeat case_match. Qed.

Lemma afterStop_ctl tid st t :
  tasks st !! tid = Some t →
  ctl <$> tasks (afterStop tid st) !! tid
  = Some (if isDoDestroyAndPlay (call t) then AwaitSleep50 else Returned).
Proof.
  intros Ht. unfold afterStop. rewrite Ht. simpl.
  destruct (call t); rewrite lookup_park; simpl; by rewrite Ht.
Qed.

(** X11.  [stopVideoWithSnapshot] touches only a player that is playing:
    when the status is not PLAYING or PLAYED (or there is no player), it
    returns after the freeze without stopping or destroying anything, the
    ref still names the player, and [onStop] is not called. *)
Theorem stopVideoWithSnapshot_idle_player tid st t :
  tasks st !! tid = Some t → isPlaying st = false →
  let st' := stopVideoWithSnapshot tid st in
  player st' = player st ∧ players st' = players st
  ∧ (∀ h, calls (Stop h) st' = calls (Stop h) st
          ∧ calls (Destroy h) st' = calls (Destroy h) st)
  ∧ calls CallOnStop st' = calls CallOnStop st
  ∧ ctl <$> tasks st' !! tid
    = Some (if isDoDestroyAndPlay (call t) then AwaitSleep50 else Returned).
Proof.
  intros Ht Hp st'. unfold st', stopVideoWithSnapshot.
  destruct (isPlaying_freeze (Some tid) st) as (E1 & E2 & E3).
  rewrite E1, Hp, orb_true_r.
  assert (∀ a, (∀ ms, a ≠ Sleep ms) → (∀ s, a ≠ SetSnapshot s) →
               (∀ b, a ≠ SetIsLoading b) →
            calls a (afterStop tid (freezeWithSnapshot (Some tid) st))
            = calls a st) as Hc.
  { intros a H1 H2 H3. by rewrite calls_afterStop, calls_freeze. }
  split_and?.
  - rewrite <- E2. unfold afterStop. by repeat case_match.
  - rewrite <- E3. unfold afterStop. by repeat case_match.
  - intros h. split; by apply Hc.
  - by apply Hc.
  - apply afterStop_ctl. by rewrite tasks_freeze.
Qed.

Lemma stopVideoWithSnapshot_idle_player_witness :
  let st0 := run (scenario (Finite 2))
               (boot ++ [StatusIs 0 PlayerStatus.LOADING]) mounted in
  let st := (spawn StopVideoWithSnapshot (cur st0) st0).2 in
  isPlaying st = false
  ∧ player (stopVideoWithSnapshot 2 st) = Some 0
  ∧ calls (Stop 0) (stopVideoWithSnapshot 2 st) = 0
  ∧ ctl <$> tasks (stopVideoWithSnapshot 2 st) !! 2 = Some Returned.
Proof.
  intros st0 st.
  assert (isPlaying st = false) as Hp by (vm_compute; reflexivity).
  destruct (tasks st !! 2) as [t|] eqn:Ht; [|by vm_compute in Ht].
  assert (call t = StopVideoWithSnapshot) as Hc.
  { vm_compute in Ht. by injection Ht as <-. }
  destruct (stopVideoWithSnapshot_idle_player 2 st t Ht Hp)
    as (E1 & _ & E3 & _ & E5).
  split; [exact Hp|]. rewrite E1, (proj1 (E3 0)), E5, Hc.
  vm_compute. repeat split.
Defined.






(** X13.  [play] hands [player.current] itself to [resumeAndSetVolume]: when
    the ref has been cleared by the time the first frame arrives, the
    attempt still completes as a success (the snapshot is cleared, the
    running flag is reset, the call returns), but neither [resume()] nor
    [setVolume] is called. *)
Theorem first_frame_without_player cfg tid h h' st t :
  tasks st !! tid = Some t → ctl t = AwaitRace h' → player st = None →
  let st' := attempt_onFirstFrame cfg tid h st in
  ctl <$> tasks st' !! tid = Some Returned
  ∧ isDoDestroyAndPlayRunning st' = false
  ∧ snapshot (cur st') = "" ∧ isLoading (cur st') = false
  ∧ ∀ h0, calls (Resume h0) st' = calls (Resume h0) st
          ∧ ∀ v, calls (SetVolume h0 v) st' = calls (SetVolume h0 v) st.
Proof.
  intros Ht Hc Hp st'. unfold st', attempt_onFirstFrame. rewrite Ht. simpl.
  set (s := registerPlayerCallbacks (Some tid) (closure t) h
              (cleanup tid (say (Some tid) (FirstFrameRendered h) st))).
  assert (tasks s !! tid = Some (task_timer false t)) as Hs.
  { unfold s. rewrite tasks_register. simpl. by rewrite update_lookup, Ht. }
  assert (player s = None) as Hps.
  { unfold s, registerPlayerCallbacks, regQualityModeCallback.
    by repeat case_match. }
  assert (∀ a, a ≠ FirstFrameRendered h →
               (∀ q n, a ≠ ConfigQualityMode h q n) →
               calls a s = calls a st) as Hcs.
  { intros a H1 H2.
    unfold s, registerPlayerCallbacks, regQualityModeCallback, calls.
    repeat case_match; simpl;
      rewrite ?bool_decide_false
        by (intros E; first [by apply H1|by eapply H2]);
      done. }
  unfold resolve. rewrite Hs. simpl. rewrite Hc, Hps.
  unfold succeeded. split_and?.
  - rewrite lookup_park. simpl. rewrite !tasks_optional. simpl.
    rewrite tasks_optional, Hs. done.
  - done.
  - unfold optional. by destruct (onPlay cfg).
  - done.
  - intros h0.
    assert (∀ a, a ≠ CallOnPlay → (∀ x, a ≠ SetSnapshot x) →
                 (∀ b, a ≠ SetIsLoading b) → a ≠ FirstFrameRendered h →
                 (∀ q n, a ≠ ConfigQualityMode h q n) →
              calls a (park tid Returned
                 (setIsLoading (Some tid) false
                    (with_running false
                       (optional (onPlay cfg) (Some tid) CallOnPlay
                          (setSnapshot (Some tid) ""
                             (optional (onPlay cfg) (Some tid) CallOnPlay s))))))
              = calls a st) as Hall.
    { intros a H1 H2 H3 H4 H5. rewrite <- (Hcs a H4 H5).
      unfold optional, calls. destruct (onPlay cfg); simpl;
        rewrite ?bool_decide_false
          by (intros E; first [by apply H1|by eapply H2|by eapply H3]);
        done. }
    split; [|intros v]; by apply Hall.
Qed.

Lemma first_frame_without_player_witness :
  let cfg := scenario (Finite 2) in
  let st := with_player None (run cfg boot mounted) in
  let st' := attempt_onFirstFrame cfg 1 0 st in
  ctl <$> tasks st !! 1 = Some (AwaitRace 0)
  ∧ ctl <$> tasks st' !! 1 = Some Returned
  ∧ isDoDestroyAndPlayRunning st' = false
  ∧ calls (Resume 0) st' = 0.
Proof.
  intros cfg st st'.
  destruct (tasks st !! 1) as [t|] eqn:Ht; [|by vm_compute in Ht].
  assert (ctl t = AwaitRace 0) as Hc.
  { vm_compute in Ht. by injection Ht as <-. }
  destruct (first_frame_without_player cfg 1 0 0 st t Ht Hc eq_refl)
    as (E1 & E2 & _ & _ & E5).
  split; [simpl; by rewrite Hc|]. split; [exact E1|]. split; [exact E2|].
  unfold st'. rewrite (proj1 (E5 0)). vm_compute. reflexivity.
Defined.

(** ** The user-quality effect *)

Lemma quality_freeze o st :
  streamQuality (cur (freezeWithSnapshot o st)) = streamQuality (cur st).
Proof. unfold freezeWithSnapshot. by repeat case_match. Qed.

Lemma quality_afterStop tid st :
  streamQuality (cur (afterStop tid st)) = streamQuality (cur st).
Proof. unfold afterStop. by repeat case_match. Qed.

Lemma quality_stopVideoWithSnapshot tid st :
  streamQuality (cur (stopVideoWithSnapshot tid st)) = streamQuality (cur st).
Proof.
  unfold stopVideoWithSnapshot. case_match.
  - by rewrite quality_afterStop, quality_freeze.
  - simpl. apply quality_freeze.
Qed.

Lemma quality_playFailed cfg tid e st :
  streamQuality (cur (playFailed cfg tid e st)) = streamQuality (cur st).
Proof. unfold playFailed, retryOrHalt, optional. by repeat case_match. Qed.

Lemma quality_attempt cfg tid r st :
  streamQuality (cur (attempt cfg tid r st)) = streamQuality (cur st).
Proof.
  unfold attempt, play. case_match; [by rewrite quality_playFailed|].
  simpl. unfold loadAndPlayVideo. simpl.
  destruct (networkConditions (stateRefs st)); simpl;
    rewrite ?quality_playFailed; done.
Qed.

Lemma quality_restart cfg st :
  streamQuality (cur (restart cfg st)) = streamQuality (cur st).
Proof.
  unfold restart, doDestroyAndPlay. destruct (doDestroyAndPlayRef st) as [r|]; [|done].
  destruct (shouldSkipPlay r st); [done|]. simpl.
  destruct (player st);
    [by rewrite quality_stopVideoWithSnapshot|by rewrite quality_attempt].
Qed.

Lemma quality_effect_visibility cfg prev r st :
  streamQuality (cur (effect_visibility cfg prev r st)) = streamQuality (cur st).
Proof.
  unfold effect_visibility. destruct (changed _ prev r); [|done].
  destruct (isVisible r && negb (NetworkConditions r) && isInit r);
    [apply quality_restart|].
  simpl. by rewrite quality_stopVideoWithSnapshot.
Qed.

Lemma quality_after cfg prev r st :
  streamQuality (cur (effect_rotation cfg prev r
                        (effect_init prev r (effect_streamQuality cfg prev r st))))
  = streamQuality (cur st).
Proof.
  unfold effect_rotation, effect_init, effect_streamQuality.
  repeat case_match; simpl; rewrite ?quality_restart; simpl;
    rewrite ?quality_restart; done.
Qed.

Lemma quality_before cfg prev r st :
  streamQuality
    (cur (effect_visibility cfg prev r
            (effect_ref r (effect_stateRefs prev r
               (cleanup_init prev r (with_rendered (Some r) st))))))
  = streamQuality (cur st).
Proof.
  rewrite quality_effect_visibility, commit_refresh.
  assert (∀ s, streamQuality (cur (cleanup_init prev r s)) = streamQuality (cur s))
    as ->.
  { intros s. unfold cleanup_init, clear. case_match; [|done]. simpl.
    by destruct (player s). }
  unfold effect_ref, effect_stateRefs. by case_match.
Qed.

(** X14.  In manual mode the user-quality effect makes the selected tier
    the stream quality: after a commit in which the selection, the stream
    quality or the video element differ from the previous commit (or the
    first commit), with the element in place, the next render reads
    [streamQuality] equal to the selected tier, whatever the other effects
    of that commit do. *)
Theorem manual_quality_is_applied cfg st q :
  settingQuality (cur st) = Tier q → videoEl (cur st) = true →
  changed (λ r, (settingQuality r, streamQuality r, videoEl r))
          (rendered st) (cur st) = true →
  streamQuality (cur (commit cfg st)) = q.
Proof.
  intros Hq Hv Hc. unfold commit. rewrite quality_after.
  unfold effect_quality. rewrite Hc, Hv, Hq. simpl.
  destruct (q =? streamQuality (cur st))%Z eqn:E; [|done].
  rewrite quality_before. by apply Z.eqb_eq in E.
Qed.

Lemma manual_quality_is_applied_witness :
  let cfg := scenario (Finite 2) in
  let st := run cfg (boot ++ [SettingQuality (Tier 0)]) mounted in
  streamQuality (cur st) = 3%Z ∧ streamQuality (cur (commit cfg st)) = 0%Z.
Proof.
  intros cfg st. split; [vm_compute; reflexivity|].
  apply (manual_quality_is_applied cfg st 0); vm_compute; reflexivity.
Defined.

(** ** The reload test page *)

Section Page.
Import App.

Lemma Page_say v a p : calm a → Inv v p → Inv v (say a p).
Proof.
  intros Ha [R I B T L]. split; simpl; try done.
  - unfold built in *. simpl. by destruct a.
  - by destruct a.
  - intros h url Hin. apply elem_of_cons in Hin as [E|Hin]; [|by eapply L].
    by rewrite <- E in Ha.
Qed.

Lemma Page_tear v a p h :
  a = Stop h ∨ a = Destroy h → playerRef p = Some h → Inv v p → Inv v (say a p).
Proof.
  intros Ha Hp [R I B T L]. destruct R as (h' & Hh & Hl).
  assert (h' = h) as -> by congruence.
  split; simpl; try done.
  - eauto.
  - unfold built in *. simpl. by destruct Ha as [->| ->].
  - split; [|done]. rewrite B. by destruct Ha as [->| ->].
  - intros h0 url Hin. apply elem_of_cons in Hin as [E|Hin]; [|by eapply L].
    destruct Ha; congruence.
Qed.

Lemma Page_frame v p p' :
  playerRef p' = playerRef p → urlIndex p' = urlIndex p →
  length (frames p') = length (frames p) → log p' = log p →
  Inv v p → Inv v p'.
Proof.
  intros Hr Hi Hf Hl [R I B T L]. split; rewrite ?Hr, ?Hi, ?Hf, ?Hl; done.
Qed.

Lemma Page_wait v i w p : Inv v p → Inv v (wait i w p).
Proof. by apply Page_frame. Qed.

Lemma Page_setSnapshot v s p : Inv v p → Inv v (setSnapshot s p).
Proof. intros H. apply Page_say; [done|]. by eapply Page_frame; [..|exact H]. Qed.

Lemma Page_later v ms p : Inv v p → Inv v (later ms p).
Proof. intros H. apply Page_say; [done|]. by eapply Page_frame; [..|exact H]. Qed.

(** Building needs nothing of the ref: it is overwritten. *)
Lemma Page_build v i p :
  urlIndex p < length STREAM_URLS → built (log p) = length (frames p) →
  newestOnly (log p) → loadsKnown v (log p) →
  Inv v (build v i p).
Proof.
  intros I B T L. unfold build. apply Page_wait. split; simpl.
  - exists (length (frames p)). split; [done|]. rewrite length_app. simpl. lia.
  - done.
  - unfold built in *. simpl. rewrite B, length_app. simpl. lia.
  - by rewrite B.
  - intros h url Hin.
    apply elem_of_cons in Hin as [[= -> ->]|Hin].
    + destruct v.
      * by exists STREAM_URL.
      * destruct (STREAM_URLS !! urlIndex p) as [u|] eqn:E.
        -- exists u. split; [done|]. by eapply list_elem_of_lookup_2.
        -- apply lookup_ge_None in E. lia.
    + apply elem_of_cons in Hin as [?|Hin]; [done|].
      apply elem_of_cons in Hin as [?|Hin]; [done|]. by eapply L.
Qed.

Lemma Page_rebuild v i p : Inv v p → Inv v (rebuild v i p).
Proof. intros [R I B T L]. by apply Page_build. Qed.

Lemma Page_playLoop v p : Inv v p → Inv v (playLoop v p).
Proof.
  intros H. unfold playLoop. destruct (playerRef p) as [h|] eqn:Hp.
  - assert (Inv v (say (TakeSnapshot h) p)) as H1 by (by apply Page_say).
    destruct (frames (say (TakeSnapshot h) p) !! h) as [[s|]|].
    + apply Page_wait, (Page_tear _ _ _ h); [by left|done|]. by apply Page_setSnapshot.
    + by apply Page_rebuild.
    + by apply Page_rebuild.
  - destruct H as [R I B T L]. by apply Page_build.
Qed.

Lemma Page_settle v i res p : Inv v p → Inv v (settle v i res p).
Proof.
  intros H. unfold settle. destruct (loops p !! i) as [[]|]; try done.
  - destruct res; [|by apply Page_rebuild].
    destruct (playerRef p) as [h|] eqn:Hp; [|by apply Page_rebuild].
    apply Page_wait, (Page_tear _ _ _ h); [by right|done|done].
  - by apply Page_rebuild.
  - destruct res; [|by apply Page_wait, Page_later].
    apply Page_wait. destruct H as [R I B T L]. split; simpl; try done.
    intros h0 url Hin. apply elem_of_cons in Hin as [?|Hin]; [done|]. by eapply L.
  - destruct res; [|by apply Page_wait, Page_later].
    apply Page_wait. destruct v; [done|].
    assert ((urlIndex p + 1) mod length STREAM_URLS < length STREAM_URLS) as Hm
      by (by apply Nat.mod_upper_bound).
    destruct H as [R I B T L]. split; done.
Qed.

Lemma Page_step v e p : Inv v p → Inv v (step v e p).
Proof.
  intros H. destruct e; simpl.
  - eapply Page_frame; [..|exact H]; try done. simpl.
    case_decide; [by rewrite length_insert|done].
  - unfold firstFrame. case_decide; [|done]. by apply Page_later, Page_setSnapshot.
  - by apply Page_settle.
  - destruct (timers p !! k) as [[]|]; try done.
    apply Page_playLoop. by eapply Page_frame; [..|exact H].
  - unfold unmount. destruct (playerRef p) as [h|] eqn:Hp; [|done].
    apply (Page_tear _ _ _ h); [by right|done|].
    apply (Page_tear _ _ _ h); [by left|done|done].
Qed.

Lemma Page_run v es p : Inv v p → Inv v (run v es p).
Proof.
  revert p. induction es as [|e es IH]; intros p H; simpl; [done|].
  by apply IH, Page_step.
Qed.

Lemma Page_mount v : Inv v (mount v).
Proof.
  unfold mount, playLoop. simpl. apply Page_build; simpl; try done; [lia|].
  intros h url Hin. by apply elem_of_nil in Hin.
Qed.
End Page.

(** X15.  On the test page, whatever the players and timers do,
    [playerRef.current] names the player built last, players are built one
    after the other, and [stop()] and [destroy()] are only ever called on
    the player that is the newest at that moment: a player that has been
    replaced is never torn down later. *)
Theorem page_tears_down_newest_only v es :
  let p := App.run v es (App.mount v) in
  (∃ h, App.playerRef p = Some h ∧ S h = App.built (App.log p))
  ∧ App.newestOnly (App.log p).
Proof.
  intros p. destruct (Page_run v es _ (Page_mount v)) as [(h & Hh & Hl) I B T L].
  split; [|done]. exists h. split; [done|]. unfold p. by rewrite B.
Qed.

(** X16.  On the test page every [load] gets a URL: the rotating version
    keeps [urlIndexRef.current] within [STREAM_URLS], so [load] is never
    called with [undefined]. *)
Theorem page_loads_known_urls v es :
  let p := App.run v es (App.mount v) in
  App.urlIndex p < length App.STREAM_URLS
  ∧ ∀ h url, App.Load h url ∈ App.log p →
      ∃ u, url = Some u
           ∧ match v with
             | App.Single => u = App.STREAM_URL
             | App.Rotating => u ∈ App.STREAM_URLS
             end.
Proof.
  intros p. destruct (Page_run v es _ (Page_mount v)) as [_ I _ _ L]. by split.
Qed.
